(** * grafana-git-sync: folder-tree reconciliation and change detection

    A shallow embedding of the Go packages [pkg/sync] (path classifier,
    folder graph builder, change detector, dashboard loader), [pkg/grafana]
    (remote folder reconciler, readiness and service account requests,
    dashboard upload), [pkg/git] (authentication), [pkg/config] and
    [pkg/health], followed by the properties of the specification that were
    checked against them and by further properties of the code.

    Conventions of the embedding.
    - A Go [string] is a [string] (a sequence of one-byte characters); the
      loops that range over runes are modelled character by character.
    - A Go [int] is a [Z]; [[]byte] is [list Byte.byte].
    - A Go [map] is a stdpp [gmap]; a method with a pointer receiver takes
      the receiver's state and returns the new one.
    - A Go [error] is [option string]: [None] is [nil], [Some msg] carries
      the message of the error. *)

From Stdlib Require Import ZArith Ascii String List Lia.
From Stdlib Require Strings.Byte.
From stdpp Require Import gmap strings list fin_maps pretty.

Set Warnings "-clear-no-such-hyp".

Open Scope string_scope.
Open Scope list_scope.
Open Scope Z_scope.

(** ** crypto/sha256 and encoding/hex *)

Module Sha256.

Definition mask32 : Z := 4294967295.
Definition add32 (a b : Z) : Z := Z.land (a + b) mask32.
Definition rotr (n x : Z) : Z :=
  Z.land (Z.lor (Z.shiftr x n) (Z.shiftl x (32 - n))) mask32.
Definition not32 (x : Z) : Z := Z.lxor x mask32.

Definition Ch (x y z : Z) : Z := Z.lxor (Z.land x y) (Z.land (not32 x) z).
Definition Maj (x y z : Z) : Z :=
  Z.lxor (Z.lxor (Z.land x y) (Z.land x z)) (Z.land y z).
Definition bsig0 (x : Z) : Z := Z.lxor (Z.lxor (rotr 2 x) (rotr 13 x)) (rotr 22 x).
Definition bsig1 (x : Z) : Z := Z.lxor (Z.lxor (rotr 6 x) (rotr 11 x)) (rotr 25 x).
Definition ssig0 (x : Z) : Z := Z.lxor (Z.lxor (rotr 7 x) (rotr 18 x)) (Z.shiftr x 3).
Definition ssig1 (x : Z) : Z := Z.lxor (Z.lxor (rotr 17 x) (rotr 19 x)) (Z.shiftr x 10).

(** The round constants are the first thirty-two bits of the fractional
    parts of the cube roots of the first sixty-four primes, the initial hash
    value those of the square roots of the first eight. *)
Definition primes : list Z :=
  [ 2; 3; 5; 7; 11; 13; 17; 19; 23; 29; 31; 37; 41; 43; 47; 53; 59; 61; 67; 71;
    73; 79; 83; 89; 97; 101; 103; 107; 109; 113; 127; 131; 137; 139; 149; 151;
    157; 163; 167; 173; 179; 181; 191; 193; 197; 199; 211; 223; 227; 229; 233;
    239; 241; 251; 257; 263; 269; 271; 277; 281; 283; 293; 307; 311 ].

(** The integer cube root of [n], one bit at a time from bit [bits - 1]. *)
Fixpoint cbrt (bits : nat) (n r : Z) : Z :=
  match bits with
  | O => r
  | S b =>
      let r' := r + Z.shiftl 1 (Z.of_nat b) in
      cbrt b n (if (r' * r' * r' <=? n)%Z then r' else r)
  end.

Definition K : list Z :=
  map (fun p => Z.land (cbrt 36 (Z.shiftl p 96) 0) mask32) primes.

Definition H0 : list Z :=
  map (fun p => Z.land (Z.sqrt (Z.shiftl p 64)) mask32) (firstn 8 primes).

(** Big-endian bytes of a [w]-byte quantity. *)
Fixpoint be_bytes (w : nat) (x : Z) : list Z :=
  match w with
  | O => []
  | S w' => Z.land (Z.shiftr x (8 * Z.of_nat w')) 255 :: be_bytes w' x
  end.

Definition pad (msg : list Z) : list Z :=
  let len := Z.of_nat (length msg) in
  let zeros := Z.to_nat ((55 - len) mod 64) in
  msg ++ [128] ++ repeat 0 zeros ++ be_bytes 8 (8 * len).

Fixpoint words (fuel : nat) (bs : list Z) : list Z :=
  match fuel, bs with
  | S f, b0 :: b1 :: b2 :: b3 :: rest =>
      (Z.shiftl b0 24 + Z.shiftl b1 16 + Z.shiftl b2 8 + b3) :: words f rest
  | _, _ => []
  end.

Definition nthZ (l : list Z) (i : nat) : Z := nth i l 0.

(** Message schedule: extends the sixteen block words to sixty-four. *)
Fixpoint schedule (n : nat) (w : list Z) : list Z :=
  match n with
  | O => w
  | S n' =>
      let t := length w in
      let x := add32 (add32 (ssig1 (nthZ w (t - 2))) (nthZ w (t - 7)))
                     (add32 (ssig0 (nthZ w (t - 15))) (nthZ w (t - 16))) in
      schedule n' (w ++ [x])
  end.

Definition round (st : list Z) (kw : Z * Z) : list Z :=
  match st with
  | [a; b; c; d; e; f; g; h] =>
      let t1 := add32 (add32 (add32 h (bsig1 e)) (add32 (Ch e f g) (fst kw))) (snd kw) in
      let t2 := add32 (bsig0 a) (Maj a b c) in
      [add32 t1 t2; a; b; c; add32 d t1; e; f; g]
  | _ => st
  end.

Definition compress (h : list Z) (block : list Z) : list Z :=
  let w := schedule 48 (words 16 block) in
  let st := fold_left round (combine K w) h in
  map (fun p => add32 (fst p) (snd p)) (combine h st).

Fixpoint blocks (fuel : nat) (h : list Z) (bs : list Z) : list Z :=
  match fuel with
  | O => h
  | S f =>
      match bs with
      | [] => h
      | _ => blocks f (compress h (firstn 64 bs)) (skipn 64 bs)
      end
  end.

Definition byteZ (b : Byte.byte) : Z := Z.of_N (Byte.to_N b).

(** [sha256.Sum256]: the thirty-two digest bytes. *)
Definition Sum256 (content : list Byte.byte) : list Z :=
  let bs := pad (map byteZ content) in
  flat_map (be_bytes 4) (blocks (length bs) H0 bs).

Definition hexdigit (n : Z) : ascii :=
  nth (Z.to_nat n) (list_ascii_of_string "0123456789abcdef") "0"%char.

(** [hex.EncodeToString] *)
Fixpoint EncodeToString (bs : list Z) : string :=
  match bs with
  | [] => ""
  | b :: rest =>
      String (hexdigit (Z.shiftr b 4)) (String (hexdigit (Z.land b 15)) (EncodeToString rest))
  end.

End Sha256.

(** ** package strings *)

Module Strings.

(** Cuts [s] at every character satisfying [p]; the pieces between two
    cuts are kept even when empty, so the result is never empty. *)
Fixpoint splitOn (p : ascii -> bool) (s : string) : list string :=
  match s with
  | EmptyString => [""]
  | String c s' =>
      if p c then "" :: splitOn p s'
      else match splitOn p s' with
           | w :: ws => String c w :: ws
           | [] => [String c ""]
           end
  end.

(** [strings.Split(s, sep)] for a separator of one character, the only
    form the program uses. *)
Definition Split (s : string) (sep : ascii) : list string :=
  splitOn (Ascii.eqb sep) s.

(** [strings.Join(elems, sep)] *)
Fixpoint Join (elems : list string) (sep : string) : string :=
  match elems with
  | [] => ""
  | [e] => e
  | e :: rest => e +:+ sep +:+ Join rest sep
  end.

Definition HasPrefixChar (s : string) (p : ascii -> bool) : bool :=
  match s with
  | String c _ => p c
  | EmptyString => false
  end.

Fixpoint mapChars (f : ascii -> ascii) (s : string) : string :=
  match s with
  | EmptyString => ""
  | String c s' => String (f c) (mapChars f s')
  end.

Fixpoint anyChar (p : ascii -> bool) (s : string) : bool :=
  match s with
  | EmptyString => false
  | String c s' => p c || anyChar p s'
  end.

End Strings.

(** ** package path/filepath

    The lexical path functions of the Go standard library that the program
    calls, for paths without a volume name.  They depend on the platform
    through [Separator] and [IsPathSeparator] only. *)

Module Filepath.

Record Platform := mkPlatform {
  Separator : ascii;
  IsPathSeparator : ascii -> bool
}.

Definition Unix : Platform :=
  mkPlatform "/" (fun c => Ascii.eqb c "/").

Definition Windows : Platform :=
  mkPlatform "\" (fun c => Ascii.eqb c "\" || Ascii.eqb c "/").

Section WithPlatform.
Variable P : Platform.

Definition sepString : string := String (Separator P) "".

(** [filepath.ToSlash]: every [Separator] becomes a slash. *)
Definition ToSlash (path : string) : string :=
  if Ascii.eqb (Separator P) "/" then path
  else Strings.mapChars (fun c => if Ascii.eqb c (Separator P) then "/"%char else c) path.

(** [filepath.FromSlash]: every slash becomes a [Separator]. *)
Definition FromSlash (path : string) : string :=
  if Ascii.eqb (Separator P) "/" then path
  else Strings.mapChars (fun c => if Ascii.eqb c "/" then Separator P else c) path.

(** One path element read by [Clean]; [out] holds the elements written
    so far, the last one first. *)
Definition cleanStep (rooted : bool) (out : list string) (elem : string)
  : list string :=
  if bool_decide (elem = "") then out
  else if bool_decide (elem = ".") then out
  else if bool_decide (elem = "..") then
    match out with
    | top :: rest =>
        if bool_decide (top = "..")
        then (if rooted then out else ".." :: out)
        else rest
    | [] => if rooted then out else [".."]
    end
  else elem :: out.

(** [filepath.Clean] *)
Definition Clean (path : string) : string :=
  if bool_decide (path = "") then "."
  else
    let rooted := Strings.HasPrefixChar path (IsPathSeparator P) in
    let out := fold_left (cleanStep rooted)
                         (Strings.splitOn (IsPathSeparator P) path) [] in
    let s := (if rooted then sepString else "") +:+ Strings.Join (rev out) sepString in
    FromSlash (if bool_decide (s = "") then "." else s).

(** The prefix of [path] up to and including its last separator. *)
Fixpoint dirPrefix (path : string) : string :=
  match path with
  | EmptyString => ""
  | String c rest =>
      match dirPrefix rest with
      | EmptyString => if IsPathSeparator P c then String c "" else ""
      | r => String c r
      end
  end.

(** [filepath.Dir] *)
Definition Dir (path : string) : string := Clean (dirPrefix path).

(** The elements of a cleaned path as the scanning loop of [Rel] meets
    them: cut at [Separator], a final empty piece is not an element. *)
Definition elems (s : string) : list string :=
  let l := Strings.Split s (Separator P) in
  if bool_decide (last l = Some "") then removelast l else l.

(** Skips the leading elements that [base] and [targ] share; the flag
    tells that the scan stopped at two differing elements. *)
Fixpoint relLoop (base targ : list string) : list string * list string * bool :=
  match base, targ with
  | b :: base', t :: targ' =>
      if bool_decide (t = b) then relLoop base' targ' else (base, targ, true)
  | _, _ => (base, targ, false)
  end.

(** [filepath.Rel]: the relative path and the error. *)
Definition Rel (basepath targpath : string) : string * option string :=
  let base := Clean basepath in
  let targ := Clean targpath in
  let failure :=
    ("", Some ("Rel: can't make " +:+ targpath +:+ " relative to " +:+ basepath)) in
  if bool_decide (targ = base) then (".", None)
  else
    let base := if bool_decide (base = ".") then "" else base in
    let baseSlashed := Strings.HasPrefixChar base (Ascii.eqb (Separator P)) in
    let targSlashed := Strings.HasPrefixChar targ (Ascii.eqb (Separator P)) in
    if negb (Bool.eqb baseSlashed targSlashed) then failure
    else
      let '(b, t, differ) := relLoop (elems base) (elems targ) in
      if differ && bool_decide (head b = Some "..") then failure
      else
        match b with
        | [] => (Strings.Join t sepString, None)
        | _ => (Strings.Join (map (fun _ => "..") b ++ t) sepString, None)
        end.

End WithPlatform.

End Filepath.

(** ** package sync *)

Module Sync.

(** [os.ReadFile] reads from the file system of the host: a path either
    has a content or cannot be read. *)
Definition FileSystem := string -> option (list Byte.byte).

Record Service := mkService {
  repoDir : string;
  repoSubdir : string;
  dashboardsDir : string;
  fileHashes : gmap string string
}.

Definition NewService (repoDir repoSubdir dashboardsDir : string) : Service :=
  mkService repoDir repoSubdir dashboardsDir ∅.

Definition set_fileHashes (s : Service) (m : gmap string string) : Service :=
  mkService (repoDir s) (repoSubdir s) (dashboardsDir s) m.

Definition computeFileHash (content : list Byte.byte) : string :=
  Sha256.EncodeToString (Sha256.Sum256 content).

Definition HasFileChanged (s : Service) (path : string) (content : list Byte.byte)
  : bool * Service :=
  let newHash := computeFileHash content in
  match fileHashes s !! path with
  | Some oldHash =>
      if bool_decide (oldHash ≠ newHash)
      then (true, set_fileHashes s (<[path := newHash]> (fileHashes s)))
      else (false, s)
  | None => (true, set_fileHashes s (<[path := newHash]> (fileHashes s)))
  end.

Fixpoint GetChangedFiles_loop (fs : FileSystem) (allFiles : list string)
    (changed : list string) (s : Service) : list string * Service :=
  match allFiles with
  | [] => (changed, s)
  | filePath :: rest =>
      match fs filePath with
      | None => GetChangedFiles_loop fs rest changed s
      | Some content =>
          let '(b, s') := HasFileChanged s filePath content in
          GetChangedFiles_loop fs rest (if b then changed ++ [filePath] else changed) s'
      end
  end.

Definition GetChangedFiles (fs : FileSystem) (s : Service) (allFiles : list string)
  : (list string * option string) * Service :=
  let '(changed, s') := GetChangedFiles_loop fs allFiles [] s in
  ((changed, None), s').

(** *** Path classifier *)

Section Paths.
Variable P : Filepath.Platform.

Definition detectFolderFromPath (s : Service) (filePath : string) : string :=
  let '(rel, err) := Filepath.Rel P (dashboardsDir s) (Filepath.Dir P filePath) in
  match err with
  | Some _ => ""
  | None =>
      let rel := Filepath.ToSlash P rel in
      if bool_decide (rel = ".") || bool_decide (rel = "") then "" else rel
  end.

(** The loop of [GetUniqueFolders]; a key that [folderSet] does not hold
    reads as [false]. *)
Fixpoint GetUniqueFolders_loop (s : Service) (dashboardFiles : list string)
    (folderSet : gmap string bool) (folders : list string) : list string :=
  match dashboardFiles with
  | [] => folders
  | file :: rest =>
      let folderPath := detectFolderFromPath s file in
      if negb (bool_decide (folderPath = ""))
         && negb (default false (folderSet !! folderPath))
      then GetUniqueFolders_loop s rest (<[folderPath := true]> folderSet)
                                 (folders ++ [folderPath])
      else GetUniqueFolders_loop s rest folderSet folders
  end.

Definition GetUniqueFolders (s : Service) (dashboardFiles : list string)
  : list string :=
  GetUniqueFolders_loop s dashboardFiles ∅ [].

End Paths.

(** *** Dashboard files

    [json.Unmarshal] into a [map[string]interface{}] and the text of the
    error of [os.ReadFile] belong to the Go library; a dashboard is
    whatever the decoder makes of the content of a file. *)

Class Json := mkJson {
  JsonObject : Type;
  Unmarshal : list Byte.byte -> string + JsonObject;
  readError : string -> string
}.

Section Dashboards.
Variable P : Filepath.Platform.
Context {J : Json}.

Record Dashboard := mkDashboard {
  FilePath : string;
  FolderPath : string;
  Content : JsonObject
}.

(** [LoadDashboard]: the dashboard or the error. *)
Definition LoadDashboard (fs : FileSystem) (s : Service) (filePath : string)
  : Dashboard + string :=
  match fs filePath with
  | None => inr ("failed to read dashboard file: " +:+ readError filePath)
  | Some content =>
      match Unmarshal content with
      | inl err => inr ("invalid JSON in file: " +:+ err)
      | inr dashboard =>
          inl (mkDashboard filePath (detectFolderFromPath P s filePath) dashboard)
      end
  end.

End Dashboards.

(** *** Folder graph

    The graph maps a path to a pointer to its node, and a node lists
    pointers to its children; two pointers are compared by identity.  The
    nodes therefore live in a heap, a pointer is the index of its node,
    and a node allocated by [&FolderNode{...}] goes to the end of the
    heap. *)

Abbreviation ptr := nat (only parsing).

Record FolderNode := mkFolderNode {
  Name : string;
  FullPath : string;
  Children : list ptr;
  UID : string;
  ID : Z
}.

Record Store := mkStore {
  heap : list FolderNode;
  graph : gmap string ptr
}.

Definition set_Children (n : FolderNode) (cs : list ptr) : FolderNode :=
  mkFolderNode (Name n) (FullPath n) cs (UID n) (ID n).

(** The body of the inner loop of [BuildFolderGraph] at index [i];
    [None] is the panic of dereferencing an absent (nil) map entry. *)
Definition visit (parts : list string) (i : nat) (st : Store) : option Store :=
  let currPath := Strings.Join (take (S i) parts) "/" in
  let st1 :=
    match graph st !! currPath with
    | Some _ => st
    | None =>
        mkStore (heap st ++ [mkFolderNode (nth i parts "") currPath [] "" 0])
                (<[currPath := length (heap st)]> (graph st))
    end in
  match i with
  | O => Some st1
  | S _ =>
      let parentPath := Strings.Join (take i parts) "/" in
      match graph st1 !! parentPath with
      | None => None
      | Some pp =>
          match heap st1 !! pp, graph st1 !! currPath with
          | Some parent, Some cp =>
              let found := existsb (Nat.eqb cp) (Children parent) in
              if found then Some st1
              else Some (mkStore
                           (<[pp := set_Children parent (Children parent ++ [cp])]> (heap st1))
                           (graph st1))
          | _, _ => None
          end
      end
  end.

Fixpoint visitAll (parts : list string) (indices : list nat) (st : Store)
  : option Store :=
  match indices with
  | [] => Some st
  | i :: rest =>
      match visit parts i st with
      | Some st' => visitAll parts rest st'
      | None => None
      end
  end.

Section Builder.
Variable P : Filepath.Platform.

(** The relative folder of one dashboard path, as the outer loop
    computes it (the error of [Rel] is dropped there). *)
Definition relOf (baseDir path : string) : string :=
  Filepath.ToSlash P (fst (Filepath.Rel P baseDir (Filepath.Dir P path))).

Fixpoint BuildFolderGraph_loop (dashboardPaths : list string) (baseDir : string)
    (st : Store) : option Store :=
  match dashboardPaths with
  | [] => Some st
  | path :: rest =>
      let rel := relOf baseDir path in
      if bool_decide (rel = ".") || bool_decide (rel = "")
      then BuildFolderGraph_loop rest baseDir st
      else
        let parts := Strings.Split rel "/" in
        match visitAll parts (seq 0 (length parts)) st with
        | Some st' => BuildFolderGraph_loop rest baseDir st'
        | None => None
        end
  end.

Definition BuildFolderGraph (dashboardPaths : list string) (baseDir : string)
  : option Store :=
  BuildFolderGraph_loop dashboardPaths baseDir (mkStore [] ∅).

End Builder.

(** [HasParent]: some node of the graph lists [node] among its children.
    The order in which the map is ranged over does not matter. *)
Definition HasParent (node : ptr) (st : Store) : bool :=
  existsb (fun kp =>
             match heap st !! (snd kp) with
             | Some n => existsb (Nat.eqb node) (Children n)
             | None => false
             end)
          (map_to_list (graph st)).

(** *** The tree below a node

    [CreateFolderTreeFromNode] walks a node and, through the pointers in
    [Children], the nodes below it.  [Tree] is that part of the heap read
    as a value: the node and the trees of its children. *)

#[local] Set Warnings "-register-all".
Inductive Tree : Type :=
| Node (name fullPath : string) (children : list Tree) (uid : string) (id : Z).

Definition treeName (t : Tree) : string := let 'Node n _ _ _ _ := t in n.
Definition treeFullPath (t : Tree) : string := let 'Node _ f _ _ _ := t in f.
Definition treeChildren (t : Tree) : list Tree := let 'Node _ _ cs _ _ := t in cs.
Definition treeUID (t : Tree) : string := let 'Node _ _ _ u _ := t in u.
Definition treeID (t : Tree) : Z := let 'Node _ _ _ _ i := t in i.

(** Reads the tree below pointer [p] from the heap, down to depth [depth]. *)
Fixpoint load (depth : nat) (h : list FolderNode) (p : ptr) : option Tree :=
  match depth with
  | O => None
  | S d =>
      match h !! p with
      | None => None
      | Some n =>
          match mapM (load d h) (Children n) with
          | Some cs => Some (Node (Name n) (FullPath n) cs (UID n) (ID n))
          | None => None
          end
      end
  end.

End Sync.

(** ** package grafana *)

Module Grafana.

(** One element of the folder list that the server returns. *)
Record folderEntry := mkFolderEntry {
  entryID : Z;
  entryUID : string;
  entryTitle : string;
  entryParentUID : string
}.

(** What [c.client.Do] and the decoding of the body give for one request:
    a transport error, or a status code with the raw body and the outcome
    of decoding the body as JSON ([inl] is the decoder's error). *)
Inductive Response (A : Type) : Type :=
| TransportError (err : string)
| Http (statusCode : Z) (body : string) (decoded : string + A).
Arguments TransportError {A} err.
Arguments Http {A} statusCode body decoded.

(** The remote server.  Its state is arbitrary; a request moves it to a
    new state and yields a response.  [doGetFolders w parentUid] is the
    GET of [/api/folders] (with [parentUid] when not empty);
    [doPostFolder w title parentUid] is the POST of a new folder. *)
Class Remote := mkRemote {
  World : Type;
  doGetFolders : World -> string -> World * Response (list folderEntry);
  doPostFolder : World -> string -> string -> World * Response (Z * string)
}.

(** The requests a client has sent, with the responses it received. *)
Inductive Call : Type :=
| CallGet (parentUid : string) (resp : Response (list folderEntry))
| CallPost (title parentUid : string) (resp : Response (Z * string)).

Definition isPost (k : Call) : bool :=
  match k with CallPost _ _ _ => true | CallGet _ _ => false end.

Section Client.
Context {R : Remote}.

Record Client := mkClient {
  url : string;
  token : string;
  user : string;
  password : string;
  folders : gmap string Z;
  world : World;
  calls : list Call
}.

Definition NewClient (url token user password : string) (w : World) : Client :=
  mkClient url token user password ∅ w [].

Definition set_folders (c : Client) (m : gmap string Z) : Client :=
  mkClient (url c) (token c) (user c) (password c) m (world c) (calls c).

Definition sent (c : Client) (w : World) (k : Call) : Client :=
  mkClient (url c) (token c) (user c) (password c) (folders c) w (calls c ++ [k]).

Definition GetFolderIDByPath (c : Client) (folderPath : string) : Z :=
  if bool_decide (folderPath = "") || bool_decide (folderPath = ".") then 0
  else match folders c !! folderPath with
       | Some id => id
       | None => 0
       end.

(** The search loop of [getFolderByTitle] over the decoded list. *)
Fixpoint findFolder (title parentUid : string) (l : list folderEntry)
  : Z * string * option string :=
  match l with
  | [] => (0, "", None)
  | folder :: rest =>
      if bool_decide (entryTitle folder = title) then
        if bool_decide (parentUid = "") && bool_decide (entryParentUID folder = "")
        then (entryID folder, entryUID folder, None)
        else if negb (bool_decide (parentUid = ""))
                && bool_decide (entryParentUID folder = parentUid)
        then (entryID folder, entryUID folder, None)
        else findFolder title parentUid rest
      else findFolder title parentUid rest
  end.

Definition getFolderByTitle (c : Client) (title parentUid : string)
  : Client * (Z * string * option string) :=
  let '(w, resp) := doGetFolders (world c) parentUid in
  let c := sent c w (CallGet parentUid resp) in
  match resp with
  | TransportError err => (c, (0, "", Some err))
  | Http statusCode body decoded =>
      if negb (statusCode =? 200)%Z
      then (c, (0, "", Some ("failed to list folders: " +:+ body)))
      else match decoded with
           | inl err => (c, (0, "", Some err))
           | inr l => (c, findFolder title parentUid l)
           end
  end.

(** The statements that [CreateFolderTreeFromNode] runs on a node before
    it turns to the children, and [createFolderRecursive] on a path
    segment: query, then create when the query finds nothing, then query
    again when the creation is refused as a conflict.  On success the
    identifiers are returned and [c.folders[path]] is written. *)
Definition ensureFolder (c : Client) (name path parentUid : string)
  : Client * (string + Z * string) :=
  let '(c, (existingID, existingUID, err)) := getFolderByTitle c name parentUid in
  match err with
  | Some e => (c, inl ("failed to check existing folder: " +:+ e))
  | None =>
      if (existingID >? 0)%Z then
        (set_folders c (<[path := existingID]> (folders c)), inr (existingID, existingUID))
      else
        let '(w, resp) := doPostFolder (world c) name parentUid in
        let c := sent c w (CallPost name parentUid resp) in
        match resp with
        | TransportError e => (c, inl e)
        | Http statusCode body decoded =>
            if (statusCode >=? 300)%Z then
              if (statusCode =? 409)%Z || (statusCode =? 412)%Z then
                let '(c, (existingID, existingUID, err)) :=
                  getFolderByTitle c name parentUid in
                match err with
                | Some _ => (c, inl ("folder exists but cannot retrieve: " +:+ body))
                | None =>
                    if (existingID =? 0)%Z
                    then (c, inl ("folder exists but cannot retrieve: " +:+ body))
                    else (set_folders c (<[path := existingID]> (folders c)),
                          inr (existingID, existingUID))
                end
              else (c, inl ("failed to create folder " +:+ name +:+ ": " +:+ body))
            else
              match decoded with
              | inl e => (c, inl e)
              | inr (createdID, createdUID) =>
                  (set_folders c (<[path := createdID]> (folders c)),
                   inr (createdID, createdUID))
              end
        end
  end.

(** The loop of [CreateFolderTreeFromNode] over [node.Children]: [visit]
    is the recursive call on one child; the loop stops at the first child
    that fails and the children after it are left as they were. *)
Definition walkChildren (visit : Sync.Tree -> Client -> Client * Sync.Tree * option string)
  : list Sync.Tree -> Client -> Client * list Sync.Tree * option string :=
  fix walk (l : list Sync.Tree) (c : Client) :=
    match l with
    | [] => (c, [], None)
    | child :: rest =>
        match visit child c with
        | (c, child', Some e) => (c, child' :: rest, Some e)
        | (c, child', None) =>
            let '(c, rest', err) := walk rest c in
            (c, child' :: rest', err)
        end
    end.

(** [CreateFolderTreeFromNode]: the node is updated in place, so the
    updated tree is returned also when an error is. *)
Fixpoint CreateFolderTreeFromNode (node : Sync.Tree) (parentUid : string) (c : Client)
  {struct node} : Client * Sync.Tree * option string :=
  match node with
  | Sync.Node name fullPath children uid id =>
      match ensureFolder c name fullPath parentUid with
      | (c, inl e) => (c, node, Some e)
      | (c, inr (newID, currentUID)) =>
          let '(c, children', err) :=
            walkChildren (fun child => CreateFolderTreeFromNode child currentUID)
                         children c in
          (c, Sync.Node name fullPath children' currentUID newID, err)
      end
  end.

Fixpoint replaceSeparators_loop (s sep result : string) : string :=
  match s with
  | EmptyString => result
  | String ch rest =>
      if Ascii.eqb ch "/" || Ascii.eqb ch "\"
      then replaceSeparators_loop rest sep (result +:+ sep)
      else replaceSeparators_loop rest sep (result +:+ String ch "")
  end.

Definition replaceSeparators (s sep : string) : string :=
  replaceSeparators_loop s sep "".

Fixpoint splitBy_loop (s sep : string) (parts : list string) (current : string)
  : list string :=
  match s with
  | EmptyString =>
      if negb (bool_decide (current = "")) then parts ++ [current] else parts
  | String ch rest =>
      if bool_decide (String ch "" = sep) then
        if negb (bool_decide (current = ""))
        then splitBy_loop rest sep (parts ++ [current]) ""
        else splitBy_loop rest sep parts current
      else splitBy_loop rest sep parts (current +:+ String ch "")
  end.

Definition splitBy (s sep : string) : list string := splitBy_loop s sep [] "".

Definition splitPath (path : string) : list string :=
  let path := replaceSeparators path "/" in
  splitBy path "/".

Definition splitFolderPath (path : string) : list string :=
  if bool_decide (path = "") || bool_decide (path = ".") then []
  else filter (fun p => p ≠ "" ∧ p ≠ ".") (splitPath path).

(** The loop of [createFolderRecursive] over the path segments. *)
Fixpoint createFolderRecursive_loop (parts : list string)
    (currentPath : string) (folderID : Z) (currentUID : string) (c : Client)
  : Client * (Z * option string) :=
  match parts with
  | [] => (c, (folderID, None))
  | name :: rest =>
      let currentPath :=
        if bool_decide (currentPath = "") then name
        else currentPath +:+ "/" +:+ name in
      match ensureFolder c name currentPath currentUID with
      | (c, inl e) => (c, (0, Some e))
      | (c, inr (newID, newUID)) =>
          createFolderRecursive_loop rest currentPath newID newUID c
      end
  end.

Definition createFolderRecursive (c : Client) (folderPath parentUID : string)
  : Client * (Z * option string) :=
  let parts := splitFolderPath folderPath in
  if (length parts =? 0)%nat then (c, (0, Some "empty folder path"))
  else createFolderRecursive_loop parts "" 0 parentUID c.

Definition CreateFolderTree (c : Client) (folderPath : string)
  : Client * (Z * option string) :=
  match folders c !! folderPath with
  | Some id => (c, (id, None))
  | None => createFolderRecursive c folderPath ""
  end.

End Client.

(** *** Readiness, credentials and the service account

    The requests that do not concern folders are modelled as they are
    built: method, address, authorization, content type and body.  A
    request is answered by a transport error or by a status and a body;
    [now] is the reading of [time.Now] in nanoseconds and [sleep] is
    [time.Sleep]. *)

Inductive Auth : Type :=
| NoAuth
| Bearer (bearer : string)
| Basic (basicUser basicPassword : string).

Record Request := mkRequest {
  reqMethod : string;
  reqURL : string;
  reqAuth : Auth;
  reqContentType : string;
  reqBody : string
}.

Inductive Reply : Type :=
| Failed (err : string)
| Replied (statusCode : Z) (body : string).

Class Transport := mkTransport {
  Net : Type;
  roundTrip : Net -> Request -> Net * Reply;
  now : Net -> Z;
  sleep : Net -> Z -> Net
}.

(** The functions of the Go library that the client calls on the bodies
    it receives and on the durations it prints: [json.Unmarshal] into the
    four structures of the service account requests ([inl] is its error),
    and the [%v] of a [time.Duration]. *)
Class Library := mkLibrary {
  decodeServiceAccounts : string -> string + list (Z * string);
  decodeCreatedAccount : string -> string + Z;
  decodeTokens : string -> string + list (Z * string);
  decodeCreatedToken : string -> string + string;
  durationString : Z -> string
}.

(** What has happened on the wire, in order. *)
Inductive Event : Type :=
| Sent (req : Request) (reply : Reply)
| Slept (d : Z).

Section Admin.
Context {R : Remote} {T : Transport} {L : Library}.

Record Session := mkSession {
  net : Net;
  events : list Event
}.

Definition send (s : Session) (req : Request) : Session * Reply :=
  let '(n, reply) := roundTrip (net s) req in
  (mkSession n (events s ++ [Sent req reply]), reply).

Definition pause (s : Session) (d : Z) : Session :=
  mkSession (sleep (net s) d) (events s ++ [Slept d]).

Definition second : Z := 1000000000.
Definition minute : Z := 60 * second.

Definition quote : string := String (Ascii.ascii_of_nat 34) "".

Definition healthRequest (c : Client) (a : Auth) : Request :=
  mkRequest "GET" (url c +:+ "/api/health") a "" "".

(** The loop of [WaitForReady]; [fuel] bounds the number of rounds. *)
Fixpoint WaitForReady_loop (fuel : nat) (c : Client) (timeout deadline : Z)
    (s : Session) : option (Session * option string) :=
  match fuel with
  | O => None
  | S fuel' =>
      if (now (net s) <? deadline)%Z then
        let '(s, reply) := send s (healthRequest c NoAuth) in
        match reply with
        | Failed _ => WaitForReady_loop fuel' c timeout deadline (pause s (2 * second))
        | Replied statusCode _ =>
            if (statusCode =? 200)%Z then Some (s, None)
            else WaitForReady_loop fuel' c timeout deadline (pause s (2 * second))
        end
      else
        Some (s, Some ("Grafana API did not become ready within "
                       +:+ durationString timeout))
  end.

Definition WaitForReady (fuel : nat) (c : Client) (timeout : Z) (s : Session)
  : option (Session * option string) :=
  WaitForReady_loop fuel c timeout (now (net s) + timeout) s.

(** The loop of [ValidateAuth] with [count] rounds left. *)
Fixpoint ValidateAuth_loop (c : Client) (count : nat) (s : Session)
  : Session * option string :=
  match count with
  | O => (s, Some "Grafana authentication check timed out")
  | S count' =>
      let '(s, reply) := send s (healthRequest c (Basic (user c) (password c))) in
      match reply with
      | Failed _ => ValidateAuth_loop c count' (pause s (2 * second))
      | Replied statusCode body =>
          if (statusCode =? 200)%Z then (s, None)
          else if (statusCode =? 401)%Z
          then (s, Some "Grafana returned 401 Unauthorized — invalid credentials")
          else ValidateAuth_loop c count' (pause s (2 * second))
      end
  end.

Definition ValidateAuth (c : Client) (s : Session) : Session * option string :=
  ValidateAuth_loop c 30 s.

Definition ensureServiceAccount (c : Client) (accountName : string) (s : Session)
  : Session * (string * option string) :=
  let basic := Basic (user c) (password c) in
  let '(s, reply) :=
    send s (mkRequest "GET" (url c +:+ "/api/serviceaccounts/search") basic "" "") in
  match reply with
  | Failed err => (s, ("", Some ("failed to list service accounts: " +:+ err)))
  | Replied _ body =>
      match decodeServiceAccounts body with
      | inl err => (s, ("", Some ("failed to parse service accounts list: " +:+ err)))
      | inr accounts =>
          match List.find (fun sa => bool_decide (sa.2 = accountName)) accounts with
          | Some sa => (s, (pretty sa.1, None))
          | None =>
              let payload :=
                "{" +:+ quote +:+ "name" +:+ quote +:+ ":" +:+ quote +:+ accountName
                +:+ quote +:+ "," +:+ quote +:+ "role" +:+ quote +:+ ":" +:+ quote
                +:+ "Admin" +:+ quote +:+ "}" in
              let '(s, reply) :=
                send s (mkRequest "POST" (url c +:+ "/api/serviceaccounts") basic
                                  "application/json" payload) in
              match reply with
              | Failed err => (s, ("", Some ("failed to create service account: " +:+ err)))
              | Replied _ bodyCreate =>
                  match decodeCreatedAccount bodyCreate with
                  | inl err =>
                      (s, ("", Some ("failed to parse created service account: " +:+ err)))
                  | inr id => (s, (pretty id, None))
                  end
              end
          end
      end
  end.

Definition createOrReplaceSAToken (c : Client) (saID tokenName : string) (s : Session)
  : Session * (string * option string) :=
  let basic := Basic (user c) (password c) in
  let tokensURL := url c +:+ "/api/serviceaccounts/" +:+ saID +:+ "/tokens" in
  let '(s, reply) := send s (mkRequest "GET" tokensURL basic "" "") in
  match reply with
  | Failed err => (s, ("", Some ("failed to list tokens: " +:+ err)))
  | Replied _ bodyTokens =>
      match decodeTokens bodyTokens with
      | inl err => (s, ("", Some ("failed to parse tokens list: " +:+ err)))
      | inr tokensResp =>
          let s :=
            match List.find (fun t => bool_decide (t.2 = tokenName)) tokensResp with
            | Some t =>
                (send s (mkRequest "DELETE" (tokensURL +:+ "/" +:+ pretty t.1)
                                   basic "" "")).1
            | None => s
            end in
          let payload :=
            "{" +:+ quote +:+ "name" +:+ quote +:+ ":" +:+ quote +:+ tokenName
            +:+ quote +:+ "}" in
          let '(s, reply) :=
            send s (mkRequest "POST" tokensURL basic "application/json" payload) in
          match reply with
          | Failed err => (s, ("", Some ("failed to create token: " +:+ err)))
          | Replied _ bodyCreate =>
              match decodeCreatedToken bodyCreate with
              | inl err => (s, ("", Some ("failed to parse created token: " +:+ err)))
              | inr key => (s, (key, None))
              end
          end
      end
  end.

(** The loop of [waitForSAToken]; [fuel] bounds the number of rounds. *)
Fixpoint waitForSAToken_loop (fuel : nat) (c : Client) (token : string)
    (timeout deadline : Z) (s : Session) : option (Session * option string) :=
  match fuel with
  | O => None
  | S fuel' =>
      if (now (net s) <? deadline)%Z then
        let '(s, reply) :=
          send s (mkRequest "GET" (url c +:+ "/api/folders") (Bearer token) "" "") in
        match reply with
        | Failed _ => waitForSAToken_loop fuel' c token timeout deadline (pause s second)
        | Replied statusCode body =>
            if (statusCode =? 200)%Z then Some (s, None)
            else if (statusCode =? 401)%Z || (statusCode =? 403)%Z
            then Some (s, Some ("service account token unauthorized: status "
                                +:+ pretty statusCode))
            else waitForSAToken_loop fuel' c token timeout deadline (pause s second)
        end
      else
        Some (s, Some ("service account token not ready within "
                       +:+ durationString timeout))
  end.

Definition waitForSAToken (fuel : nat) (c : Client) (token : string) (timeout : Z)
    (s : Session) : option (Session * option string) :=
  waitForSAToken_loop fuel c token timeout (now (net s) + timeout) s.

Definition CreateServiceAccountToken (fuel : nat) (c : Client)
    (accountName tokenName : string) (s : Session)
  : option (Session * (string * option string)) :=
  match ensureServiceAccount c accountName s with
  | (s, (_, Some err)) => Some (s, ("", Some ("cannot ensure service account: " +:+ err)))
  | (s, (saID, None)) =>
      match createOrReplaceSAToken c saID tokenName s with
      | (s, (_, Some err)) =>
          Some (s, ("", Some ("cannot create service account token: " +:+ err)))
      | (s, (token, None)) =>
          match waitForSAToken fuel c token (2 * minute) s with
          | None => None
          | Some (s, Some err) =>
              Some (s, ("", Some ("service account token is not ready: " +:+ err)))
          | Some (s, None) => Some (s, (token, None))
          end
      end
  end.

End Admin.

(** *** Dashboard upload *)

Section Uploads.
Context {R : Remote} {J : Sync.Json}.

(** The map that [UploadDashboardWithVersion] encodes; [bodyMessage] is
    [None] when the map has no [message] key. *)
Record UploadBody := mkUploadBody {
  bodyDashboard : Sync.JsonObject;
  bodyFolderId : Z;
  bodyOverwrite : bool;
  bodyMessage : option string
}.

(** [json.Marshal] of the body and [http.NewRequest] (its error for a
    method and an address) belong to the Go library; [doPostDashboard] is
    the POST of [/api/dashboards/db] to the server, with the authorization
    and the encoded body. *)
Class Uploader := mkUploader {
  Marshal : UploadBody -> string + string;
  NewRequest : string -> string -> option string;
  doPostDashboard : World -> Auth -> string -> World * Reply
}.

Context {U : Uploader}.

Definition setAuth (c : Client) : Auth :=
  if negb (bool_decide (token c = "")) then Bearer (token c)
  else Basic (user c) (password c).

Definition UploadDashboardWithVersion (c : Client) (dashboard : Sync.JsonObject)
    (folderID : Z) (versionMessage : string) : Client * option string :=
  let body :=
    mkUploadBody dashboard folderID true
      (if negb (bool_decide (versionMessage = "")) then Some versionMessage else None) in
  match Marshal body with
  | inl err => (c, Some ("failed to marshal dashboard JSON: " +:+ err))
  | inr data =>
      match NewRequest "POST" (url c +:+ "/api/dashboards/db") with
      | Some err => (c, Some ("failed to create HTTP request: " +:+ err))
      | None =>
          let '(w, reply) := doPostDashboard (world c) (setAuth c) data in
          let c := mkClient (url c) (token c) (user c) (password c) (folders c) w
                            (calls c) in
          match reply with
          | Failed err => (c, Some ("HTTP request failed: " +:+ err))
          | Replied statusCode respBody =>
              if (statusCode >=? 300)%Z
              then (c, Some ("Grafana API error " +:+ pretty statusCode +:+ ": "
                             +:+ respBody))
              else (c, None)
          end
      end
  end.

Definition UploadDashboard (c : Client) (dashboard : Sync.JsonObject) (folderID : Z)
  : Client * option string :=
  UploadDashboardWithVersion c dashboard folderID "".

End Uploads.

End Grafana.

(** ** package git *)

Module Git.

(** [ssh.ParsePrivateKey] and [strings.TrimSpace] belong to the Go
    library. *)
Class KeyParser := mkKeyParser {
  Signer : Type;
  ParsePrivateKey : string -> string + Signer;
  TrimSpace : string -> string
}.

Section Client.
Context {K : KeyParser}.

(** The two authentication methods of go-git that the client builds;
    [ignoreHostKey] tells that the host key callback accepts any key. *)
Inductive AuthMethod : Type :=
| PublicKeys (sshUser : string) (signer : Signer) (ignoreHostKey : bool)
| BasicAuth (username password : string).

Record Client := mkClient {
  repoURL : string;
  branch : string;
  repoDir : string;
  auth : AuthMethod
}.

(** [strings.HasPrefix] *)
Fixpoint HasPrefix (s prefix : string) : bool :=
  match prefix, s with
  | EmptyString, _ => true
  | String p prefix', String c s' => Ascii.eqb c p && HasPrefix s' prefix'
  | String _ _, EmptyString => false
  end.

(** [strings.ReplaceAll(s, `\n`, "\n")]: every backslash followed by
    the letter n becomes a line feed. *)
Fixpoint unescapeNewlines (s : string) : string :=
  match s with
  | EmptyString => ""
  | String c rest =>
      match rest with
      | String d rest' =>
          if Ascii.eqb c "\" && Ascii.eqb d "n"
          then String (ascii_of_nat 10) (unescapeNewlines rest')
          else String c (unescapeNewlines rest)
      | EmptyString => String c ""
      end
  end.

Definition createAuth (repoURL sshKey httpsUser httpsPassword : string)
  : AuthMethod + string :=
  if negb (bool_decide (sshKey = ""))
     && (HasPrefix repoURL "ssh://" || HasPrefix repoURL "git@")
  then
    let keyStr := unescapeNewlines sshKey in
    if bool_decide (TrimSpace keyStr = "") then inr "SSH key is empty"
    else match ParsePrivateKey keyStr with
         | inl err => inr ("unable to parse private key: " +:+ err)
         | inr signer => inl (PublicKeys "git" signer true)
         end
  else if negb (bool_decide (httpsUser = "")) && negb (bool_decide (httpsPassword = ""))
  then inl (BasicAuth httpsUser httpsPassword)
  else inr "no authentication provided".

Definition NewClient (repoURL branch repoDir sshKey httpsUser httpsPassword : string)
  : Client + string :=
  match createAuth repoURL sshKey httpsUser httpsPassword with
  | inr err => inr ("failed to create git auth: " +:+ err)
  | inl auth => inl (mkClient repoURL branch repoDir auth)
  end.

End Client.

End Git.

(** ** package config *)

Module Config.

Record Config := mkConfig {
  RepoURL : string;
  Branch : string;
  SSHKey : string;
  HTTPSUser : string;
  HTTPSPassword : string;
  RepoDir : string;
  RepoSubdir : string;
  DashboardsDir : string;
  PollInterval : Z;
  GrafanaURL : string;
  GrafanaUser : string;
  GrafanaPass : string;
  GrafanaToken : string
}.

(** [os.Getenv]: the value of a variable, empty when it is not set. *)
Definition Env := string -> string.

(** The value of a decimal digit. *)
Definition digitOf (c : ascii) : option Z :=
  let n := Z.of_nat (nat_of_ascii c) in
  if (48 <=? n)%Z && (n <=? 57)%Z then Some (n - 48) else None.

Fixpoint parseDigits (s : string) (acc : Z) : option Z :=
  match s with
  | EmptyString => Some acc
  | String c rest =>
      match digitOf c with
      | Some d => parseDigits rest (10 * acc + d)
      | None => None
      end
  end.

(** [strconv.Atoi] on a machine with 64-bit integers: an optional sign
    and at least one decimal digit, within the range of [int]; [None] is
    its error. *)
Definition Atoi (s : string) : option Z :=
  let '(neg, digits) :=
    match s with
    | String "-" rest => (true, rest)
    | String "+" rest => (false, rest)
    | _ => (false, s)
    end in
  if bool_decide (digits = "") then None
  else match parseDigits digits 0 with
       | None => None
       | Some n =>
           let v := if neg then - n else n in
           if (- 2 ^ 63 <=? v)%Z && (v <=? 2 ^ 63 - 1)%Z then Some v else None
       end.

(** The product of two 64-bit integers, as the machine computes it. *)
Definition mul64 (a b : Z) : Z := (a * b + 2 ^ 63) mod 2 ^ 64 - 2 ^ 63.

Definition Second : Z := 1000000000.

Definition getEnv (env : Env) (key defaultVal : string) : string :=
  let val := env key in
  if bool_decide (val = "") then defaultVal else val.

(** [getEnvRequired]: [inl] is the message with which [log.Fatalf] ends
    the process. *)
Definition getEnvRequired (env : Env) (key : string) : string + string :=
  let val := env key in
  if bool_decide (val = "")
  then inl ("❌ Required environment variable " +:+ key +:+ " is not set")
  else inr val.

Definition validate (c : Config) : option string :=
  let hasSSH := negb (bool_decide (SSHKey c = "")) in
  let hasHTTPS := negb (bool_decide (HTTPSUser c = ""))
                  && negb (bool_decide (HTTPSPassword c = "")) in
  if negb hasSSH && negb hasHTTPS then
    Some "no Git authentication provided (SSH key or HTTPS credentials required)"
  else
    let hasBasicAuth := negb (bool_decide (GrafanaUser c = ""))
                        && negb (bool_decide (GrafanaPass c = "")) in
    let hasToken := negb (bool_decide (GrafanaToken c = "")) in
    if negb hasBasicAuth && negb hasToken then Some "no Grafana authentication provided"
    else None.

(** How [Load] ends: the process is ended by [log.Fatalf], an error is
    returned, or the configuration is. *)
Inductive Loaded : Type :=
| Fatal (msg : string)
| Failed (err : string)
| Done (cfg : Config).

(** [Load]: the fields of the literal are evaluated in their order, so
    the first required variable that is not set ends the process. *)
Definition Load (env : Env) : Loaded :=
  match getEnvRequired env "GIT_REPO_URL" with
  | inl msg => Fatal msg
  | inr repoURL =>
      match getEnvRequired env "GIT_BRANCH" with
      | inl msg => Fatal msg
      | inr branch =>
          match getEnvRequired env "GRAFANA_URL" with
          | inl msg => Fatal msg
          | inr grafanaURL =>
              let cfg :=
                mkConfig repoURL branch (env "GIT_SSH_KEY") (env "GIT_HTTPS_USER")
                  (env "GIT_HTTPS_PASS")
                  (getEnv env "GIT_LOCAL_REPO_DIR" "/tmp/grafana_data")
                  (getEnv env "GIT_REPO_SUBDIR" "")
                  (getEnv env "DASHBOARDS_DIR" "/tmp/grafana_data")
                  0 grafanaURL
                  (getEnv env "GF_SECURITY_ADMIN_USER" "")
                  (getEnv env "GF_SECURITY_ADMIN_PASSWORD" "")
                  (getEnv env "GF_SECURITY_TOKEN" "") in
              let pollIntervalStr := getEnv env "POLL_INTERVAL_SEC" "60" in
              match Atoi pollIntervalStr with
              | None => Failed ("invalid POLL_INTERVAL_SEC value: " +:+ pollIntervalStr)
              | Some pollIntervalSec =>
                  if (pollIntervalSec <=? 0)%Z
                  then Failed ("invalid POLL_INTERVAL_SEC value: " +:+ pollIntervalStr)
                  else
                    let cfg :=
                      mkConfig (RepoURL cfg) (Branch cfg) (SSHKey cfg) (HTTPSUser cfg)
                        (HTTPSPassword cfg) (RepoDir cfg) (RepoSubdir cfg)
                        (DashboardsDir cfg) (mul64 pollIntervalSec Second)
                        (GrafanaURL cfg) (GrafanaUser cfg) (GrafanaPass cfg)
                        (GrafanaToken cfg) in
                    match validate cfg with
                    | Some err => Failed err
                    | None => Done cfg
                    end
              end
          end
      end
  end.

(** A field as [reflect] shows it: its name and its value, a string or
    the duration. *)
Inductive Value : Type :=
| VString (s : string)
| VDuration (d : Z).

Definition fieldsOf (c : Config) : list (string * Value) :=
  [ ("RepoURL", VString (RepoURL c)); ("Branch", VString (Branch c));
    ("SSHKey", VString (SSHKey c)); ("HTTPSUser", VString (HTTPSUser c));
    ("HTTPSPassword", VString (HTTPSPassword c)); ("RepoDir", VString (RepoDir c));
    ("RepoSubdir", VString (RepoSubdir c));
    ("DashboardsDir", VString (DashboardsDir c));
    ("PollInterval", VDuration (PollInterval c));
    ("GrafanaURL", VString (GrafanaURL c)); ("GrafanaUser", VString (GrafanaUser c));
    ("GrafanaPass", VString (GrafanaPass c));
    ("GrafanaToken", VString (GrafanaToken c)) ].

(** The structure whose fields, in their order, hold the given values;
    a field that is given no value, or one of another kind, keeps the
    zero value of [reflect.New]. *)
Definition ofFields (vs : list Value) : Config :=
  let str i := match nth i vs (VString "") with VString s => s | VDuration _ => "" end in
  let dur i := match nth i vs (VDuration 0) with VDuration d => d | VString _ => 0 end in
  mkConfig (str 0%nat) (str 1%nat) (str 2%nat) (str 3%nat) (str 4%nat) (str 5%nat)
           (str 6%nat) (str 7%nat) (dur 8%nat) (str 9%nat) (str 10%nat) (str 11%nat)
           (str 12%nat).

(** [strings.ToLower] on the letters of a field name. *)
Definition lowerChar (c : ascii) : ascii :=
  let n := nat_of_ascii c in
  if (65 <=? n)%nat && (n <=? 90)%nat then ascii_of_nat (n + 32) else c.

Definition ToLower (s : string) : string := Strings.mapChars lowerChar s.

Fixpoint hasPrefix (s prefix : string) : bool :=
  match prefix, s with
  | EmptyString, _ => true
  | String p prefix', String c s' => Ascii.eqb c p && hasPrefix s' prefix'
  | String _ _, EmptyString => false
  end.

(** [strings.Contains] *)
Fixpoint Contains (s substr : string) : bool :=
  hasPrefix s substr
  || match s with
     | EmptyString => false
     | String _ s' => Contains s' substr
     end.

Definition sensitivePatterns : list string :=
  ["password"; "pass"; "token"; "secret"; "key"; "private"; "credential"; "ssh"; "cert"].

(** The body of the loop of [maskSensitiveFields] for one field. *)
Definition maskField (field : string * Value) : Value :=
  let nameLower := ToLower field.1 in
  let isSensitive := existsb (Contains nameLower) sensitivePatterns in
  if isSensitive then
    match field.2 with
    | VString s => if negb (bool_decide (s = "")) then VString "***" else field.2
    | VDuration _ => field.2
    end
  else field.2.

(** [maskSensitiveFields] on a configuration. *)
Definition maskSensitiveFields (c : Config) : Config :=
  ofFields (map maskField (fieldsOf c)).

Definition SafeForLog (c : Config) : Config := maskSensitiveFields c.

End Config.

(** ** package health *)

Module Health.

Record Checker := mkChecker {
  grafanaHealthy : bool;
  gitSyncHealthy : bool;
  lastSyncTime : Z;
  lastError : string
}.

Record Status := mkStatus {
  StatusText : string;
  Timestamp : Z;
  GrafanaHealthy : bool;
  GitSyncHealthy : bool;
  LastSyncTime : Z;
  LastError : string
}.

(** The zero [time.Time] stands as 0. *)
Definition NewChecker : Checker := mkChecker false false 0 "".

Definition SetGrafanaHealth (c : Checker) (healthy : bool) : Checker :=
  mkChecker healthy (gitSyncHealthy c) (lastSyncTime c) (lastError c).

Definition SetGitSyncHealth (c : Checker) (healthy : bool) : Checker :=
  mkChecker (grafanaHealthy c) healthy (lastSyncTime c) (lastError c).

Definition SetLastSync (c : Checker) (t : Z) : Checker :=
  mkChecker (grafanaHealthy c) (gitSyncHealthy c) t (lastError c).

Definition SetLastError (c : Checker) (err : string) : Checker :=
  mkChecker (grafanaHealthy c) (gitSyncHealthy c) (lastSyncTime c) err.

(** [GetStatus]; [now] is the reading of [time.Now]. *)
Definition GetStatus (c : Checker) (now : Z) : Status :=
  let status := "healthy" in
  let status :=
    if negb (grafanaHealthy c) || negb (gitSyncHealthy c) then "degraded" else status in
  let status :=
    if negb (grafanaHealthy c) && negb (gitSyncHealthy c) then "unhealthy" else status in
  mkStatus status now (grafanaHealthy c) (gitSyncHealthy c) (lastSyncTime c)
           (lastError c).

(** [Handler]: the status code written and the status encoded into the
    body; a status text outside the three cases would leave the code to
    the first write of the body, which is 200. *)
Definition Handler (c : Checker) (now : Z) : Z * Status :=
  let status := GetStatus c now in
  let code :=
    if bool_decide (StatusText status = "healthy") then 200
    else if bool_decide (StatusText status = "degraded") then 200
    else if bool_decide (StatusText status = "unhealthy") then 503
    else 200 in
  (code, status).

End Health.

Definition bytes_of (s : string) : list Byte.byte := list_byte_of_string s.

(** * Vocabulary of the properties *)

Section ChangeDetectorSpec.
Import Sync.

(** The classification of [path] that the table [s] and the content
    [content] determine. *)
Definition differs (s : Service) (path : string) (content : list Byte.byte) : Prop :=
  fileHashes s !! path = None ∨
  ∃ old, fileHashes s !! path = Some old ∧ old ≠ computeFileHash content.

(** The classification that [GetChangedFiles] gives a path of the batch
    the first time it meets it. *)
Definition changedAt (fs : FileSystem) (s : Service) (p : string) : bool :=
  match fs p with
  | Some content => bool_decide (fileHashes s !! p ≠ Some (computeFileHash content))
  | None => false
  end.

End ChangeDetectorSpec.

Section FolderPathsSpec.
Import Grafana.

(** The two characters that [splitPath] takes as separators. *)
Definition isSep (ch : ascii) : bool := Ascii.eqb ch "/" || Ascii.eqb ch "\".

Definition slashed (ch : ascii) : ascii := if isSep ch then "/"%char else ch.

(** A folder path that holds nothing but separators and [.] segments. *)
Definition degenerate (path : string) : bool :=
  forallb (fun seg => bool_decide (seg = "") || bool_decide (seg = "."))
          (Strings.splitOn isSep path).

Definition nonEmpty (p : string) : Prop := p ≠ "".

End FolderPathsSpec.

Section ReconcilerSpec.
Import Grafana.
Context {R : Remote}.

(** The answer of the existence query that a response to the GET carries. *)
Definition answer (title parentUid : string) (resp : Response (list folderEntry))
  : Z * string * option string :=
  match resp with
  | TransportError err => (0, "", Some err)
  | Http statusCode body decoded =>
      if negb (statusCode =? 200)%Z
      then (0, "", Some ("failed to list folders: " +:+ body))
      else match decoded with
           | inl err => (0, "", Some err)
           | inr l => findFolder title parentUid l
           end
  end.

(** The existence query asked of the remote state [w]. *)
Definition query (w : World) (title parentUid : string) : Z * string * option string :=
  answer title parentUid (doGetFolders w parentUid).2.

(** An entry of the list answers the query for [title] under [parentUid]. *)
Definition matches (title parentUid : string) (e : folderEntry) : bool :=
  bool_decide (entryTitle e = title) && bool_decide (entryParentUID e = parentUid).

(** The query recorded as [k] found the folder [(id, uid)]. *)
Definition found_by (k : Call) (title parentUid : string) (id : Z) (uid : string) : Prop :=
  ∃ resp, k = CallGet parentUid resp ∧ answer title parentUid resp = (id, uid, None)
          ∧ id ≠ 0.

(** The creation recorded as [k] succeeded and returned [(id, uid)]. *)
Definition created_by (k : Call) (title parentUid : string) (id : Z) (uid : string) : Prop :=
  ∃ statusCode body,
    k = CallPost title parentUid (Http statusCode body (inr (id, uid)))
    ∧ statusCode < 300.

(** Among the calls [tr] one found or created the folder [(id, uid)] named
    [title] under [parentUid]. *)
Definition resolved_in (tr : list Call) (title parentUid : string) (id : Z) (uid : string)
  : Prop :=
  ∃ k, k ∈ tr ∧ (found_by k title parentUid id uid ∨ created_by k title parentUid id uid).

(** What one run of [ensureFolder] can do. *)
Inductive Outcome (c : Client) (name path parentUid : string)
  : Client -> string + Z * string -> Prop :=
| QueryFailed w1 r1 e :
    doGetFolders (world c) parentUid = (w1, r1) →
    (answer name parentUid r1).2 = Some e →
    Outcome c name path parentUid
      (sent c w1 (CallGet parentUid r1))
      (inl ("failed to check existing folder: " +:+ e))
| Found w1 r1 id uid :
    doGetFolders (world c) parentUid = (w1, r1) →
    answer name parentUid r1 = (id, uid, None) → 0 < id →
    Outcome c name path parentUid
      (set_folders (sent c w1 (CallGet parentUid r1)) (<[path := id]> (folders c)))
      (inr (id, uid))
| CreateFailed w1 r1 id0 uid0 w2 r2 e :
    doGetFolders (world c) parentUid = (w1, r1) →
    answer name parentUid r1 = (id0, uid0, None) → id0 ≤ 0 →
    doPostFolder w1 name parentUid = (w2, r2) →
    match r2 with
    | TransportError err => e = err
    | Http statusCode body decoded =>
        (300 ≤ statusCode ∧ statusCode ≠ 409 ∧ statusCode ≠ 412
         ∧ e = "failed to create folder " +:+ name +:+ ": " +:+ body)
        ∨ (statusCode < 300 ∧ decoded = inl e)
    end →
    Outcome c name path parentUid
      (sent (sent c w1 (CallGet parentUid r1)) w2 (CallPost name parentUid r2))
      (inl e)
| Created w1 r1 id0 uid0 w2 statusCode body id uid :
    doGetFolders (world c) parentUid = (w1, r1) →
    answer name parentUid r1 = (id0, uid0, None) → id0 ≤ 0 →
    doPostFolder w1 name parentUid = (w2, Http statusCode body (inr (id, uid))) →
    statusCode < 300 →
    Outcome c name path parentUid
      (set_folders
         (sent (sent c w1 (CallGet parentUid r1)) w2
               (CallPost name parentUid (Http statusCode body (inr (id, uid)))))
         (<[path := id]> (folders c)))
      (inr (id, uid))
| ConflictLost w1 r1 id0 uid0 w2 statusCode body decoded w3 r3 :
    doGetFolders (world c) parentUid = (w1, r1) →
    answer name parentUid r1 = (id0, uid0, None) → id0 ≤ 0 →
    doPostFolder w1 name parentUid = (w2, Http statusCode body decoded) →
    statusCode = 409 ∨ statusCode = 412 →
    doGetFolders w2 parentUid = (w3, r3) →
    (answer name parentUid r3).2 ≠ None ∨ (answer name parentUid r3).1.1 = 0 →
    Outcome c name path parentUid
      (sent (sent (sent c w1 (CallGet parentUid r1)) w2
                  (CallPost name parentUid (Http statusCode body decoded)))
            w3 (CallGet parentUid r3))
      (inl ("folder exists but cannot retrieve: " +:+ body))
| ConflictAdopted w1 r1 id0 uid0 w2 statusCode body decoded w3 r3 id uid :
    doGetFolders (world c) parentUid = (w1, r1) →
    answer name parentUid r1 = (id0, uid0, None) → id0 ≤ 0 →
    doPostFolder w1 name parentUid = (w2, Http statusCode body decoded) →
    statusCode = 409 ∨ statusCode = 412 →
    doGetFolders w2 parentUid = (w3, r3) →
    answer name parentUid r3 = (id, uid, None) → id ≠ 0 →
    Outcome c name path parentUid
      (set_folders
         (sent (sent (sent c w1 (CallGet parentUid r1)) w2
                     (CallPost name parentUid (Http statusCode body decoded)))
               w3 (CallGet parentUid r3))
         (<[path := id]> (folders c)))
      (inr (id, uid)).

(** The nodes of a tree, the root first. *)
Fixpoint nodesOf (t : Sync.Tree) : list Sync.Tree :=
  match t with
  | Sync.Node _ _ children _ _ => t :: List.flat_map nodesOf children
  end.

(** The cache after a step holds what it held before, or an identifier
    that a call sent during the step found or created for a folder that
    carries one of the given names and is cached under the given path. *)
Definition cache_justified (c c' : Client) (new : list Call)
    (steps : list (string * string)) : Prop :=
  ∀ path id, folders c' !! path = Some id →
    folders c !! path = Some id
    ∨ ∃ name parentUid uid,
        (path, name) ∈ steps ∧ resolved_in new name parentUid id uid.

(** The path and the name of every node of a tree. *)
Definition stepsOf (t : Sync.Tree) : list (string * string) :=
  map (fun n => (Sync.treeFullPath n, Sync.treeName n)) (nodesOf t).

(** The cache keys that [createFolderRecursive] writes for the segments
    [parts] below [currentPath], each with the segment it stands for. *)
Fixpoint pathSteps (currentPath : string) (parts : list string) : list (string * string) :=
  match parts with
  | [] => []
  | name :: rest =>
      let currentPath :=
        if bool_decide (currentPath = "") then name else currentPath +:+ "/" +:+ name in
      (currentPath, name) :: pathSteps currentPath rest
  end.

Definition set_world (c : Client) (w : World) : Client :=
  mkClient (url c) (token c) (user c) (password c) (folders c) w (calls c).

(** The states a client goes through: it starts with an empty cache, runs
    the two reconciliation entry points in any order and on any arguments,
    and between two runs the remote state may change in any way. *)
Inductive reachable : Client → Prop :=
| reach_new url token user password w :
    reachable (NewClient url token user password w)
| reach_node c node parentUid :
    reachable c → reachable (CreateFolderTreeFromNode node parentUid c).1.1
| reach_path c folderPath :
    reachable c → reachable (CreateFolderTree c folderPath).1
| reach_remote c w :
    reachable c → reachable (set_world c w).

(** Every identifier in the cache was found or created by a call the
    client has sent. *)
Definition justified (c : Client) : Prop :=
  ∀ path id, folders c !! path = Some id →
    ∃ name parentUid uid, resolved_in (calls c) name parentUid id uid.

(** In the remote state [w] the query for [title] under [parentUid] finds
    the folder [(id, uid)]. *)
Definition known (w : World) (title parentUid : string) (id : Z) (uid : string) : Prop :=
  query w title parentUid = (id, uid, None) ∧ 0 < id.

(** What is assumed of the server: the states it goes through satisfy
    [Inv]; a query does not change its state; a creation keeps what the
    queries find; a creation that succeeds where the query found nothing
    makes the new folder the answer of that query; identifiers are not
    negative. *)
Record WellBehaved (Inv : World → Prop) : Prop := mkWellBehaved {
  wb_get : ∀ w parentUid, Inv w → (doGetFolders w parentUid).1 = w;
  wb_post_inv : ∀ w title parentUid, Inv w → Inv (doPostFolder w title parentUid).1;
  wb_post_frame : ∀ w title parentUid title' parentUid' id uid,
    Inv w → known w title parentUid id uid →
    known (doPostFolder w title' parentUid').1 title parentUid id uid;
  wb_post_new : ∀ w title parentUid w' statusCode body id uid,
    Inv w →
    (query w title parentUid).2 = None → (query w title parentUid).1.1 ≤ 0 →
    doPostFolder w title parentUid = (w', Http statusCode body (inr (id, uid))) →
    statusCode < 300 →
    known w' title parentUid id uid;
  wb_ids : ∀ w title parentUid id uid,
    Inv w → query w title parentUid = (id, uid, None) → 0 ≤ id
}.

(** Every node of the tree carries the identifiers that the query for its
    name under its parent finds in the remote state [w]. *)
Fixpoint resolvedTree (w : World) (t : Sync.Tree) (parentUid : string) : Prop :=
  match t with
  | Sync.Node name _ children uid id =>
      known w name parentUid id uid
      ∧ (fix all (l : list Sync.Tree) : Prop :=
           match l with
           | [] => True
           | child :: rest => resolvedTree w child uid ∧ all rest
           end) children
  end.

Definition extends (w w' : World) : Prop :=
  ∀ title parentUid id uid, known w title parentUid id uid → known w' title parentUid id uid.

(** The cache writes of a walk over a tree whose nodes carry their
    identifiers, in the order of the walk. *)
Definition writesOf (t : Sync.Tree) : list (string * Z) :=
  map (fun n => (Sync.treeFullPath n, Sync.treeID n)) (nodesOf t).

Definition applyWrites (m : gmap string Z) (ws : list (string * Z)) : gmap string Z :=
  fold_left (fun m w => <[w.1 := w.2]> m) ws m.

(** The tree without the identifiers that a walk writes into it. *)
Fixpoint skeleton (t : Sync.Tree) : Sync.Tree :=
  match t with
  | Sync.Node name fullPath children _ _ =>
      Sync.Node name fullPath (map skeleton children) "" 0
  end.

(** The outcome of a walk that every node passes by the query alone. *)
Definition queriesOnly (c c' : Client) (t : list Sync.Tree) : Prop :=
  world c' = world c
  ∧ folders c' = applyWrites (folders c) (List.flat_map writesOf t)
  ∧ ∃ gets, calls c' = calls c ++ gets
      ∧ Forall (fun k => isPost k = false) gets
      ∧ length gets = length (List.flat_map nodesOf t).

End ReconcilerSpec.

Section ServersSpec.
Import Grafana.

Definition scripted : Remote :=
  mkRemote (list (Response (list folderEntry)) * list (Response (Z * string)))
    (fun w _ =>
       match w.1 with
       | r :: rest => ((rest, w.2), r)
       | [] => (w, TransportError "EOF")
       end)
    (fun w _ _ =>
       match w.2 with
       | r :: rest => ((w.1, rest), r)
       | [] => (w, TransportError "EOF")
       end).

Record server := mkServer {
  stored : list folderEntry;
  nextID : Z
}.

Definition uidOf (n : Z) : string := "uid-" +:+ pretty n.

Definition serverGet (w : server) (parentUid : string)
  : server * Response (list folderEntry) :=
  (w, Http 200 "" (inr (List.filter (fun e => bool_decide (entryParentUID e = parentUid))
                                    (stored w)))).

Definition serverPost (w : server) (title parentUid : string)
  : server * Response (Z * string) :=
  if existsb (matches title parentUid) (stored w)
  then (w, Http 409 "a folder with that name already exists" (inl "conflict"))
  else
    let e := mkFolderEntry (nextID w) (uidOf (nextID w)) title parentUid in
    (mkServer (stored w ++ [e]) (nextID w + 1), Http 200 "" (inr (entryID e, entryUID e))).

Definition ideal : Remote := mkRemote server serverGet serverPost.

Definition serverInv (w : server) : Prop :=
  0 < nextID w ∧ Forall (fun e => 0 < entryID e) (stored w).

Definition demoTree : Sync.Tree :=
  Sync.Node "team" "team"
    [Sync.Node "api" "team/api" [] "" 0; Sync.Node "web" "team/web" [] "" 0] "" 0.

Definition demoClient : Client (R := ideal) :=
  NewClient (R := ideal) "http://grafana:3000" "" "admin" "admin" (mkServer [] 1).

(** A server on which another party creates the folder [team] between the
    query and the creation of the client. *)
Definition racedClient : Client (R := scripted) :=
  NewClient (R := scripted) "http://grafana:3000" "" "admin" "admin"
    ([Http 200 "[]" (inr []);
      Http 200 "[...]" (inr [mkFolderEntry 7 "u7" "team" ""])],
     [Http 409 "folder already exists" (inl "")]).

End ServersSpec.

Section PathStringsSpec.

(** The string has a slash in it. *)
Definition hasSlash (s : string) : bool := Strings.anyChar (Ascii.eqb "/") s.

(** The key of the folder made of the first [i + 1] segments. *)
Definition prefixKey (parts : list string) (i : nat) : string :=
  Strings.Join (take (S i) parts) "/".

End PathStringsSpec.

Section GraphInvariantSpec.
Import Sync.

(** The graph holds a node named [nm] under the key [k]. *)
Definition hasNode (st : Store) (k nm : string) : Prop :=
  ∃ p n, graph st !! k = Some p ∧ heap st !! p = Some n ∧ Name n = nm.

(** The node under the key [k1] lists the node of full path [k2] as a child. *)
Definition hasEdge (st : Store) (k1 k2 : string) : Prop :=
  ∃ p n q m, graph st !! k1 = Some p ∧ heap st !! p = Some n
             ∧ q ∈ Children n ∧ heap st !! q = Some m ∧ FullPath m = k2.

(** The node at [p] is listed as a child by some node. *)
Definition listed (st : Store) (p : ptr) : Prop :=
  ∃ q m, heap st !! q = Some m ∧ p ∈ Children m.

Record WF (st : Store) : Prop := mkWF {
  wf_key : ∀ k p, graph st !! k = Some p → ∃ n, heap st !! p = Some n ∧ FullPath n = k;
  wf_indexed : ∀ p n, heap st !! p = Some n → graph st !! FullPath n = Some p;
  wf_name : ∀ p n, heap st !! p = Some n →
            last (Strings.Split (FullPath n) "/") = Some (Name n);
  wf_child : ∀ p n q, heap st !! p = Some n → q ∈ Children n →
             ∃ m, heap st !! q = Some m ∧ FullPath m = FullPath n +:+ "/" +:+ Name m;
  wf_nodup : ∀ p n, heap st !! p = Some n → NoDup (Children n)
}.

(** Every node with a slash in its path is listed by a node, except
    possibly the node of path [kx]. *)
Definition parented (st : Store) (kx : option string) : Prop :=
  ∀ p n, heap st !! p = Some n → hasSlash (FullPath n) = true →
         Some (FullPath n) = kx ∨ listed st p.

(** The two halves of the body of the inner loop. *)
Definition ensureNode (k nm : string) (st : Store) : Store :=
  match graph st !! k with
  | Some _ => st
  | None =>
      mkStore (heap st ++ [mkFolderNode nm k [] "" 0])
              (<[k := length (heap st)]> (graph st))
  end.

Definition link (kp kc : string) (st : Store) : option Store :=
  match graph st !! kp with
  | None => None
  | Some pp =>
      match heap st !! pp, graph st !! kc with
      | Some parent, Some cp =>
          if existsb (Nat.eqb cp) (Children parent) then Some st
          else Some (mkStore
                       (<[pp := set_Children parent (Children parent ++ [cp])]> (heap st))
                       (graph st))
      | _, _ => None
      end
  end.

(** The nodes and the edges that one relative folder path, cut into
    [parts], asks for. *)
Definition nodeOfParts (parts : list string) (k nm : string) : Prop :=
  ∃ i, (i < length parts)%nat ∧ k = prefixKey parts i ∧ nm = nth i parts "".

Definition edgeOfParts (parts : list string) (k1 k2 : string) : Prop :=
  ∃ j, (S j < length parts)%nat ∧ k1 = prefixKey parts j ∧ k2 = prefixKey parts (S j).

Definition slashFree (parts : list string) : Prop :=
  Forall (fun w => hasSlash w = false) parts.

(** Two graphs with the same nodes (keys and names) and the same edges. *)
Definition sameForest (st st' : Store) : Prop :=
  (∀ k nm, hasNode st k nm ↔ hasNode st' k nm)
  ∧ (∀ k1 k2, hasEdge st k1 k2 ↔ hasEdge st' k1 k2).

Definition childrenDistinct (st : Store) : Prop :=
  ∀ p n, heap st !! p = Some n → NoDup (Children n).

(** The length of the longest full path in the heap. *)
Definition longestPath (h : list FolderNode) : nat :=
  foldr (fun n acc => Nat.max (String.length (FullPath n)) acc) 0%nat h.

Section BuildingSpec.
Variable P : Filepath.Platform.
Variable baseDir : string.

(** The segments of the relative folder of a dashboard path; none for a
    dashboard at the root. *)
Definition partsOf (path : string) : list string :=
  let rel := relOf P baseDir path in
  if bool_decide (rel = ".") || bool_decide (rel = "") then []
  else Strings.Split rel "/".

End BuildingSpec.

End GraphInvariantSpec.

Section LexicalPathsSpec.
Import Filepath.
Variable P : Platform.

(** What the two platforms of the program have in common: the separator
    and the slash are both path separators. *)
Record PlatformLaws : Prop := mkPlatformLaws {
  separator_separates : IsPathSeparator P (Separator P) = true;
  slash_separates : IsPathSeparator P "/" = true;
  dot_no_separator : IsPathSeparator P "." = false
}.

(** A path segment that names a file or a directory: not empty, neither
    [.] nor [..], and without a path separator. *)
Definition plain (seg : string) : Prop :=
  seg ≠ "" ∧ seg ≠ "." ∧ seg ≠ ".."
  ∧ Strings.anyChar (IsPathSeparator P) seg = false.

(** The path made of the segments [segs], absolute when [rooted]. *)
Definition pathOf (rooted : bool) (segs : list string) : string :=
  (if rooted then sepString P else "") +:+ Strings.Join segs (sepString P).

(** The same path as [Clean] writes it. *)
Definition cleanOf (rooted : bool) (segs : list string) : string :=
  if rooted then pathOf true segs
  else match segs with [] => "." | _ => pathOf false segs end.

(** The empty first element that the scan of [Rel] meets on a rooted path. *)
Definition lead (rooted : bool) : list string := if rooted then [""] else [].

End LexicalPathsSpec.

Section ClassifierSpec.
Import Filepath.

(** [r] names the directory [dir] relative to [base]: joining [r] to
    [base] with a separator gives, once cleaned, the directory. *)
Definition relativeTo (P : Platform) (base dir r : string) : Prop :=
  Clean P (base +:+ sepString P +:+ r) = Clean P dir.

End ClassifierSpec.

Section GraphExamplesSpec.
Import Sync.

Definition demoPaths : list string :=
  ["/d/a/b/x.json"; "/d/a/c/y.json"; "/d/a/b/z.json"; "/d/r.json"; "/d/q/w.json"].

End GraphExamplesSpec.

(** ** Vocabulary of the further properties *)

Section ForestSpec.
Import Sync.

(** Every node is as [BuildFolderGraph] allocates it: without identifiers. *)
Definition unresolved (st : Store) : Prop :=
  ∀ p n, heap st !! p = Some n → UID n = "" ∧ ID n = 0.

End ForestSpec.

Section NormalPathsSpec.
Import Grafana.

(** A segment that [splitFolderPath] keeps. *)
Definition cleanSegment (seg : string) : Prop :=
  seg ≠ "" ∧ seg ≠ "." ∧ Strings.anyChar isSep seg = false.

(** The path as [createFolderRecursive] writes it into the cache. *)
Definition normalPath (path : string) : string :=
  Strings.Join (splitFolderPath path) "/".

End NormalPathsSpec.

Section FolderClientSpec.
Import Grafana.
Context {R : Remote}.

(** [c'] is [c] after some requests: the settings are the same, no key
    has left the cache, and at most three requests were sent for each of
    [n] steps, at most one of them a creation. *)
Definition after (n : nat) (c c' : Client) : Prop :=
  url c' = url c ∧ token c' = token c ∧ user c' = user c ∧ password c' = password c
  ∧ (∀ q, is_Some (folders c !! q) → is_Some (folders c' !! q))
  ∧ ∃ new, calls c' = calls c ++ new
      ∧ (length new ≤ 3 * n)%nat
      ∧ (length (List.filter isPost new) ≤ n)%nat.

(** The existence queries among the requests [new]. *)
Definition getsIn (new : list Call) : nat :=
  length (List.filter (fun k => negb (isPost k)) new).

(** Between [c] and [c'] at least [n] existence queries were sent. *)
Definition queried (n : nat) (c c' : Client) : Prop :=
  ∃ new, calls c' = calls c ++ new ∧ (n ≤ getsIn new)%nat.

End FolderClientSpec.

Section PathAsTreeSpec.
Import Grafana.
Context {R : Remote}.

(** The tree that a single folder path stands for: one node for each
    segment, with the joined prefix as full path and the node of the next
    segment as its only child. *)
Fixpoint chainBelow (currentPath : string) (parts : list string) : list Sync.Tree :=
  match parts with
  | [] => []
  | name :: rest =>
      let currentPath :=
        if bool_decide (currentPath = "") then name else currentPath +:+ "/" +:+ name in
      [Sync.Node name currentPath (chainBelow currentPath rest) "" 0]
  end.

End PathAsTreeSpec.

Section PollCycleSpec.
Import Sync Grafana.
Context {R : Remote}.
Variable P : Filepath.Platform.

(** The loop of [main] over the folder graph (cmd/grafana-git-sync):
    [entries] are the entries of the map in the order in which [range]
    yields them; the tree below a root is walked with no parent, an error
    is logged and the loop goes on.  The walk writes the identifiers into
    the nodes it visits and reads none of them, and no node lies below two
    roots, so the tree of every root is read from the heap as it was
    built; the walked trees are returned with the client and the errors. *)
Fixpoint createFolders (st : Store) (entries : list (string * nat)) (c : Client)
  : option (Client * list Tree * list string) :=
  match entries with
  | [] => Some (c, [], [])
  | (_, node) :: rest =>
      if negb (HasParent node st) then
        match load (S (longestPath (heap st))) (heap st) node with
        | None => None
        | Some t =>
            let '(c, t', err) := CreateFolderTreeFromNode t "" c in
            match createFolders st rest c with
            | None => None
            | Some (c, trees, errors) =>
                Some (c, t' :: trees,
                      match err with Some e => e :: errors | None => errors end)
            end
        end
      else createFolders st rest c
  end.

End PollCycleSpec.

Section CycleSpec.
Import Sync Grafana.
Context {R : Remote} {J : Json} {U : Uploader}.
Variable P : Filepath.Platform.

(** The identifier of the folder of a dashboard, as the upload loop of
    [main] finds it: 0 for a dashboard of the base directory, the cached
    identifier when it is not 0, and otherwise what [CreateFolderTree]
    returns; [None] when that fails and the dashboard is skipped. *)
Definition folderFor (c : Client) (folderPath : string) : Client * option Z :=
  if negb (bool_decide (folderPath = "")) then
    let folderID := GetFolderIDByPath c folderPath in
    if (folderID =? 0)%Z then
      let '(c, (folderID, err)) := CreateFolderTree c folderPath in
      match err with
      | Some _ => (c, None)
      | None => (c, Some folderID)
      end
    else (c, Some folderID)
  else (c, Some 0).

(** The upload loop of [main]: the client, the number of dashboards
    uploaded, and for every upload that was tried the file, the folder
    identifier and the error. *)
Fixpoint uploadChanged (fs : FileSystem) (s : Service) (versionMessage : string)
    (changedFiles : list string) (c : Client) (dashboardCount : Z)
  : Client * Z * list (string * Z * option string) :=
  match changedFiles with
  | [] => (c, dashboardCount, [])
  | filePath :: rest =>
      match LoadDashboard P fs s filePath with
      | inr _ => uploadChanged fs s versionMessage rest c dashboardCount
      | inl dashboard =>
          match folderFor c (FolderPath dashboard) with
          | (c, None) => uploadChanged fs s versionMessage rest c dashboardCount
          | (c, Some folderID) =>
              let '(c, err) :=
                UploadDashboardWithVersion c (Content dashboard) folderID
                                           versionMessage in
              let dashboardCount :=
                match err with
                | Some _ => dashboardCount
                | None => dashboardCount + 1
                end in
              let '(c, dashboardCount, tried) :=
                uploadChanged fs s versionMessage rest c dashboardCount in
              (c, dashboardCount, (filePath, folderID, err) :: tried)
          end
      end
  end.

(** How the part of a poll cycle that follows [CopyDashboards] ends. *)
Inductive CycleEnd : Type :=
| NoChanges
| Synced (folderErrors : list string) (dashboardCount : Z)
         (tried : list (string * Z * option string)).

(** The poll cycle of [main] from the files that [CopyDashboards] has
    returned; [range] is the order in which the graph is ranged over.
    [None] is a panic. *)
Definition syncFiles (range : Store → list (string * nat)) (fs : FileSystem)
    (versionMessage : string) (allFiles : list string) (s : Service) (c : Client)
  : option (Service * Client * CycleEnd) :=
  let '((changedFiles, err), s) := GetChangedFiles fs s allFiles in
  let changedFiles :=
    match err with
    | Some _ => allFiles
    | None => changedFiles
    end in
  if (length changedFiles =? 0)%nat then Some (s, c, NoChanges)
  else
    match BuildFolderGraph P allFiles (dashboardsDir s) with
    | None => None
    | Some folderGraph =>
        match createFolders folderGraph (range folderGraph) c with
        | None => None
        | Some (c, _, folderErrors) =>
            let '(c, dashboardCount, tried) :=
              uploadChanged fs s versionMessage changedFiles c 0 in
            Some (s, c, Synced folderErrors dashboardCount tried)
        end
    end.

End CycleSpec.

Section CredentialsSpec.
Import Grafana.
Context {R : Remote} {T : Transport} {L : Library}.

(** The replies among the events, and the pauses. *)
Definition repliesIn (evs : list Event) : list Reply :=
  List.flat_map (fun e => match e with Sent _ y => [y] | Slept _ => [] end) evs.

Definition requestsIn (evs : list Event) : list Request :=
  List.flat_map (fun e => match e with Sent q _ => [q] | Slept _ => [] end) evs.

Definition pausesIn (evs : list Event) : list Z :=
  List.flat_map (fun e => match e with Sent _ _ => [] | Slept d => [d] end) evs.

(** A reply that ends the loop of [ValidateAuth]. *)
Definition decisive (y : Reply) : bool :=
  match y with
  | Replied statusCode _ => (statusCode =? 200) || (statusCode =? 401)
  | Failed _ => false
  end.

End CredentialsSpec.

Section ReadinessSpec.
Import Grafana.
Context {R : Remote} {T : Transport} {L : Library}.

(** What is assumed of the clock: a request does not turn it back, and a
    sleep moves it forward by its duration at least. *)
Record ClockLaws : Prop := mkClockLaws {
  clock_send : ∀ n req, now n ≤ now (roundTrip n req).1;
  clock_sleep : ∀ n d, now n + d ≤ now (sleep n d)
}.

(** The rounds of two seconds that fit before the deadline. *)
Definition roundsLeft (deadline t : Z) : nat :=
  Z.to_nat ((deadline - t + 2 * second - 1) / (2 * second)).

End ReadinessSpec.

Section ServiceAccountSpec.
Import Grafana.
Context {R : Remote} {T : Transport} {L : Library}.

(** The request by which [waitForSAToken] tries a token. *)
Definition tokenProbe (c : Client) (key : string) : Request :=
  mkRequest "GET" (url c +:+ "/api/folders") (Bearer key) "" "".

(** The requests of [new] carry the user and the password of the client,
    their methods are among [methods], in that order, and nothing sleeps. *)
Definition basicRequests (c : Client) (methods : list string) (new : list Event) : Prop :=
  pausesIn new = []
  ∧ Forall (fun q => reqAuth q = Basic (user c) (password c)) (requestsIn new)
  ∧ sublist (map reqMethod (requestsIn new)) methods.

End ServiceAccountSpec.

Section ConfigurationSpec.
Import Config.

(** What [maskSensitiveFields] makes of a string it takes as a secret. *)
Definition masked (s : string) : string :=
  if bool_decide (s = "") then "" else "***".

End ConfigurationSpec.

Section GitAuthSpec.
Import Config Git.
Context {K : KeyParser}.

(** The addresses for which [createAuth] uses the SSH key. *)
Definition sshURL (repoURL : string) : bool :=
  HasPrefix repoURL "ssh://" || HasPrefix repoURL "git@".

(** The Git client that [main] builds from the configuration. *)
Definition gitClientOf (cfg : Config) : Client + string :=
  NewClient (RepoURL cfg) (Branch cfg) (RepoDir cfg) (SSHKey cfg) (HTTPSUser cfg)
            (HTTPSPassword cfg).

End GitAuthSpec.

Section FurtherExamplesSpec.
Import Sync Grafana.

(** A transport that answers from a list of replies and whose clock only
    moves when the client sleeps. *)
Definition scriptedNet : Transport :=
  mkTransport (Z * list Reply)
    (fun n _ => match n.2 with
                | y :: rest => ((n.1, rest), y)
                | [] => (n, Failed "EOF")
                end)
    fst
    (fun n d => (n.1 + d, n.2)).

(** Decoders that know three bodies, and durations printed in seconds. *)
Definition demoLibrary : Library :=
  mkLibrary
    (fun body => if bool_decide (body = "accounts") then inr [(4, "git-sync-sa")]
                 else inl "unexpected end of JSON input")
    (fun body => inl "unexpected end of JSON input")
    (fun body => if bool_decide (body = "tokens") then inr [(9, "git-sync-token")]
                 else inl "unexpected end of JSON input")
    (fun body => if bool_decide (body = "created") then inr "glsa_1" else inl "EOF")
    (fun d => pretty (d / 1000000000) +:+ "s").

Definition demoSession (script : list Reply) : Session (T := scriptedNet) :=
  mkSession (T := scriptedNet) (0, script) [].

(** A decoder that rejects the empty file, an encoder that never fails and
    a server that refuses every dashboard. *)
Definition demoJson : Json :=
  mkJson (list Byte.byte)
    (fun content => match content with
                    | [] => inl "unexpected end of JSON input"
                    | _ => inr content
                    end)
    (fun path => "open " +:+ path +:+ ": no such file or directory").

Definition refusingUploader : Uploader (R := ideal) (J := demoJson) :=
  mkUploader (R := ideal) (J := demoJson)
    (fun body => inr "body") (fun method address => None)
    (fun w a data => (w, Replied 500 "refused")).

(** The files of [demoPaths], each with one byte. *)
Definition demoFiles : FileSystem :=
  fun path => if bool_decide (path ∈ demoPaths) then Some [Byte.x7b] else None.

Definition demoRange (st : Store) : list (string * nat) := map_to_list (graph st).

(** Keys that always parse. *)
Definition demoKeys : Git.KeyParser := Git.mkKeyParser string (fun key => inr key) id.

Definition demoConfig : Config.Config :=
  Config.mkConfig "https://github.com/team/dashboards.git" "main" "key" "" ""
    "/tmp/grafana_data" "" "/tmp/grafana_data" 60000000000 "http://grafana:3000"
    "" "" "glsa_1".

End FurtherExamplesSpec.

(** * Properties *)

Example sha256_empty :
  Sync.computeFileHash [] =
  "e3b0c44298fc1c149afbf4c8996fb92427ae41e4649b934ca495991b7852b855".
Proof. vm_compute. reflexivity. Qed.

Example sha256_abc :
  Sync.computeFileHash (bytes_of "abc") =
  "ba7816bf8f01cfea414140de5dae2223b00361a396177a9cb410ff61f20015ad".
Proof. vm_compute. reflexivity. Qed.

Example sha256_two_blocks :
  Sync.computeFileHash
    (bytes_of "abcdbcdecdefdefgefghfghighijhijkijkljklmklmnlmnomnopnopq") =
  "248d6a61d20638b8e5c026930c3e6039a33ce45964ff2167f6ecedd419db06c1".
Proof. vm_compute. reflexivity. Qed.

Example clean_examples :
  map (Filepath.Clean Filepath.Unix)
      ["a/c"; "a//c"; "a/c/."; "a/c/b/.."; "/../a/c"; "/../a/b/../././/c"; "";
       "/"; "abc/"; "../../abc"; "abc/def/../../.."; "a/b/"] =
  ["a/c"; "a/c"; "a/c"; "a/c"; "/a/c"; "/a/c"; "."; "/"; "abc"; "../../abc"; ".."; "a/b"].
Proof. vm_compute. reflexivity. Qed.

Example dir_examples :
  map (Filepath.Dir Filepath.Unix)
      ["/foo/bar/baz.js"; "/foo/bar/baz"; "/foo/bar/baz/"; "/dirty//path///";
       "dev.txt"; "../todo.txt"; ".."; "."; "/"; ""] =
  ["/foo/bar"; "/foo/bar"; "/foo/bar/baz"; "/dirty/path"; "."; ".."; "."; "."; "/"; "."].
Proof. vm_compute. reflexivity. Qed.

Example rel_examples :
  map (fun p => fst (Filepath.Rel Filepath.Unix (fst p) (snd p)))
      [("a/b", "a/b"); ("a/b/.", "a/b"); ("ab/cd", "ab/cde"); ("a/b", "a/b/c/d");
       ("a/b/c", "a/c/d"); ("a/b", "c/d"); ("a/b/c/d", "a/b"); ("/a/b", "/a/b/c/d");
       ("/a/b/c", "/a/c/d"); ("/a/b/c/d/", "/a/b/"); (".", "a/b"); (".", "..");
       ("/a", "/b/c"); ("/", "/a/b")] =
  ["."; "."; "../cde"; "c/d"; "../../c/d"; "../../c/d"; "../.."; "c/d";
   "../../c/d"; "../.."; "a/b"; ".."; "../b/c"; "a/b"].
Proof. vm_compute. reflexivity. Qed.

Example rel_errors :
  map (fun p => snd (Filepath.Rel Filepath.Unix (fst p) (snd p)))
      [("..", "."); ("..", "a"); ("a", "/a"); ("/a", "a")] =
  [Some "Rel: can't make . relative to .."; Some "Rel: can't make a relative to ..";
   Some "Rel: can't make /a relative to a"; Some "Rel: can't make a relative to /a"].
Proof. vm_compute. reflexivity. Qed.

#[local] Arguments Ascii.eqb : simpl never.
#[local] Arguments String.eqb : simpl never.

(** ** Change detector *)

Section ChangeDetector.
Import Sync.

Lemma set_fileHashes_hashes s m : fileHashes (set_fileHashes s m) = m.
Proof. reflexivity. Qed.

Lemma differs_iff s path content :
  differs s path content ↔ fileHashes s !! path ≠ Some (computeFileHash content).
Proof.
  unfold differs. destruct (fileHashes s !! path) as [old|].
  - split.
    + intros [?|(o & Ho & Hne)]; [done|]. congruence.
    + intros Hne. right. exists old. split; [done|]. congruence.
  - split; [done|]. intros _. by left.
Qed.

Lemma HasFileChanged_result s path content :
  (HasFileChanged s path content).1 = true ↔ differs s path content.
Proof.
  rewrite differs_iff. unfold HasFileChanged.
  destruct (fileHashes s !! path) as [old|] eqn:E; simpl.
  - case_bool_decide as Hd; simpl.
    + split; [|done]. intros _. congruence.
    + split; [done|]. intros Hne. exfalso. apply Hne.
      f_equal. destruct (decide (old = computeFileHash content)); [done|contradiction].
  - done.
Qed.

Lemma HasFileChanged_entry s path content :
  fileHashes (HasFileChanged s path content).2 !! path
  = Some (computeFileHash content).
Proof.
  unfold HasFileChanged.
  destruct (fileHashes s !! path) as [old|] eqn:E; simpl.
  - case_bool_decide as Hd; simpl.
    + apply lookup_insert_eq.
    + rewrite E. f_equal.
      destruct (decide (old = computeFileHash content)); [done|contradiction].
  - apply lookup_insert_eq.
Qed.

Lemma HasFileChanged_other s path content q :
  q ≠ path →
  fileHashes (HasFileChanged s path content).2 !! q = fileHashes s !! q.
Proof.
  intros Hq. unfold HasFileChanged.
  destruct (fileHashes s !! path) as [old|] eqn:E; simpl.
  - case_bool_decide; simpl; [|done]. by apply lookup_insert_ne.
  - by apply lookup_insert_ne.
Qed.

Lemma HasFileChanged_config s path content :
  let s' := (HasFileChanged s path content).2 in
  repoDir s' = repoDir s ∧ repoSubdir s' = repoSubdir s
  ∧ dashboardsDir s' = dashboardsDir s.
Proof.
  unfold HasFileChanged.
  destruct (fileHashes s !! path); [case_bool_decide|]; done.
Qed.

(** C4. [HasFileChanged path content] answers true exactly when the table
    has no entry for [path] or an entry that differs from the SHA-256
    fingerprint of [content], and false otherwise; after the call the entry
    of [path] is that fingerprint whatever the answer was, the other
    entries are as before, and a path absent from the table is reported
    as changed. *)
Theorem HasFileChanged_contract (s : Service) (path : string)
    (content : list Byte.byte) :
  let r := HasFileChanged s path content in
  (r.1 = true ↔ differs s path content)
  ∧ (r.1 = false ↔ fileHashes s !! path = Some (computeFileHash content))
  ∧ fileHashes r.2 !! path = Some (computeFileHash content)
  ∧ (∀ q, q ≠ path → fileHashes r.2 !! q = fileHashes s !! q)
  ∧ (fileHashes s !! path = None → r.1 = true).
Proof.
  intros r. subst r.
  pose proof (HasFileChanged_result s path content) as Hr.
  split; [exact Hr|]. split.
  - rewrite differs_iff in Hr.
    destruct (HasFileChanged s path content).1.
    + split; [done|]. intros He. exfalso. by apply Hr.
    + split; [|done]. intros _.
      destruct (decide (fileHashes s !! path = Some (computeFileHash content)))
        as [|Hn]; [done|].
      apply Hr in Hn. done.
  - split; [apply HasFileChanged_entry|].
    split; [intros q Hq; by apply HasFileChanged_other|].
    intros Hnone. apply Hr. by left.
Qed.

Lemma HasFileChanged_changedAt fs s p content :
  fs p = Some content → (HasFileChanged s p content).1 = changedAt fs s p.
Proof.
  intros Hp. unfold changedAt. rewrite Hp.
  pose proof (HasFileChanged_result s p content) as Hr.
  rewrite differs_iff in Hr.
  destruct (HasFileChanged s p content).1; case_bool_decide as H; try done.
  - exfalso. by apply (proj1 Hr).
  - by apply Hr.
Qed.

Lemma changedAt_after fs s p content q :
  fs p = Some content →
  changedAt fs (HasFileChanged s p content).2 q
  = if bool_decide (q = p) then false else changedAt fs s q.
Proof.
  intros Hp. unfold changedAt. case_bool_decide as Hq.
  - subst q. rewrite Hp, HasFileChanged_entry.
    case_bool_decide; [done|done].
  - by rewrite HasFileChanged_other.
Qed.

Lemma GetChangedFiles_loop_spec fs l : ∀ changed s,
  ∃ res : list string,
    (GetChangedFiles_loop fs l changed s).1 = (changed ++ res)%list
    ∧ sublist res l
    ∧ NoDup res
    ∧ (∀ p, p ∈ res ↔ p ∈ l ∧ changedAt fs s p = true)
    ∧ (NoDup l → res = List.filter (changedAt fs s) l)
    ∧ (∀ p, fileHashes (GetChangedFiles_loop fs l changed s).2 !! p
            = match fs p with
              | Some content =>
                  if bool_decide (p ∈ l) then Some (computeFileHash content)
                  else fileHashes s !! p
              | None => fileHashes s !! p
              end).
Proof.
  induction l as [|p0 l IH]; intros changed s; simpl.
  - exists []. rewrite app_nil_r.
    split; [done|]. split; [constructor|]. split; [constructor|].
    split.
    { intros p. split; [intros Hp|intros [Hp _]]; by apply elem_of_nil in Hp. }
    split; [done|].
    intros p. by destruct (fs p).
  - destruct (fs p0) as [content|] eqn:Hp0.
    + destruct (HasFileChanged s p0 content) as [b s1] eqn:Hc.
      assert (Hb : b = changedAt fs s p0).
      { rewrite <- (HasFileChanged_changedAt fs s p0 content Hp0). by rewrite Hc. }
      assert (Hs1 : s1 = (HasFileChanged s p0 content).2) by (by rewrite Hc).
      destruct (IH (if b then changed ++ [p0] else changed) s1)
        as (res & Hres & Hsub & Hnd & Hmem & Hfil & Htab).
      assert (Hnot : p0 ∉ res).
      { intros Hin. apply Hmem in Hin as [_ Hin].
        rewrite Hs1, changedAt_after in Hin by done.
        by rewrite bool_decide_eq_true_2 in Hin. }
      assert (Hmem' : ∀ p, p ∈ res ↔ p ∈ l ∧ p ≠ p0 ∧ changedAt fs s p = true).
      { intros p. rewrite Hmem, Hs1, changedAt_after by done.
        case_bool_decide; naive_solver. }
      exists ((if b then [p0] else []) ++ res).
      split; [rewrite Hres; destruct b; by rewrite <- ?app_assoc|].
      split; [destruct b; simpl; [by apply sublist_skip|by apply sublist_cons]|].
      split; [destruct b; simpl; [by apply NoDup_cons|done]|].
      split.
      { intros p. specialize (Hmem' p).
        destruct b; simpl; rewrite !elem_of_cons, Hmem'.
        - split; [intros [->|?]; naive_solver|].
          intros [[->|?] ?]; [by left|].
          destruct (decide (p = p0)); naive_solver.
        - split; [naive_solver|].
          intros [[->|?] ?]; [congruence|].
          destruct (decide (p = p0)); [congruence|naive_solver]. }
      split.
      { intros Hnd0. apply NoDup_cons in Hnd0 as [Hp0l Hndl].
        rewrite (Hfil Hndl), <- Hb.
        assert (Heq : List.filter (changedAt fs s1) l = List.filter (changedAt fs s) l).
        { apply List.filter_ext_in. intros a Ha.
          rewrite Hs1, changedAt_after by done.
          case_bool_decide; [|done]. subst a.
          exfalso. apply Hp0l. by apply list_elem_of_In. }
        rewrite Heq. by destruct b. }
      intros p. rewrite Htab, Hs1.
      destruct (fs p) as [cp|] eqn:Hp.
      * destruct (decide (p = p0)) as [->|Hne].
        -- rewrite HasFileChanged_entry.
           assert (cp = content) by congruence. subst cp.
           rewrite (bool_decide_eq_true_2 (p0 ∈ p0 :: l)) by (by left).
           by case_bool_decide.
        -- rewrite HasFileChanged_other by done.
           case_bool_decide as H1; case_bool_decide as H2; try done.
           ++ exfalso. apply H2. by right.
           ++ exfalso. apply elem_of_cons in H2 as [?|?]; done.
      * destruct (decide (p = p0)) as [->|Hne]; [congruence|].
        by rewrite HasFileChanged_other.
    + destruct (IH changed s) as (res & Hres & Hsub & Hnd & Hmem & Hfil & Htab).
      assert (Hun : changedAt fs s p0 = false) by (unfold changedAt; by rewrite Hp0).
      exists res. split; [done|].
      split; [by apply sublist_cons|]. split; [done|].
      split.
      { intros p. rewrite Hmem, elem_of_cons.
        split; [naive_solver|]. intros [[->|?] ?]; [congruence|done]. }
      split.
      { intros Hnd0. apply NoDup_cons in Hnd0 as [_ Hndl].
        rewrite Hun. by apply Hfil. }
      intros p. rewrite Htab. destruct (fs p) as [cp|] eqn:Hp; [|done].
      case_bool_decide as H1; case_bool_decide as H2; try done.
      * exfalso. apply H2. by right.
      * exfalso. apply elem_of_cons in H2 as [->|?]; [congruence|done].
Qed.

(** C8. [GetChangedFiles] never fails: its error is nil whatever the file
    system holds.  The paths it returns are in input order and are exactly
    the readable paths of the batch whose table entry differed from the
    fingerprint of their content (each reported once, at its first
    position); every readable path of the batch ends with the fingerprint
    of its content in the table, and the entry of an unreadable path, like
    that of a path outside the batch, is left as it was. *)
Theorem GetChangedFiles_skips_unreadable (fs : FileSystem) (s : Service)
    (allFiles : list string) :
  let r := GetChangedFiles fs s allFiles in
  r.1.2 = None
  ∧ sublist r.1.1 allFiles
  ∧ NoDup r.1.1
  ∧ (∀ p, p ∈ r.1.1 ↔
          p ∈ allFiles ∧ ∃ content, fs p = Some content ∧ differs s p content)
  ∧ (NoDup allFiles → r.1.1 = List.filter (changedAt fs s) allFiles)
  ∧ (∀ p content, p ∈ allFiles → fs p = Some content →
          fileHashes r.2 !! p = Some (computeFileHash content))
  ∧ (∀ p, fs p = None → (p ∉ r.1.1) ∧ fileHashes r.2 !! p = fileHashes s !! p)
  ∧ (∀ p, p ∉ allFiles → fileHashes r.2 !! p = fileHashes s !! p).
Proof.
  intros r. subst r. unfold GetChangedFiles.
  destruct (GetChangedFiles_loop_spec fs allFiles [] s)
    as (res & Hres & Hsub & Hnd & Hmem & Hfil & Htab).
  destruct (GetChangedFiles_loop fs allFiles [] s) as [changed s'] eqn:E.
  simpl in *. subst changed.
  assert (Hch : ∀ p, changedAt fs s p = true ↔
                     ∃ content, fs p = Some content ∧ differs s p content).
  { intros p. unfold changedAt. destruct (fs p) as [c|].
    - rewrite bool_decide_eq_true, <- differs_iff. naive_solver.
    - naive_solver. }
  split; [done|]. split; [done|]. split; [done|].
  split; [intros p; rewrite Hmem, Hch; done|].
  split; [done|].
  split.
  { intros p content Hin Hp. rewrite Htab, Hp.
    by rewrite bool_decide_eq_true_2. }
  split.
  { intros p Hp. split.
    - intros Hin. apply Hmem in Hin as [_ Hin]. apply Hch in Hin as (c & Hc & _).
      congruence.
    - by rewrite Htab, Hp. }
  intros p Hp. rewrite Htab. destruct (fs p); [|done].
  by rewrite bool_decide_eq_false_2.
Qed.

End ChangeDetector.

(** ** Folder paths of the client *)

Section FolderPaths.
Import Grafana.

Lemma append_cons (x : ascii) (a b : string) : String x a +:+ b = String x (a +:+ b).
Proof. reflexivity. Qed.

Lemma append_nil_l (b : string) : "" +:+ b = b.
Proof. reflexivity. Qed.

Lemma append_assoc (a b c : string) : (a +:+ b) +:+ c = a +:+ (b +:+ c).
Proof.
  induction a as [|x a IH]; [done|]. rewrite !append_cons. by rewrite IH.
Qed.

Lemma append_nil_r (a : string) : a +:+ "" = a.
Proof. induction a as [|x a IH]; [done|]. rewrite append_cons. by rewrite IH. Qed.

Lemma append_eq_nil (a b : string) : a +:+ b = "" → a = "" ∧ b = "".
Proof. destruct a; [done|]. rewrite append_cons. discriminate. Qed.

Lemma replaceSeparators_loop_spec s : ∀ result,
  replaceSeparators_loop s "/" result = result +:+ Strings.mapChars slashed s.
Proof.
  induction s as [|ch s IH]; intros result; simpl.
  - by rewrite append_nil_r.
  - unfold slashed, isSep.
    destruct (Ascii.eqb ch "/" || Ascii.eqb ch "\"); rewrite IH, append_assoc; done.
Qed.

Lemma replaceSeparators_spec s :
  replaceSeparators s "/" = Strings.mapChars slashed s.
Proof. unfold replaceSeparators. by rewrite replaceSeparators_loop_spec. Qed.

Lemma splitOn_slashed s :
  Strings.splitOn (Ascii.eqb "/") (Strings.mapChars slashed s) = Strings.splitOn isSep s.
Proof.
  induction s as [|ch s IH]; simpl; [done|].
  rewrite IH. unfold slashed. destruct (isSep ch) eqn:E; [done|].
  assert (Ascii.eqb "/" ch = false) as ->; [|done].
  unfold isSep in E. apply orb_false_elim in E as [E _].
  by rewrite Ascii.eqb_sym.
Qed.

Lemma splitOn_not_nil p s : Strings.splitOn p s ≠ [].
Proof.
  destruct s as [|ch s]; simpl; [done|].
  destruct (p ch); [done|]. by destruct (Strings.splitOn p s).
Qed.

Lemma splitBy_loop_spec s : ∀ parts current,
  splitBy_loop s "/" parts current =
  parts ++ filter nonEmpty
             (match Strings.splitOn (Ascii.eqb "/") s with
              | w :: ws => (current +:+ w) :: ws
              | [] => [current]
              end).
Proof.
  induction s as [|ch s IH]; intros parts current; simpl.
  - rewrite append_nil_r. destruct (decide (current = "")) as [->|H].
    + rewrite filter_cons_False by (unfold nonEmpty; naive_solver).
      by rewrite filter_nil, app_nil_r.
    + rewrite bool_decide_eq_false_2 by done. simpl.
      by rewrite filter_cons_True by done.
  - pose proof (splitOn_not_nil (Ascii.eqb "/") s) as Hnn.
    destruct (Strings.splitOn (Ascii.eqb "/") s) as [|w ws] eqn:Es; [done|].
    destruct (Ascii.eqb "/" ch) eqn:E.
    + apply Ascii.eqb_eq in E. subst ch.
      rewrite (bool_decide_eq_true_2 ("/" = "/")) by done.
      rewrite append_nil_r.
      destruct (decide (current = "")) as [->|H].
      * simpl. rewrite IH, append_nil_l.
        by rewrite (filter_cons_False nonEmpty "") by (unfold nonEmpty; naive_solver).
      * rewrite bool_decide_eq_false_2 by done. simpl.
        rewrite IH, append_nil_l, (filter_cons_True nonEmpty current) by done.
        by rewrite <- app_assoc.
    + assert (String ch "" ≠ "/") as Hne.
      { intros [= ->]. by rewrite Ascii.eqb_refl in E. }
      rewrite (bool_decide_eq_false_2 _ Hne).
      rewrite IH. by rewrite append_assoc, append_cons, append_nil_l.
Qed.

Lemma splitPath_spec path :
  splitPath path = filter nonEmpty (Strings.splitOn isSep path).
Proof.
  unfold splitPath, splitBy.
  rewrite splitBy_loop_spec, replaceSeparators_spec, splitOn_slashed.
  simpl. by destruct (Strings.splitOn isSep path).
Qed.

Lemma splitFolderPath_spec path :
  splitFolderPath path
  = filter (fun p => p ≠ "" ∧ p ≠ ".") (Strings.splitOn isSep path).
Proof.
  unfold splitFolderPath.
  case_bool_decide as H1; simpl; [by subst path|].
  case_bool_decide as H2; simpl; [by subst path|].
  rewrite splitPath_spec.
  induction (Strings.splitOn isSep path) as [|w ws IH]; [done|].
  rewrite !filter_cons. unfold nonEmpty at 1.
  destruct (decide (w ≠ "")) as [Hw|Hw].
  - rewrite filter_cons.
    destruct (decide (w ≠ "" ∧ w ≠ ".")) as [Hd|Hd]; by rewrite IH.
  - destruct (decide (w ≠ "" ∧ w ≠ ".")) as [[Hd _]|Hd]; [done|]. by rewrite IH.
Qed.

Lemma splitFolderPath_nil path :
  splitFolderPath path = [] ↔ degenerate path = true.
Proof.
  rewrite splitFolderPath_spec. unfold degenerate.
  induction (Strings.splitOn isSep path) as [|w ws IH]; [done|].
  rewrite filter_cons. simpl.
  destruct (decide (w ≠ "" ∧ w ≠ ".")) as [[H1 H2]|Hd].
  - rewrite (bool_decide_eq_false_2 _ H1), (bool_decide_eq_false_2 _ H2). simpl.
    split; discriminate.
  - assert (bool_decide (w = "") || bool_decide (w = ".") = true) as ->; [|done].
    destruct (decide (w = "")) as [->|H1]; [done|].
    destruct (decide (w = ".")) as [->|H2]; [done|].
    exfalso. by apply Hd.
Qed.

Example degenerate_paths :
  map degenerate [""; "."; "/"; "//"; "./."; "\"; "/./\.//"; "a"; ".."; "./a"; "..."]
  = [true; true; true; true; true; true; true; false; false; false; false].
Proof. reflexivity. Qed.

End FolderPaths.

(** ** Remote folder reconciler *)

Section Reconciler.
Import Grafana.
Context {R : Remote}.

Lemma getFolderByTitle_unfold c title parentUid :
  getFolderByTitle c title parentUid =
  (sent c (doGetFolders (world c) parentUid).1
          (CallGet parentUid (doGetFolders (world c) parentUid).2),
   query (world c) title parentUid).
Proof.
  unfold getFolderByTitle, query, answer.
  destruct (doGetFolders (world c) parentUid) as [w resp]. simpl.
  destruct resp as [err|statusCode body decoded]; [done|].
  destruct (negb (statusCode =? 200)%Z); [done|]. by destruct decoded.
Qed.

Lemma findFolder_find title parentUid l :
  findFolder title parentUid l =
  match List.find (matches title parentUid) l with
  | Some e => (entryID e, entryUID e, None)
  | None => (0, "", None)
  end.
Proof.
  induction l as [|e l IH]; simpl; [done|]. unfold matches at 1.
  repeat case_bool_decide; simpl; try done; congruence.
Qed.

Lemma resolved_in_mono tr tr' title parentUid id uid :
  tr ⊆ tr' → resolved_in tr title parentUid id uid → resolved_in tr' title parentUid id uid.
Proof. intros Hsub (k & Hk & H). exists k. split; [by apply Hsub|done]. Qed.

Lemma ensureFolder_outcome c name path parentUid :
  Outcome c name path parentUid
    (ensureFolder c name path parentUid).1 (ensureFolder c name path parentUid).2.
Proof.
  unfold ensureFolder. rewrite getFolderByTitle_unfold. unfold query.
  destruct (doGetFolders (world c) parentUid) as [w1 r1] eqn:E1. simpl.
  destruct (answer name parentUid r1) as [[id0 uid0] [e|]] eqn:A1.
  { simpl. eapply QueryFailed; [exact E1|]. by rewrite A1. }
  destruct (id0 >? 0)%Z eqn:Hpos.
  { simpl. eapply Found; [exact E1|exact A1|lia]. }
  assert (id0 ≤ 0) as Hle by lia.
  destruct (doPostFolder w1 name parentUid) as [w2 r2] eqn:E2.
  destruct r2 as [err|statusCode body decoded].
  { simpl. eapply CreateFailed; [exact E1|exact A1|exact Hle|exact E2|done]. }
  destruct (statusCode >=? 300)%Z eqn:H300.
  - destruct ((statusCode =? 409)%Z || (statusCode =? 412)%Z) eqn:Hc.
    + assert (statusCode = 409 ∨ statusCode = 412) as Hconf.
      { apply orb_true_iff in Hc as [Hc|Hc]; apply Z.eqb_eq in Hc; auto. }
      rewrite getFolderByTitle_unfold. unfold query. simpl.
      destruct (doGetFolders w2 parentUid) as [w3 r3] eqn:E3. simpl.
      destruct (answer name parentUid r3) as [[id uid] [e|]] eqn:A3.
      { simpl. eapply ConflictLost; try eassumption. left. by rewrite A3. }
      destruct (id =? 0)%Z eqn:Hz.
      { simpl. eapply ConflictLost; try eassumption. right. rewrite A3. simpl. lia. }
      simpl. eapply ConflictAdopted; try eassumption. lia.
    + simpl. eapply CreateFailed; try eassumption. left.
      apply orb_false_iff in Hc as [Hc1 Hc2].
      apply Z.eqb_neq in Hc1, Hc2. repeat split; [lia|done|done].
  - destruct decoded as [e|[id uid]].
    + simpl. eapply CreateFailed; try eassumption. right. split; [lia|done].
    + simpl. eapply Created; try eassumption. lia.
Qed.


Lemma CreateFolderTreeFromNode_unfold name fullPath children uid id parentUid c :
  CreateFolderTreeFromNode (Sync.Node name fullPath children uid id) parentUid c =
  match ensureFolder c name fullPath parentUid with
  | (c, inl e) => (c, Sync.Node name fullPath children uid id, Some e)
  | (c, inr (newID, currentUID)) =>
      let '(c, children', err) :=
        walkChildren (fun child => CreateFolderTreeFromNode child currentUID) children c in
      (c, Sync.Node name fullPath children' currentUID newID, err)
  end.
Proof. reflexivity. Qed.

Lemma ensureFolder_create c name path parentUid w1 r1 id0 uid0 :
  doGetFolders (world c) parentUid = (w1, r1) →
  answer name parentUid r1 = (id0, uid0, None) → id0 ≤ 0 →
  ensureFolder c name path parentUid =
  let c1 := sent c w1 (CallGet parentUid r1) in
  let '(w, resp) := doPostFolder w1 name parentUid in
  let c2 := sent c1 w (CallPost name parentUid resp) in
  match resp with
  | TransportError e => (c2, inl e)
  | Http statusCode body decoded =>
      if (statusCode >=? 300)%Z then
        if (statusCode =? 409)%Z || (statusCode =? 412)%Z then
          let '(c3, (existingID, existingUID, err)) := getFolderByTitle c2 name parentUid in
          match err with
          | Some _ => (c3, inl ("folder exists but cannot retrieve: " +:+ body))
          | None =>
              if (existingID =? 0)%Z
              then (c3, inl ("folder exists but cannot retrieve: " +:+ body))
              else (set_folders c3 (<[path := existingID]> (folders c3)),
                    inr (existingID, existingUID))
          end
        else (c2, inl ("failed to create folder " +:+ name +:+ ": " +:+ body))
      else
        match decoded with
        | inl e => (c2, inl e)
        | inr (createdID, createdUID) =>
            (set_folders c2 (<[path := createdID]> (folders c2)),
             inr (createdID, createdUID))
        end
  end.
Proof.
  intros E1 A1 Hle. unfold ensureFolder at 1.
  rewrite getFolderByTitle_unfold. unfold query. rewrite E1. simpl. rewrite A1.
  assert ((id0 >? 0)%Z = false) as -> by lia. done.
Qed.

Lemma ensureFolder_other c name path parentUid q :
  q ≠ path →
  folders (ensureFolder c name path parentUid).1 !! q = folders c !! q.
Proof.
  intros Hq. destruct (ensureFolder_outcome c name path parentUid); simpl;
    rewrite ?lookup_insert_ne by done; done.
Qed.

Lemma Tree_nested_ind (Q : Sync.Tree → Prop) :
  (∀ name fullPath children uid id,
      Forall Q children → Q (Sync.Node name fullPath children uid id)) →
  ∀ t, Q t.
Proof.
  intros Hnode. fix IH 1. intros [name fullPath children uid id].
  apply Hnode. induction children as [|child children IHc]; constructor.
  - apply IH.
  - exact IHc.
Qed.

Lemma fullPath_below (child : Sync.Tree) (children : list Sync.Tree) (q : string) :
  child ∈ children →
  q ∈ map Sync.treeFullPath (nodesOf child) →
  q ∈ map Sync.treeFullPath (List.flat_map nodesOf children).
Proof.
  intros Hin Hq. apply list_elem_of_In, in_map_iff in Hq as (n & Hn & Hnin).
  apply list_elem_of_In, in_map_iff. exists n. split; [done|].
  apply in_flat_map. exists child. split; [by apply list_elem_of_In|done].
Qed.

Lemma walkChildren_other (visit : Sync.Tree → Client → Client * Sync.Tree * option string)
    (children : list Sync.Tree) (q : string) :
  Forall (fun child => ∀ c, folders (visit child c).1.1 !! q = folders c !! q) children →
  ∀ c, folders (walkChildren visit children c).1.1 !! q = folders c !! q.
Proof.
  induction 1 as [|child children Hchild _ IH]; intros c; simpl; [done|].
  specialize (Hchild c). destruct (visit child c) as [[c1 child'] [e|]]; [done|].
  specialize (IH c1). destruct (walkChildren visit children c1) as [[c2 rest'] err].
  simpl in *. congruence.
Qed.

(** A walk writes the cache under the full paths of the nodes it visits
    and nowhere else. *)
Lemma CreateFolderTreeFromNode_other node : ∀ parentUid c q,
  q ∉ map Sync.treeFullPath (nodesOf node) →
  folders (CreateFolderTreeFromNode node parentUid c).1.1 !! q = folders c !! q.
Proof.
  induction node as [name fullPath children uid id IH] using Tree_nested_ind.
  intros parentUid c q Hq. rewrite CreateFolderTreeFromNode_unfold.
  simpl in Hq. apply not_elem_of_cons in Hq as [Hne Hq].
  pose proof (ensureFolder_other c name fullPath parentUid q Hne) as He.
  destruct (ensureFolder c name fullPath parentUid) as [c1 [e|[newID currentUID]]];
    [done|].
  assert (Hw := walkChildren_other
                  (fun child => CreateFolderTreeFromNode child currentUID) children q).
  simpl in He. rewrite <- He.
  destruct (walkChildren _ children c1) as [[c2 children'] err] eqn:Ew.
  simpl. replace c2 with (walkChildren
           (fun child => CreateFolderTreeFromNode child currentUID) children c1).1.1
    by (by rewrite Ew).
  apply Hw. rewrite Forall_forall in IH |- *. intros child Hin c'.
  apply IH; [done|]. intros Hin'. apply Hq. by eapply fullPath_below.
Qed.

(** C3. Let the existence query of a node find nothing, so that the folder
    is created, and let the creation be refused with status 409 or 412.  If
    the list returned by the second query holds a folder with the node's
    name under the same parent, and its identifier is not 0, the node takes
    the identifiers of the first such folder, the cache maps the node's full
    path to that identifier, and the walk goes on into the children with
    that folder as parent: the only error that can come back is one of a
    child, a node without children returns nil, and the cache entry is
    still there at the end when no node below has the same full path.  A
    creation that fails otherwise (transport error, a status of 300 and
    above other than 409 and 412, or a body that cannot be decoded) is
    returned as an error, with the node and the cache as they were. *)
Theorem conflict_convergence (c : Client) (name path : string)
    (children : list Sync.Tree) (uid0 : string) (id0 : Z) (parentUid : string)
    (w1 : World) (r1 : Response (list folderEntry))
    (w2 : World) (r2 : Response (Z * string)) :
  let node := Sync.Node name path children uid0 id0 in
  let run := CreateFolderTreeFromNode node parentUid c in
  doGetFolders (world c) parentUid = (w1, r1) →
  (answer name parentUid r1).2 = None →
  (answer name parentUid r1).1.1 ≤ 0 →
  doPostFolder w1 name parentUid = (w2, r2) →
  (∀ statusCode body decoded w3 body' l e,
     r2 = Http statusCode body decoded →
     statusCode = 409 ∨ statusCode = 412 →
     doGetFolders w2 parentUid = (w3, Http 200 body' (inr l)) →
     List.find (matches name parentUid) l = Some e →
     entryID e ≠ 0 →
     let adopted :=
       set_folders
         (sent (sent (sent c w1 (CallGet parentUid r1)) w2 (CallPost name parentUid r2))
               w3 (CallGet parentUid (Http 200 body' (inr l))))
         (<[path := entryID e]> (folders c)) in
     let below :=
       walkChildren (fun child => CreateFolderTreeFromNode child (entryUID e))
                    children adopted in
     run = (below.1.1, Sync.Node name path below.1.2 (entryUID e) (entryID e), below.2)
     ∧ Sync.treeID run.1.2 = entryID e
     ∧ Sync.treeUID run.1.2 = entryUID e
     ∧ folders adopted !! path = Some (entryID e)
     ∧ (path ∉ map Sync.treeFullPath (List.flat_map nodesOf children) →
        folders run.1.1 !! path = Some (entryID e))
     ∧ (children = [] →
        run = (adopted, Sync.Node name path [] (entryUID e) (entryID e), None)))
  ∧ (∀ err, r2 = TransportError err →
       run = (sent (sent c w1 (CallGet parentUid r1)) w2 (CallPost name parentUid r2),
              node, Some err))
  ∧ (∀ statusCode body decoded,
       r2 = Http statusCode body decoded →
       300 ≤ statusCode → statusCode ≠ 409 → statusCode ≠ 412 →
       run = (sent (sent c w1 (CallGet parentUid r1)) w2 (CallPost name parentUid r2),
              node,
              Some ("failed to create folder " +:+ name +:+ ": " +:+ body)))
  ∧ (∀ statusCode body err,
       r2 = Http statusCode body (inl err) → statusCode < 300 →
       run = (sent (sent c w1 (CallGet parentUid r1)) w2 (CallPost name parentUid r2),
              node, Some err)).
Proof.
  intros node run E1 A1e A1i E2.
  destruct (answer name parentUid r1) as [[i0 u0] e0] eqn:A1. simpl in A1e, A1i.
  subst e0.
  pose proof (ensureFolder_create c name path parentUid w1 r1 i0 u0 E1 A1 A1i) as Hens.
  rewrite E2 in Hens. simpl in Hens.
  split; [|split; [|split]].
  - intros statusCode body decoded w3 body' l e -> Hconf E3 Hfind Hid adopted below.
    assert (A3 : answer name parentUid (Http 200 body' (inr l))
                 = (entryID e, entryUID e, None)).
    { simpl. by rewrite findFolder_find, Hfind. }
    assert ((statusCode >=? 300)%Z = true) as H300 by lia.
    assert ((statusCode =? 409)%Z || (statusCode =? 412)%Z = true) as Hc.
    { apply orb_true_iff. destruct Hconf; [left|right]; lia. }
    rewrite H300, Hc, getFolderByTitle_unfold in Hens. unfold query in Hens.
    simpl in Hens. rewrite E3 in Hens. simpl in Hens.
    rewrite findFolder_find, Hfind in Hens.
    assert ((entryID e =? 0)%Z = false) as Hz by lia. rewrite Hz in Hens.
    assert (Hrun : run = (below.1.1, Sync.Node name path below.1.2 (entryUID e) (entryID e),
                          below.2)).
    { subst run node. rewrite CreateFolderTreeFromNode_unfold, Hens.
      subst below adopted. simpl.
      by destruct (walkChildren _ children _) as [[? ?] ?]. }
    split; [exact Hrun|]. rewrite Hrun. simpl.
    split; [done|]. split; [done|].
    assert (Hadopted : folders adopted !! path = Some (entryID e))
      by (subst adopted; simpl; apply lookup_insert_eq).
    split; [exact Hadopted|]. split; [|intros ->; by subst below].
    intros Hfresh. rewrite <- Hadopted. subst below.
    apply (walkChildren_other
             (fun child => CreateFolderTreeFromNode child (entryUID e)) children path).
    apply Forall_forall. intros child Hin c'.
    apply CreateFolderTreeFromNode_other. intros Hin'. apply Hfresh.
    by eapply fullPath_below.
  - intros err ->. subst run node.
    by rewrite CreateFolderTreeFromNode_unfold, Hens.
  - intros statusCode body decoded -> H300 H409 H412.
    assert ((statusCode >=? 300)%Z = true) as H300' by lia.
    assert ((statusCode =? 409)%Z || (statusCode =? 412)%Z = false) as Hc.
    { apply orb_false_iff. split; lia. }
    rewrite H300', Hc in Hens.
    subst run node. by rewrite CreateFolderTreeFromNode_unfold, Hens.
  - intros statusCode body err -> H300.
    assert ((statusCode >=? 300)%Z = false) as H300' by lia.
    rewrite H300' in Hens.
    subst run node. by rewrite CreateFolderTreeFromNode_unfold, Hens.
Qed.

Lemma ensureFolder_cache c name path parentUid :
  let r := ensureFolder c name path parentUid in
  ∃ new, calls r.1 = calls c ++ new
    ∧ match r.2 with
      | inl _ => folders r.1 = folders c
      | inr (id, uid) =>
          folders r.1 = <[path := id]> (folders c)
          ∧ resolved_in new name parentUid id uid
      end.
Proof.
  intros r. subst r.
  destruct (ensureFolder_outcome c name path parentUid).
  - exists [CallGet parentUid r1]. done.
  - exists [CallGet parentUid r1]. split; [done|]. split; [done|].
    exists (CallGet parentUid r1). split; [by left|]. left.
    exists r1. split; [done|]. split; [done|]. lia.
  - exists [CallGet parentUid r1; CallPost name parentUid r2]. simpl.
    by rewrite <- app_assoc.
  - eexists [CallGet parentUid r1; CallPost name parentUid _]. simpl.
    rewrite <- app_assoc. split; [done|]. split; [done|].
    eexists. split; [right; left|]. right. by eexists _, _.
  - eexists [CallGet parentUid r1; CallPost name parentUid _; CallGet parentUid r3].
    simpl. by rewrite <- !app_assoc.
  - eexists [CallGet parentUid r1; CallPost name parentUid _; CallGet parentUid r3].
    simpl. rewrite <- !app_assoc. split; [done|]. split; [done|].
    exists (CallGet parentUid r3). split; [right; right; left|]. left.
    exists r3. done.
Qed.

Lemma cache_justified_refl c steps : cache_justified c c [] steps.
Proof. intros path id H. by left. Qed.

Lemma cache_justified_trans c1 c2 c3 new1 new2 steps1 steps2 :
  cache_justified c1 c2 new1 steps1 →
  cache_justified c2 c3 new2 steps2 →
  cache_justified c1 c3 (new1 ++ new2) (steps1 ++ steps2).
Proof.
  intros H12 H23 path id H3.
  destruct (H23 path id H3) as [H2|(name & P & uid & Hin & Hres)].
  - destruct (H12 path id H2) as [H1|(name & P & uid & Hin & Hres)]; [by left|].
    right. exists name, P, uid. split; [apply elem_of_app; by left|].
    eapply resolved_in_mono; [|exact Hres]. intros k Hk. apply elem_of_app. by left.
  - right. exists name, P, uid. split; [apply elem_of_app; by right|].
    eapply resolved_in_mono; [|exact Hres]. intros k Hk. apply elem_of_app. by right.
Qed.

Lemma ensureFolder_justified c name path parentUid :
  let r := ensureFolder c name path parentUid in
  ∃ new, calls r.1 = calls c ++ new ∧ cache_justified c r.1 new [(path, name)].
Proof.
  intros r. destruct (ensureFolder_cache c name path parentUid) as (new & Hc & Hf).
  fold r in Hc, Hf. exists new. split; [done|]. intros p id Hp.
  destruct r.2 as [e|[i u]].
  - left. by rewrite <- Hf.
  - destruct Hf as [Hf Hres]. rewrite Hf in Hp.
    destruct (decide (path = p)) as [->|Hne].
    + rewrite lookup_insert_eq in Hp. inversion Hp; subst.
      right. exists name, parentUid, u. split; [by left|done].
    + rewrite lookup_insert_ne in Hp by done. by left.
Qed.

Lemma walkChildren_justified (visit : Sync.Tree → Client → Client * Sync.Tree * option string)
    (children : list Sync.Tree) :
  Forall (fun child => ∀ c, ∃ new,
            calls (visit child c).1.1 = calls c ++ new
            ∧ cache_justified c (visit child c).1.1 new (stepsOf child)) children →
  ∀ c, ∃ new,
    calls (walkChildren visit children c).1.1 = calls c ++ new
    ∧ cache_justified c (walkChildren visit children c).1.1 new
        (List.flat_map stepsOf children).
Proof.
  induction 1 as [|child children Hchild _ IH]; intros c; simpl.
  - exists []. split; [by rewrite app_nil_r|apply cache_justified_refl].
  - destruct (Hchild c) as (new1 & Hc1 & Hj1).
    destruct (visit child c) as [[c1 child'] [e|]]; simpl in *.
    + exists new1. split; [done|]. intros path id Hp.
      destruct (Hj1 path id Hp) as [?|(name & P & uid & Hin & Hres)]; [by left|].
      right. exists name, P, uid. split; [|done]. apply elem_of_app. by left.
    + destruct (IH c1) as (new2 & Hc2 & Hj2).
      destruct (walkChildren visit children c1) as [[c2 rest'] err]; simpl in *.
      exists (new1 ++ new2). split; [by rewrite Hc2, Hc1, app_assoc|].
      eapply cache_justified_trans; eauto.
Qed.

Lemma flat_map_stepsOf children :
  List.flat_map stepsOf children
  = map (fun n => (Sync.treeFullPath n, Sync.treeName n)) (List.flat_map nodesOf children).
Proof.
  induction children as [|child children IH]; simpl; [done|].
  by rewrite map_app, IH.
Qed.

Lemma CreateFolderTreeFromNode_justified node : ∀ parentUid c,
  ∃ new,
    calls (CreateFolderTreeFromNode node parentUid c).1.1 = calls c ++ new
    ∧ cache_justified c (CreateFolderTreeFromNode node parentUid c).1.1 new (stepsOf node).
Proof.
  induction node as [name fullPath children uid id IH] using Tree_nested_ind.
  intros parentUid c. rewrite CreateFolderTreeFromNode_unfold.
  destruct (ensureFolder_justified c name fullPath parentUid) as (new1 & Hc1 & Hj1).
  destruct (ensureFolder c name fullPath parentUid) as [c1 [e|[newID currentUID]]];
    simpl in Hc1, Hj1.
  - exists new1. split; [done|]. intros path i Hp.
    destruct (Hj1 path i Hp) as [?|(n & P & u & Hin & Hres)]; [by left|].
    right. exists n, P, u. split; [|done].
    apply list_elem_of_singleton in Hin. inversion Hin; subst. by left.
  - assert (Hw := walkChildren_justified
                    (fun child => CreateFolderTreeFromNode child currentUID) children).
    destruct (Hw (Forall_impl _ _ _ IH (fun child H => H currentUID)) c1)
      as (new2 & Hc2 & Hj2).
    destruct (walkChildren _ children c1) as [[c2 children'] err]; simpl in *.
    exists (new1 ++ new2). split; [by rewrite Hc2, Hc1, app_assoc|].
    unfold stepsOf. simpl. rewrite <- flat_map_stepsOf.
    change ((fullPath, name) :: List.flat_map stepsOf children)
      with ([(fullPath, name)] ++ List.flat_map stepsOf children).
    eapply cache_justified_trans; eauto.
Qed.

Lemma createFolderRecursive_loop_justified parts : ∀ currentPath folderID currentUID c,
  let r := createFolderRecursive_loop parts currentPath folderID currentUID c in
  ∃ new, calls r.1 = calls c ++ new
    ∧ cache_justified c r.1 new (pathSteps currentPath parts).
Proof.
  induction parts as [|name rest IH]; intros currentPath folderID currentUID c; simpl.
  - exists []. split; [by rewrite app_nil_r|apply cache_justified_refl].
  - set (cp := if bool_decide (currentPath = "") then name
               else currentPath +:+ "/" +:+ name).
    destruct (ensureFolder_justified c name cp currentUID) as (new1 & Hc1 & Hj1).
    destruct (ensureFolder c name cp currentUID) as [c1 [e|[newID newUID]]];
      simpl in Hc1, Hj1.
    + exists new1. split; [done|]. intros path i Hp.
      destruct (Hj1 path i Hp) as [?|(n & P & u & Hin & Hres)]; [by left|].
      right. exists n, P, u. split; [|done].
      apply list_elem_of_singleton in Hin. inversion Hin; subst. by left.
    + destruct (IH cp newID newUID c1) as (new2 & Hc2 & Hj2). simpl in Hc2, Hj2.
      exists (new1 ++ new2). split; [by rewrite Hc2, Hc1, app_assoc|].
      change ((cp, name) :: pathSteps cp rest) with ([(cp, name)] ++ pathSteps cp rest).
      eapply cache_justified_trans; eauto.
Qed.

Lemma CreateFolderTree_justified c folderPath :
  let r := CreateFolderTree c folderPath in
  ∃ new, calls r.1 = calls c ++ new
    ∧ cache_justified c r.1 new (pathSteps "" (splitFolderPath folderPath)).
Proof.
  unfold CreateFolderTree. destruct (folders c !! folderPath) as [id|].
  { exists []. split; [by rewrite app_nil_r|apply cache_justified_refl]. }
  unfold createFolderRecursive.
  destruct (length (splitFolderPath folderPath) =? 0)%nat.
  { exists []. split; [by rewrite app_nil_r|apply cache_justified_refl]. }
  apply createFolderRecursive_loop_justified.
Qed.

Lemma justified_step c c' new steps :
  calls c' = calls c ++ new → cache_justified c c' new steps →
  justified c → justified c'.
Proof.
  intros Hc Hj Hold path id Hp.
  destruct (Hj path id Hp) as [H|(name & P & uid & _ & Hres)].
  - destruct (Hold path id H) as (name & P & uid & Hres).
    exists name, P, uid. eapply resolved_in_mono; [|exact Hres].
    intros k Hk. rewrite Hc. apply elem_of_app. by left.
  - exists name, P, uid. eapply resolved_in_mono; [|exact Hres].
    intros k Hk. rewrite Hc. apply elem_of_app. by right.
Qed.

(** C5. The cache is written only by a successful find-or-create.  One
    reconciliation step ([ensureFolder], run on a node or on a path
    segment) that fails, at the query, at the creation or at the query
    after a conflict, leaves the cache as it was; one that succeeds writes
    the identifier it returns under the path, and that identifier was found
    by a query or returned by a creation sent during the step.  Hence after
    a walk over a node, or a run of [CreateFolderTree], an entry that was
    not in the cache before belongs to a node (a segment) of the run and
    holds an identifier found or created during the run; and in every
    reachable state of the client every cached identifier was found or
    created by a call the client has sent. *)
Theorem folder_cache_invariant :
  (∀ c name path parentUid,
     let r := ensureFolder c name path parentUid in
     ∃ new, calls r.1 = calls c ++ new
       ∧ match r.2 with
         | inl _ => folders r.1 = folders c
         | inr (id, uid) =>
             folders r.1 = <[path := id]> (folders c)
             ∧ resolved_in new name parentUid id uid
         end)
  ∧ (∀ node parentUid c,
       let r := CreateFolderTreeFromNode node parentUid c in
       ∃ new, calls r.1.1 = calls c ++ new
         ∧ cache_justified c r.1.1 new (stepsOf node))
  ∧ (∀ c folderPath,
       let r := CreateFolderTree c folderPath in
       ∃ new, calls r.1 = calls c ++ new
         ∧ cache_justified c r.1 new (pathSteps "" (splitFolderPath folderPath)))
  ∧ (∀ c, reachable c → justified c).
Proof.
  split; [exact ensureFolder_cache|].
  split; [intros node parentUid c; apply CreateFolderTreeFromNode_justified|].
  split; [exact CreateFolderTree_justified|].
  intros c Hreach. induction Hreach as [| c node P _ IH | c path _ IH | c w _ IH].
  - intros path id Hp. simpl in Hp. by rewrite lookup_empty in Hp.
  - destruct (CreateFolderTreeFromNode_justified node P c) as (new & Hc & Hj).
    eapply justified_step; eauto.
  - destruct (CreateFolderTree_justified c path) as (new & Hc & Hj).
    eapply justified_step; eauto.
  - exact IH.
Qed.

(** *** Running the walk twice *)

Lemma resolvedTree_unfold w name fullPath children uid id parentUid :
  resolvedTree w (Sync.Node name fullPath children uid id) parentUid
  ↔ known w name parentUid id uid ∧ Forall (fun child => resolvedTree w child uid) children.
Proof.
  simpl. apply and_iff_compat_l.
  induction children as [|child rest IH]; [by split; [constructor|]|].
  rewrite Forall_cons. by rewrite IH.
Qed.

Lemma extends_refl w : extends w w.
Proof. by intros ? ? ? ?. Qed.

Lemma extends_trans w1 w2 w3 : extends w1 w2 → extends w2 w3 → extends w1 w3.
Proof. intros H12 H23 t P id uid H. by apply H23, H12. Qed.

Lemma resolvedTree_extends w w' t : ∀ parentUid,
  extends w w' → resolvedTree w t parentUid → resolvedTree w' t parentUid.
Proof.
  induction t as [name fullPath children uid id IH] using Tree_nested_ind.
  intros parentUid Hext. rewrite !resolvedTree_unfold. intros [Hk Hall].
  split; [by apply Hext|].
  rewrite Forall_forall in *. intros child Hin. apply IH; [done|done|by apply Hall].
Qed.

Lemma applyWrites_app m ws1 ws2 :
  applyWrites m (ws1 ++ ws2) = applyWrites (applyWrites m ws1) ws2.
Proof. unfold applyWrites. apply fold_left_app. Qed.

Lemma applyWrites_lookup ws : ∀ m k,
  applyWrites m ws !! k =
  match List.find (fun w => bool_decide (w.1 = k)) (rev ws) with
  | Some w => Some w.2
  | None => m !! k
  end.
Proof.
  induction ws as [|[p i] ws IH] using rev_ind; intros m k; [done|].
  rewrite applyWrites_app, rev_app_distr. simpl.
  case_bool_decide as Hk.
  - subst k. apply lookup_insert_eq.
  - rewrite lookup_insert_ne by done. apply IH.
Qed.

Lemma applyWrites_idem m ws : applyWrites (applyWrites m ws) ws = applyWrites m ws.
Proof.
  apply map_eq. intros k. rewrite !applyWrites_lookup.
  by destruct (List.find _ (rev ws)).
Qed.

Lemma walkChildren_skeleton (uid : string) (children : list Sync.Tree) :
  Forall (fun child => ∀ child' parentUid c,
            skeleton child = skeleton child' →
            let r := CreateFolderTreeFromNode child parentUid c in
            let r' := CreateFolderTreeFromNode child' parentUid c in
            r.1.1 = r'.1.1 ∧ r.2 = r'.2 ∧ skeleton r.1.2 = skeleton child
            ∧ (r.2 = None → r.1.2 = r'.1.2)) children →
  ∀ children' c,
    map skeleton children = map skeleton children' →
    let r := walkChildren (fun child => CreateFolderTreeFromNode child uid) children c in
    let r' := walkChildren (fun child => CreateFolderTreeFromNode child uid) children' c in
    r.1.1 = r'.1.1 ∧ r.2 = r'.2 ∧ map skeleton r.1.2 = map skeleton children
    ∧ (r.2 = None → r.1.2 = r'.1.2).
Proof.
  induction 1 as [|child children Hchild _ IH]; intros children' c Hsk.
  - destruct children'; [done|discriminate].
  - destruct children' as [|child' rest']; [discriminate|].
    simpl in Hsk. injection Hsk as Hsk1 Hsk2. simpl.
    destruct (Hchild child' uid c Hsk1) as (Hc & He & Hs & Ht).
    destruct (CreateFolderTreeFromNode child uid c) as [[c1 t1] e1].
    destruct (CreateFolderTreeFromNode child' uid c) as [[c1' t1'] e1'].
    simpl in *. subst c1' e1'. destruct e1 as [e|]; simpl.
    + split; [done|]. split; [done|]. split; [by rewrite Hs|done].
    + rewrite <- (Ht eq_refl).
      destruct (IH rest' c1 Hsk2) as (Hc2 & He2 & Hs2 & Ht2).
      destruct (walkChildren _ children c1) as [[c2 l2] e2].
      destruct (walkChildren _ rest' c1) as [[c2' l2'] e2'].
      simpl in *. subst c2' e2'.
      split; [done|]. split; [done|]. split; [by rewrite Hs, Hs2|].
      intros He. by rewrite (Ht2 He).
Qed.

(** A walk reads the names, the paths and the children of the nodes, not
    the identifiers they carry: on two trees that differ in identifiers
    only it sends the same requests and, when it returns nil, leaves the
    same tree. *)
Lemma CreateFolderTreeFromNode_skeleton node : ∀ node' parentUid c,
  skeleton node = skeleton node' →
  let r := CreateFolderTreeFromNode node parentUid c in
  let r' := CreateFolderTreeFromNode node' parentUid c in
  r.1.1 = r'.1.1 ∧ r.2 = r'.2 ∧ skeleton r.1.2 = skeleton node
  ∧ (r.2 = None → r.1.2 = r'.1.2).
Proof.
  induction node as [name fullPath children uid id IH] using Tree_nested_ind.
  intros [name' fullPath' children' uid' id'] parentUid c Hsk.
  simpl in Hsk. injection Hsk as -> -> Hsk.
  rewrite !CreateFolderTreeFromNode_unfold.
  destruct (ensureFolder c name' fullPath' parentUid) as [c1 [e|[newID currentUID]]].
  - simpl. split; [done|]. split; [done|]. split; [by rewrite Hsk|done].
  - destruct (walkChildren_skeleton currentUID children IH children' c1 Hsk)
      as (Hc & He & Hs & Ht).
    destruct (walkChildren _ children c1) as [[c2 l2] e2].
    destruct (walkChildren _ children' c1) as [[c2' l2'] e2'].
    simpl in *. subst c2' e2'.
    split; [done|]. split; [done|]. split; [by rewrite Hs|].
    intros He. by rewrite (Ht He).
Qed.

Section Idempotence.
Variable Inv : World → Prop.
Hypothesis HW : WellBehaved Inv.

Lemma ensureFolder_known c name path parentUid c1 id uid :
  Inv (world c) →
  ensureFolder c name path parentUid = (c1, inr (id, uid)) →
  Inv (world c1) ∧ extends (world c) (world c1)
  ∧ known (world c1) name parentUid id uid
  ∧ folders c1 = <[path := id]> (folders c).
Proof.
  intros Hinv Hens.
  pose proof (ensureFolder_outcome c name path parentUid) as Ho.
  rewrite Hens in Ho. simpl in Ho.
  pose proof (wb_get Inv HW (world c) parentUid Hinv) as Hget.
  inversion Ho as [| w1 r1 i u E1 A1 Hpos
                   | | w1 r1 i0 u0 w2 sc body i u E1 A1 Hle E2 Hsc
                   | | w1 r1 i0 u0 w2 sc body dec w3 r3 i u E1 A1 Hle E2 Hconf E3 A3 Hnz];
    subst; simpl.
  - rewrite E1 in Hget. simpl in Hget. subst w1.
    split; [done|]. split; [apply extends_refl|]. split; [|done].
    split; [|done]. unfold query. by rewrite E1.
  - rewrite E1 in Hget. simpl in Hget. subst w1.
    assert (Hq : query (world c) name parentUid = (i0, u0, None)).
    { unfold query. by rewrite E1. }
    pose proof (wb_post_inv Inv HW (world c) name parentUid Hinv) as Hinv2.
    rewrite E2 in Hinv2. simpl in Hinv2.
    split; [done|]. split.
    { intros t P' i' u' Hk.
      pose proof (wb_post_frame Inv HW (world c) t P' name parentUid i' u' Hinv Hk) as Hf.
      by rewrite E2 in Hf. }
    split; [|done].
    eapply (wb_post_new Inv HW (world c)); eauto; by rewrite Hq.
  - rewrite E1 in Hget. simpl in Hget. subst w1.
    pose proof (wb_post_inv Inv HW (world c) name parentUid Hinv) as Hinv2.
    rewrite E2 in Hinv2. simpl in Hinv2.
    pose proof (wb_get Inv HW w2 parentUid Hinv2) as Hget2.
    rewrite E3 in Hget2. simpl in Hget2. subst w3.
    assert (Hq : query w2 name parentUid = (id, uid, None)).
    { unfold query. by rewrite E3. }
    split; [done|]. split.
    { intros t P' i' u' Hk.
      pose proof (wb_post_frame Inv HW (world c) t P' name parentUid i' u' Hinv Hk) as Hf.
      by rewrite E2 in Hf. }
    split; [|done]. split; [done|].
    pose proof (wb_ids Inv HW w2 name parentUid id uid Hinv2 Hq). lia.
Qed.

Lemma ensureFolder_found c name path parentUid id uid :
  Inv (world c) → known (world c) name parentUid id uid →
  ensureFolder c name path parentUid =
  (set_folders (sent c (world c) (CallGet parentUid (doGetFolders (world c) parentUid).2))
               (<[path := id]> (folders c)),
   inr (id, uid)).
Proof.
  intros Hinv [Hq Hpos]. unfold ensureFolder.
  rewrite getFolderByTitle_unfold, Hq, (wb_get Inv HW _ _ Hinv).
  assert ((id >? 0)%Z = true) as -> by lia. done.
Qed.

Lemma first_run_children (uid : string) (children : list Sync.Tree) :
  Forall (fun child => ∀ parentUid c c1 child1,
            Inv (world c) →
            CreateFolderTreeFromNode child parentUid c = (c1, child1, None) →
            Inv (world c1) ∧ extends (world c) (world c1)
            ∧ resolvedTree (world c1) child1 parentUid
            ∧ folders c1 = applyWrites (folders c) (writesOf child1)
            ∧ length (nodesOf child1) = length (nodesOf child)) children →
  ∀ c c1 children1,
    Inv (world c) →
    walkChildren (fun child => CreateFolderTreeFromNode child uid) children c
    = (c1, children1, None) →
    Inv (world c1) ∧ extends (world c) (world c1)
    ∧ Forall (fun child => resolvedTree (world c1) child uid) children1
    ∧ folders c1 = applyWrites (folders c) (List.flat_map writesOf children1)
    ∧ length (List.flat_map nodesOf children1) = length (List.flat_map nodesOf children).
Proof.
  induction 1 as [|child children Hchild _ IH]; intros c c1 children1 Hinv Hwalk;
    simpl in Hwalk.
  - inversion Hwalk; subst. split; [done|]. split; [apply extends_refl|]. done.
  - destruct (CreateFolderTreeFromNode child uid c) as [[c' child'] [e|]] eqn:Ec;
      [discriminate|].
    destruct (Hchild uid c c' child' Hinv Ec) as (Hinv' & Hext' & Hres' & Hf' & Hlen').
    destruct (walkChildren _ children c') as [[c'' rest'] err] eqn:Ew.
    inversion Hwalk; subst.
    destruct (IH c' c1 rest' Hinv' Ew) as (Hinv1 & Hext1 & Hres1 & Hf1 & Hlen1).
    split; [done|]. split; [by eapply extends_trans|].
    split; [constructor; [by eapply resolvedTree_extends|done]|].
    split.
    + simpl. by rewrite applyWrites_app, <- Hf', <- Hf1.
    + simpl. rewrite !length_app. by rewrite Hlen', Hlen1.
Qed.

Lemma flat_map_writesOf children :
  List.flat_map writesOf children
  = map (fun n => (Sync.treeFullPath n, Sync.treeID n)) (List.flat_map nodesOf children).
Proof.
  induction children as [|child children IH]; simpl; [done|].
  by rewrite map_app, IH.
Qed.

Lemma first_run node : ∀ parentUid c c1 node1,
  Inv (world c) →
  CreateFolderTreeFromNode node parentUid c = (c1, node1, None) →
  Inv (world c1) ∧ extends (world c) (world c1)
  ∧ resolvedTree (world c1) node1 parentUid
  ∧ folders c1 = applyWrites (folders c) (writesOf node1)
  ∧ length (nodesOf node1) = length (nodesOf node).
Proof.
  induction node as [name fullPath children uid id IH] using Tree_nested_ind.
  intros parentUid c c1 node1 Hinv Hrun.
  rewrite CreateFolderTreeFromNode_unfold in Hrun.
  destruct (ensureFolder c name fullPath parentUid) as [c' [e|[newID currentUID]]] eqn:Ee;
    [discriminate|].
  destruct (ensureFolder_known c name fullPath parentUid c' newID currentUID Hinv Ee)
    as (Hinv' & Hext' & Hk' & Hf').
  destruct (walkChildren _ children c') as [[c'' children'] err] eqn:Ew.
  inversion Hrun; subst.
  destruct (first_run_children currentUID children IH c' c1 children' Hinv' Ew)
    as (Hinv1 & Hext1 & Hres1 & Hf1 & Hlen1).
  split; [done|]. split; [by eapply extends_trans|].
  split; [apply resolvedTree_unfold; split; [by apply Hext1|done]|].
  split.
  - unfold writesOf. simpl. rewrite <- flat_map_writesOf.
    change (applyWrites (folders c) ((fullPath, newID) :: List.flat_map writesOf children'))
      with (applyWrites (<[fullPath := newID]> (folders c))
                        (List.flat_map writesOf children')).
    by rewrite <- Hf'.
  - simpl. by rewrite Hlen1.
Qed.

Lemma second_run_children (uid : string) (children : list Sync.Tree) :
  Forall (fun child => ∀ parentUid c,
            Inv (world c) → resolvedTree (world c) child parentUid →
            let r := CreateFolderTreeFromNode child parentUid c in
            r.2 = None ∧ r.1.2 = child ∧ queriesOnly c r.1.1 [child]) children →
  ∀ c, Inv (world c) →
    Forall (fun child => resolvedTree (world c) child uid) children →
    let r := walkChildren (fun child => CreateFolderTreeFromNode child uid) children c in
    r.2 = None ∧ r.1.2 = children ∧ queriesOnly c r.1.1 children.
Proof.
  induction 1 as [|child children Hchild _ IH]; intros c Hinv Hres; simpl.
  - split; [done|]. split; [done|]. split; [done|]. split; [done|].
    exists []. by rewrite app_nil_r.
  - apply Forall_cons in Hres as [Hres1 Hres2].
    destruct (Hchild uid c Hinv Hres1) as (He & Hn & Hw & Hf & gets1 & Hc & Hg & Hl).
    destruct (CreateFolderTreeFromNode child uid c) as [[c' child'] err].
    simpl in *. subst err child'. rewrite app_nil_r in Hf, Hl.
    rewrite <- Hw in Hinv, Hres2.
    destruct (IH c' Hinv Hres2) as (He2 & Hn2 & Hw2 & Hf2 & gets2 & Hc2 & Hg2 & Hl2).
    destruct (walkChildren _ children c') as [[c'' rest'] err].
    simpl in *. subst err rest'.
    split; [done|]. split; [done|].
    split; [congruence|].
    split; [simpl; by rewrite applyWrites_app, <- Hf, <- Hf2|].
    exists (gets1 ++ gets2). split; [by rewrite Hc2, Hc, app_assoc|].
    split; [by apply Forall_app|]. simpl. rewrite !length_app. lia.
Qed.

Lemma second_run node : ∀ parentUid c,
  Inv (world c) → resolvedTree (world c) node parentUid →
  let r := CreateFolderTreeFromNode node parentUid c in
  r.2 = None ∧ r.1.2 = node ∧ queriesOnly c r.1.1 [node].
Proof.
  induction node as [name fullPath children uid id IH] using Tree_nested_ind.
  intros parentUid c Hinv Hres. apply resolvedTree_unfold in Hres as [Hk Hall].
  rewrite CreateFolderTreeFromNode_unfold.
  rewrite (ensureFolder_found c name fullPath parentUid id uid Hinv Hk).
  set (c' := set_folders _ _).
  destruct (second_run_children uid children IH c' Hinv Hall)
    as (He & Hn & Hw & Hf & gets & Hc & Hg & Hl).
  destruct (walkChildren _ children c') as [[c'' children'] err].
  simpl in *. subst err children'.
  split; [done|]. split; [done|].
  split; [done|].
  split.
  { change (List.flat_map writesOf [Sync.Node name fullPath children uid id])
      with (writesOf (Sync.Node name fullPath children uid id) ++ []).
    rewrite app_nil_r. unfold writesOf at 1. simpl.
    rewrite <- flat_map_writesOf. exact Hf. }
  eexists (_ :: gets). split; [rewrite Hc, <- app_assoc; reflexivity|].
  split; [by constructor|]. simpl. rewrite app_nil_r. by rewrite Hl.
Qed.


End Idempotence.

End Reconciler.

(** ** Two servers

    [scripted] answers from two lists of responses, one for the queries and
    one for the creations, whatever is asked; it stands for a server whose
    state other parties change.  [ideal] keeps the folders it was asked to
    create and refuses a second folder of the same title under the same
    parent. *)

Section Servers.
Import Grafana.

Lemma find_filter_parent title parentUid l :
  List.find (matches title parentUid)
            (List.filter (fun e => bool_decide (entryParentUID e = parentUid)) l)
  = List.find (matches title parentUid) l.
Proof.
  induction l as [|e l IH]; simpl; [done|].
  unfold matches at 2.
  case_bool_decide as Hp; simpl.
  - unfold matches at 1. rewrite (bool_decide_eq_true_2 _ Hp).
    by destruct (bool_decide (entryTitle e = title)).
  - rewrite andb_false_r. exact IH.
Qed.

Lemma ideal_query (w : server) title parentUid :
  query (R := ideal) w title parentUid =
  match List.find (matches title parentUid) (stored w) with
  | Some e => (entryID e, entryUID e, None)
  | None => (0, "", None)
  end.
Proof.
  unfold query. simpl. by rewrite findFolder_find, find_filter_parent.
Qed.

Lemma find_app_Some {A} (f : A → bool) l1 l2 x :
  List.find f l1 = Some x → List.find f (l1 ++ l2) = Some x.
Proof.
  induction l1 as [|y l1 IH]; simpl; [done|]. by destruct (f y).
Qed.

Lemma find_app_None {A} (f : A → bool) l1 l2 :
  List.find f l1 = None → List.find f (l1 ++ l2) = List.find f l2.
Proof.
  induction l1 as [|y l1 IH]; simpl; [done|]. by destruct (f y).
Qed.

Lemma find_existsb_false {A} (f : A → bool) l :
  existsb f l = false → List.find f l = None.
Proof.
  induction l as [|y l IH]; simpl; [done|]. by destruct (f y).
Qed.

Lemma ideal_well_behaved : WellBehaved (R := ideal) serverInv.
Proof.
  constructor.
  - done.
  - intros w title parentUid [Hn Hall]. simpl. unfold serverPost.
    destruct (existsb _ _); [by split|]. simpl. split; [simpl; lia|]. simpl.
    apply Forall_app. split; [done|]. by repeat constructor.
  - intros w title parentUid title' parentUid' id uid _ [Hq Hpos].
    unfold known. rewrite ideal_query in Hq.
    change (doPostFolder (Remote := ideal) w title' parentUid')
      with (serverPost w title' parentUid').
    unfold serverPost.
    destruct (existsb _ _); simpl; rewrite ideal_query; [done|]. simpl.
    destruct (List.find (matches title parentUid) (stored w)) as [e|] eqn:Hf.
    + by rewrite (find_app_Some _ _ _ _ Hf).
    + inversion Hq; subst. lia.
  - intros w title parentUid w' statusCode body id uid [Hn _] _ _ Hpost _.
    simpl in Hpost. unfold serverPost in Hpost.
    destruct (existsb _ _) eqn:Hex; [discriminate|].
    inversion Hpost; subst. unfold known. rewrite ideal_query. simpl.
    rewrite (find_app_None _ _ _ (find_existsb_false _ _ Hex)). simpl.
    unfold matches. simpl. rewrite !bool_decide_eq_true_2 by done. done.
  - intros w title parentUid id uid [_ Hall] Hq. rewrite ideal_query in Hq.
    destruct (List.find (matches title parentUid) (stored w)) as [e|] eqn:Hf.
    + inversion Hq; subst. apply find_some in Hf as [Hin _].
      rewrite Forall_forall in Hall. apply list_elem_of_In in Hin.
      specialize (Hall _ Hin). lia.
    + inversion Hq. lia.
Qed.

(** *** The statements above at concrete inputs *)


Lemma conflict_convergence_witness :
  CreateFolderTreeFromNode (R := scripted) (Sync.Node "team" "team" [] "" 0) "" racedClient
  = (mkClient (R := scripted) "http://grafana:3000" "" "admin" "admin"
       {["team" := 7]} ([], [])
       [CallGet "" (Http 200 "[]" (inr []));
        CallPost "team" "" (Http 409 "folder already exists" (inl ""));
        CallGet "" (Http 200 "[...]" (inr [mkFolderEntry 7 "u7" "team" ""]))],
     Sync.Node "team" "team" [] "u7" 7, None).
Proof.
  destruct (conflict_convergence (R := scripted) racedClient "team" "team" [] "" 0 ""
              ([Http 200 "[...]" (inr [mkFolderEntry 7 "u7" "team" ""])],
               [Http 409 "folder already exists" (inl "")])
              (Http 200 "[]" (inr []))
              ([Http 200 "[...]" (inr [mkFolderEntry 7 "u7" "team" ""])], [])
              (Http 409 "folder already exists" (inl "")))
    as [Hconf _]; [reflexivity|reflexivity|simpl; lia|reflexivity|].
  destruct (Hconf 409 "folder already exists" (inl "") ([], []) "[...]"
              [mkFolderEntry 7 "u7" "team" ""] (mkFolderEntry 7 "u7" "team" ""))
    as (_ & _ & _ & _ & _ & Hleaf);
    [reflexivity|by left|reflexivity|reflexivity|simpl; lia|].
  rewrite (Hleaf eq_refl). reflexivity.
Defined.


Lemma folder_cache_invariant_witness :
  let c := (CreateFolderTreeFromNode (R := ideal) demoTree "" demoClient).1.1 in
  folders c !! "team/api" = Some 2
  ∧ ∃ name parentUid uid, resolved_in (calls c) name parentUid 2 uid.
Proof.
  intros c. split; [reflexivity|].
  destruct (folder_cache_invariant (R := ideal)) as (_ & _ & _ & Hreach).
  apply (Hreach c) with (path := "team/api"); [|reflexivity].
  apply reach_node, reach_new.
Defined.

End Servers.

(** ** Folder graph builder *)

Section PathStrings.

Lemma anyChar_append p a b :
  Strings.anyChar p (a +:+ b) = Strings.anyChar p a || Strings.anyChar p b.
Proof.
  induction a as [|x a IH]; [done|].
  rewrite append_cons. simpl. rewrite IH. by rewrite orb_assoc.
Qed.

Lemma splitOn_pieces p s : Forall (fun w => Strings.anyChar p w = false) (Strings.splitOn p s).
Proof.
  induction s as [|x s IH]; simpl; [by repeat constructor|].
  destruct (p x) eqn:Hx; [by constructor|].
  destruct (Strings.splitOn p s) as [|w ws]; [by repeat constructor; simpl; rewrite Hx|].
  apply Forall_cons in IH as [Hw Hws]. constructor; [|done].
  simpl. by rewrite Hx, Hw.
Qed.

Lemma splitOn_clean p s :
  Strings.anyChar p s = false → Strings.splitOn p s = [s].
Proof.
  induction s as [|x s IH]; simpl; [done|].
  intros H. apply orb_false_elim in H as [Hx Hs]. rewrite Hx, (IH Hs). done.
Qed.

Lemma splitOn_append p a c b :
  Strings.anyChar p a = false → p c = true →
  Strings.splitOn p (a +:+ String c b) = a :: Strings.splitOn p b.
Proof.
  induction a as [|x a IH]; intros Ha Hc.
  - rewrite append_nil_l. simpl. by rewrite Hc.
  - rewrite append_cons. simpl in *. apply orb_false_elim in Ha as [Hx Ha].
    rewrite Hx, (IH Ha Hc). done.
Qed.

Lemma Join_cons e rest sep :
  rest ≠ [] → Strings.Join (e :: rest) sep = e +:+ sep +:+ Strings.Join rest sep.
Proof. by destruct rest. Qed.

(** Cutting at the slashes what was joined with slashes gives the pieces
    back, when no piece has a slash. *)
Lemma Split_Join parts :
  parts ≠ [] → Forall (fun w => hasSlash w = false) parts →
  Strings.Split (Strings.Join parts "/") "/" = parts.
Proof.
  unfold Strings.Split, hasSlash.
  induction parts as [|e rest IH]; [done|]. intros _ Hall.
  apply Forall_cons in Hall as [He Hrest].
  destruct rest as [|e' rest'].
  - simpl. by apply splitOn_clean.
  - rewrite Join_cons by done.
    change ("/" +:+ Strings.Join (e' :: rest') "/")
      with (String "/"%char (Strings.Join (e' :: rest') "/")).
    rewrite splitOn_append; [|done|done]. by rewrite IH.
Qed.

Lemma Join_snoc parts e sep :
  parts ≠ [] → Strings.Join (parts ++ [e]) sep = Strings.Join parts sep +:+ sep +:+ e.
Proof.
  induction parts as [|x rest IH]; [done|]. intros _.
  destruct rest as [|y rest'].
  - done.
  - change ((x :: y :: rest') ++ [e]) with (x :: ((y :: rest') ++ [e])).
    rewrite (Join_cons x ((y :: rest') ++ [e])) by done.
    rewrite IH by done. rewrite (Join_cons x (y :: rest')) by done.
    by rewrite !append_assoc.
Qed.

Lemma take_S_nth (parts : list string) (i : nat) :
  (i < length parts)%nat → take (S i) parts = take i parts ++ [nth i parts ""].
Proof.
  revert i. induction parts as [|e rest IH]; intros i Hi; simpl in Hi; [lia|].
  destruct i as [|i]; [done|]. simpl. f_equal. apply IH. lia.
Qed.

Lemma prefixKey_S parts i :
  (S i < length parts)%nat →
  prefixKey parts (S i) = prefixKey parts i +:+ "/" +:+ nth (S i) parts "".
Proof.
  intros Hi. unfold prefixKey. rewrite (take_S_nth parts (S i)) by done.
  apply Join_snoc. destruct parts; simpl in *; [lia|done].
Qed.

Lemma prefixKey_last parts i :
  Forall (fun w => hasSlash w = false) parts → (i < length parts)%nat →
  last (Strings.Split (prefixKey parts i) "/") = Some (nth i parts "").
Proof.
  intros Hall Hi. unfold prefixKey. rewrite Split_Join.
  - rewrite take_S_nth by done. by rewrite last_snoc.
  - destruct parts; simpl in *; [lia|done].
  - by apply Forall_take.
Qed.

Lemma prefixKey_0 parts :
  (0 < length parts)%nat → prefixKey parts 0 = nth 0 parts "".
Proof. destruct parts; simpl; [lia|done]. Qed.

Lemma hasSlash_prefixKey parts i :
  Forall (fun w => hasSlash w = false) parts → (i < length parts)%nat →
  hasSlash (prefixKey parts i) = negb (i =? 0)%nat.
Proof.
  intros Hall Hi. destruct i as [|i].
  - rewrite prefixKey_0 by done. simpl.
    rewrite Forall_forall in Hall. apply Hall.
    apply list_elem_of_In, nth_In. lia.
  - rewrite prefixKey_S by done. unfold hasSlash.
    rewrite !anyChar_append. simpl. by rewrite orb_true_r.
Qed.

End PathStrings.

Section GraphInvariant.
Import Sync.

Lemma visit_split parts i st :
  visit parts i st =
  let st1 := ensureNode (prefixKey parts i) (nth i parts "") st in
  match i with
  | O => Some st1
  | S j => link (prefixKey parts j) (prefixKey parts i) st1
  end.
Proof. by destruct i. Qed.

Lemma WF_empty : WF (mkStore [] ∅).
Proof. constructor; simpl; intros; done. Qed.

Lemma ensureNode_spec k nm st :
  WF st → last (Strings.Split k "/") = Some nm →
  let st1 := ensureNode k nm st in
  WF st1
  ∧ hasNode st1 k nm
  ∧ (∀ k' nm', hasNode st1 k' nm' ↔ hasNode st k' nm' ∨ (k' = k ∧ nm' = nm))
  ∧ (∀ k1 k2, hasEdge st1 k1 k2 ↔ hasEdge st k1 k2)
  ∧ (parented st None → parented st1 (Some k))
  ∧ (∀ k' p, graph st !! k' = Some p → graph st1 !! k' = Some p).
Proof.
  intros Hwf Hnm st1. subst st1. unfold ensureNode.
  destruct (graph st !! k) as [p|] eqn:Hk.
  - destruct (wf_key st Hwf k p Hk) as (n & Hn & Hfp).
    assert (Hname : Name n = nm).
    { pose proof (wf_name st Hwf p n Hn) as H. rewrite Hfp, Hnm in H. congruence. }
    assert (Hhas : hasNode st k nm) by (by exists p, n).
    split; [done|]. split; [done|].
    split; [intros k' nm'; split; [by left|]; intros [?|[-> ->]]; done|].
    split; [done|]. split; [|done].
    intros Hpar q m Hq Hs. destruct (Hpar q m Hq Hs) as [?|?]; [done|by right].
  - set (new := mkFolderNode nm k [] "" 0).
    assert (Hold : ∀ p n, heap st !! p = Some n → (heap st ++ [new]) !! p = Some n).
    { intros p n Hp. by apply lookup_app_l_Some. }
    assert (Hnew : (heap st ++ [new]) !! length (heap st) = Some new).
    { rewrite lookup_app_r by lia. by rewrite Nat.sub_diag. }
    assert (Hinv : ∀ p n, (heap st ++ [new]) !! p = Some n →
                   heap st !! p = Some n ∨ (p = length (heap st) ∧ n = new)).
    { intros p n Hp. apply lookup_app_Some in Hp as [?|[Hge Hp]]; [by left|].
      right. apply list_lookup_singleton_Some in Hp as [Hz ->]. split; [lia|done]. }
    assert (Hfresh : ∀ p n, heap st !! p = Some n → FullPath n ≠ k).
    { intros p n Hp Heq. pose proof (wf_indexed st Hwf p n Hp) as H.
      rewrite Heq, Hk in H. done. }
    assert (Hlt : ∀ p n, heap st !! p = Some n → p ≠ length (heap st)).
    { intros p n Hp. apply lookup_lt_Some in Hp. lia. }
    split.
    { constructor; simpl.
      - intros k' p Hp. destruct (decide (k = k')) as [<-|Hne].
        + rewrite lookup_insert_eq in Hp. inversion Hp; subst. by exists new.
        + rewrite lookup_insert_ne in Hp by done.
          destruct (wf_key st Hwf k' p Hp) as (n & Hn & Hfp). exists n. auto.
      - intros p n Hp. destruct (Hinv p n Hp) as [Ho|[-> ->]].
        + rewrite lookup_insert_ne by (symmetry; by eapply Hfresh).
          by apply (wf_indexed st Hwf).
        + simpl. apply lookup_insert_eq.
      - intros p n Hp. destruct (Hinv p n Hp) as [Ho|[-> ->]]; [|done].
        by apply (wf_name st Hwf p).
      - intros p n q Hp Hq. destruct (Hinv p n Hp) as [Ho|[-> ->]].
        + destruct (wf_child st Hwf p n q Ho Hq) as (m & Hm & Hfp). exists m. auto.
        + simpl in Hq. by apply elem_of_nil in Hq.
      - intros p n Hp. destruct (Hinv p n Hp) as [Ho|[-> ->]].
        + by apply (wf_nodup st Hwf p).
        + constructor. }
    split.
    { exists (length (heap st)), new. simpl. by rewrite lookup_insert_eq. }
    split.
    { intros k' nm'. unfold hasNode. simpl. split.
      - intros (p & n & Hg & Hh & Hn). destruct (decide (k = k')) as [<-|Hne].
        + rewrite lookup_insert_eq in Hg. inversion Hg; subst p.
          rewrite Hnew in Hh. inversion Hh; subst n. right. done.
        + rewrite lookup_insert_ne in Hg by done. left.
          destruct (wf_key st Hwf k' p Hg) as (n0 & Hn0 & _).
          rewrite (Hold p n0 Hn0) in Hh. inversion Hh; subst n0. by exists p, n.
      - intros [(p & n & Hg & Hh & Hn)|[-> ->]].
        + exists p, n. split; [|auto].
          rewrite lookup_insert_ne; [done|]. intros <-. by rewrite Hk in Hg.
        + exists (length (heap st)), new. by rewrite lookup_insert_eq. }
    split.
    { intros k1 k2. unfold hasEdge. simpl. split.
      - intros (p & n & q & m & Hg & Hh & Hq & Hm & Hfp).
        destruct (Hinv p n Hh) as [Ho|[-> ->]];
          [|simpl in Hq; by apply elem_of_nil in Hq].
        destruct (wf_child st Hwf p n q Ho Hq) as (m0 & Hm0 & _).
        rewrite (Hold q m0 Hm0) in Hm. inversion Hm; subst m0.
        exists p, n, q, m. split; [|auto].
        destruct (decide (k = k1)) as [<-|Hne]; [|by rewrite lookup_insert_ne in Hg].
        rewrite lookup_insert_eq in Hg. inversion Hg; subst p.
        exfalso. by apply (Hlt _ _ Ho).
      - intros (p & n & q & m & Hg & Hh & Hq & Hm & Hfp).
        exists p, n, q, m. split; [|auto].
        rewrite lookup_insert_ne; [done|]. intros <-. by rewrite Hk in Hg. }
    split.
    { intros Hpar p n Hp Hs. simpl in Hp. destruct (Hinv p n Hp) as [Ho|[-> ->]].
      - destruct (Hpar p n Ho Hs) as [?|(q & m & Hq & Hin)]; [done|].
        right. exists q, m. split; [by apply Hold|done].
      - by left. }
    intros k' p Hg. simpl. rewrite lookup_insert_ne; [done|].
    intros <-. by rewrite Hk in Hg.
Qed.

Lemma existsb_eqb_elem (x : nat) (l : list nat) :
  existsb (Nat.eqb x) l = true ↔ x ∈ l.
Proof.
  rewrite existsb_exists. split.
  - intros (y & Hin & Heq). apply Nat.eqb_eq in Heq. subst y. by apply list_elem_of_In.
  - intros Hin. exists x. split; [by apply list_elem_of_In|apply Nat.eqb_refl].
Qed.

Lemma link_spec kp kc nm st pp cp :
  WF st → graph st !! kp = Some pp → graph st !! kc = Some cp →
  kc = kp +:+ "/" +:+ nm → last (Strings.Split kc "/") = Some nm →
  ∃ st2, link kp kc st = Some st2 ∧ WF st2
    ∧ (∀ k' nm', hasNode st2 k' nm' ↔ hasNode st k' nm')
    ∧ (∀ k1 k2, hasEdge st2 k1 k2 ↔ hasEdge st k1 k2 ∨ (k1 = kp ∧ k2 = kc))
    ∧ (parented st (Some kc) → parented st2 None)
    ∧ graph st2 = graph st.
Proof.
  intros Hwf Hpp Hcp Hkc Hnm.
  destruct (wf_key st Hwf kp pp Hpp) as (parent & Hparent & Hpfp).
  destruct (wf_key st Hwf kc cp Hcp) as (child & Hchild & Hcfp).
  assert (Hcname : Name child = nm).
  { pose proof (wf_name st Hwf cp child Hchild) as H. rewrite Hcfp, Hnm in H. congruence. }
  unfold link. rewrite Hpp, Hparent, Hcp.
  destruct (existsb (Nat.eqb cp) (Children parent)) eqn:Hex.
  - apply existsb_eqb_elem in Hex.
    exists st. split; [done|]. split; [done|]. split; [done|].
    split.
    { intros k1 k2. split; [by left|]. intros [?|[-> ->]]; [done|].
      by exists pp, parent, cp, child. }
    split; [|done].
    intros Hpar p n Hp Hs. destruct (Hpar p n Hp Hs) as [Heq|?]; [|by right].
    right. inversion Heq as [Heq']. exists pp, parent. split; [done|].
    pose proof (wf_indexed st Hwf p n Hp) as Hi. rewrite Heq', Hcp in Hi.
    by inversion Hi; subst.
  - assert (Hnotin : cp ∉ Children parent).
    { intros Hin. apply existsb_eqb_elem in Hin. congruence. }
    set (parent' := set_Children parent (Children parent ++ [cp])).
    set (heap' := <[pp := parent']> (heap st)).
    assert (Hlen : (pp < length (heap st))%nat) by (by eapply lookup_lt_Some).
    assert (Hfwd : ∀ p n, heap st !! p = Some n →
              ∃ n', heap' !! p = Some n' ∧ Name n' = Name n ∧ FullPath n' = FullPath n
                    ∧ (∀ q, q ∈ Children n' ↔ q ∈ Children n ∨ (p = pp ∧ q = cp))).
    { intros p n Hp. destruct (decide (p = pp)) as [->|Hne].
      - exists parent'. subst heap'. rewrite list_lookup_insert_eq by done.
        rewrite Hparent in Hp. inversion Hp; subst n. split; [done|].
        split; [done|]. split; [done|]. intros q. simpl.
        rewrite elem_of_app, list_elem_of_singleton. naive_solver.
      - exists n. subst heap'. rewrite list_lookup_insert_ne by done.
        split; [done|]. split; [done|]. split; [done|]. naive_solver. }
    assert (Hbwd : ∀ p n', heap' !! p = Some n' →
              ∃ n, heap st !! p = Some n ∧ Name n' = Name n ∧ FullPath n' = FullPath n
                   ∧ (∀ q, q ∈ Children n' ↔ q ∈ Children n ∨ (p = pp ∧ q = cp))
                   ∧ (NoDup (Children n) → NoDup (Children n'))).
    { intros p n' Hp. subst heap'.
      apply list_lookup_insert_Some in Hp as [(-> & <- & _)|[Hne Hp]].
      - exists parent. split; [done|]. split; [done|]. split; [done|]. split.
        + intros q. simpl. rewrite elem_of_app, list_elem_of_singleton. naive_solver.
        + intros Hnd. simpl. apply NoDup_app. split; [done|].
          split; [|apply NoDup_singleton].
          intros x Hx Hx'. apply list_elem_of_singleton in Hx'. by subst x.
      - exists n'. split; [done|]. split; [done|]. split; [done|].
        split; [naive_solver|done]. }
    exists (mkStore heap' (graph st)). split; [done|].
    split.
    { constructor; simpl.
      - intros k p Hg. destruct (wf_key st Hwf k p Hg) as (n & Hn & Hfp).
        destruct (Hfwd p n Hn) as (n' & Hn' & _ & Hfp' & _).
        exists n'. split; [done|congruence].
      - intros p n' Hp. destruct (Hbwd p n' Hp) as (n & Hn & _ & Hfp & _).
        rewrite Hfp. by apply (wf_indexed st Hwf).
      - intros p n' Hp. destruct (Hbwd p n' Hp) as (n & Hn & Hname & Hfp & _).
        rewrite Hfp, Hname. by apply (wf_name st Hwf p).
      - intros p n' q Hp Hq.
        destruct (Hbwd p n' Hp) as (n & Hn & Hname & Hfp & Hch & _).
        destruct (proj1 (Hch q) Hq) as [Hq'|[Hp1 Hq1]].
        + destruct (wf_child st Hwf p n q Hn Hq') as (m & Hm & Hmfp).
          destruct (Hfwd q m Hm) as (m' & Hm' & Hmn & Hmf & _).
          exists m'. split; [done|]. congruence.
        + subst p q.
          destruct (Hfwd cp child Hchild) as (m' & Hm' & Hmn & Hmf & _).
          exists m'. split; [done|].
          rewrite Hparent in Hn. inversion Hn; subst n.
          rewrite Hmf, Hfp, Hmn, Hcfp, Hpfp, Hcname. done.
      - intros p n' Hp. destruct (Hbwd p n' Hp) as (n & Hn & _ & _ & _ & Hnd).
        apply Hnd. by apply (wf_nodup st Hwf p). }
    split.
    { intros k' nm'. unfold hasNode. simpl. split.
      - intros (p & n' & Hg & Hh & Hn).
        destruct (Hbwd p n' Hh) as (n & Hn0 & Hname & _).
        exists p, n. split; [done|]. split; [done|]. congruence.
      - intros (p & n & Hg & Hh & Hn).
        destruct (Hfwd p n Hh) as (n' & Hn' & Hname & _).
        exists p, n'. split; [done|]. split; [done|]. congruence. }
    split.
    { intros k1 k2. unfold hasEdge. simpl. split.
      - intros (p & n' & q & m' & Hg & Hh & Hq & Hm & Hfp).
        destruct (Hbwd p n' Hh) as (n & Hn & _ & _ & Hch & _).
        destruct (Hbwd q m' Hm) as (m & Hm0 & _ & Hmf & _).
        destruct (proj1 (Hch q) Hq) as [Hq'|[Hp1 Hq1]].
        + left. exists p, n, q, m. repeat split; try done. congruence.
        + subst p q. right. split.
          * pose proof (wf_indexed st Hwf pp parent Hparent) as Hi.
            rewrite Hpfp in Hi.
            destruct (wf_key st Hwf k1 pp Hg) as (n0 & Hn0 & Hk1).
            rewrite Hparent in Hn0. inversion Hn0; subst n0. congruence.
          * rewrite Hchild in Hm0. inversion Hm0; subst m. congruence.
      - intros [(p & n & q & m & Hg & Hh & Hq & Hm & Hfp)|[-> ->]].
        + destruct (Hfwd p n Hh) as (n' & Hn' & _ & _ & Hch).
          destruct (Hfwd q m Hm) as (m' & Hm' & _ & Hmf & _).
          exists p, n', q, m'. repeat split; try done.
          * apply Hch. by left.
          * congruence.
        + destruct (Hfwd pp parent Hparent) as (n' & Hn' & _ & _ & Hch).
          destruct (Hfwd cp child Hchild) as (m' & Hm' & _ & Hmf & _).
          exists pp, n', cp, m'. repeat split; try done.
          * apply Hch. by right.
          * congruence. }
    split; [|done].
    intros Hpar p n' Hp Hs. simpl in Hp.
    destruct (Hbwd p n' Hp) as (n & Hn & _ & Hfp & _).
    rewrite Hfp in Hs. right.
    destruct (Hpar p n Hn Hs) as [Heq|(q & m & Hq & Hin)].
    + inversion Heq as [Heq'].
      pose proof (wf_indexed st Hwf p n Hn) as Hi. rewrite Heq', Hcp in Hi.
      inversion Hi; subst p.
      destruct (Hfwd pp parent Hparent) as (pn' & Hpn' & _ & _ & Hch).
      exists pp, pn'. split; [done|]. apply Hch. by right.
    + destruct (Hfwd q m Hq) as (m' & Hm' & _ & _ & Hch).
      exists q, m'. split; [done|]. apply Hch. by left.
Qed.

Lemma visit_spec parts i st :
  slashFree parts → (i < length parts)%nat → WF st → parented st None →
  (∀ j, i = S j → is_Some (graph st !! prefixKey parts j)) →
  ∃ st', visit parts i st = Some st' ∧ WF st' ∧ parented st' None
    ∧ (∀ k nm, hasNode st' k nm ↔
               hasNode st k nm ∨ (k = prefixKey parts i ∧ nm = nth i parts ""))
    ∧ (∀ k1 k2, hasEdge st' k1 k2 ↔
                 hasEdge st k1 k2
                 ∨ ∃ j, i = S j ∧ k1 = prefixKey parts j ∧ k2 = prefixKey parts i)
    ∧ is_Some (graph st' !! prefixKey parts i)
    ∧ (∀ k p, graph st !! k = Some p → graph st' !! k = Some p).
Proof.
  intros Hfree Hi Hwf Hpar Hprev. rewrite visit_split.
  pose proof (prefixKey_last parts i Hfree Hi) as Hlast.
  destruct (ensureNode_spec (prefixKey parts i) (nth i parts "") st Hwf Hlast)
    as (Hwf1 & Hhas1 & Hnodes1 & Hedges1 & Hpar1 & Hmono1).
  set (st1 := ensureNode (prefixKey parts i) (nth i parts "") st) in *.
  assert (Hsome1 : is_Some (graph st1 !! prefixKey parts i)).
  { destruct Hhas1 as (p & n & Hg & _). by exists p. }
  simpl. destruct i as [|j].
  - exists st1. split; [done|]. split; [done|]. split.
    { intros p n Hp Hs. destruct (Hpar1 Hpar p n Hp Hs) as [Heq|?]; [|by right].
      inversion Heq as [Heq']. rewrite Heq' in Hs.
      rewrite hasSlash_prefixKey in Hs by done. done. }
    split; [done|]. split.
    { intros k1 k2. rewrite Hedges1. split; [by left|].
      intros [?|(j & Hj & _)]; [done|lia]. }
    done.
  - destruct (Hprev j eq_refl) as [pp Hpp0].
    pose proof (Hmono1 _ _ Hpp0) as Hpp.
    destruct Hsome1 as [cp Hcp].
    destruct (link_spec (prefixKey parts j) (prefixKey parts (S j)) (nth (S j) parts "")
                st1 pp cp Hwf1 Hpp Hcp (prefixKey_S parts j Hi) Hlast)
      as (st2 & Hlink & Hwf2 & Hnodes2 & Hedges2 & Hpar2 & Hgraph2).
    exists st2. split; [done|]. split; [done|]. split; [by apply Hpar2, Hpar1|].
    split; [intros k nm; by rewrite Hnodes2, Hnodes1|].
    split.
    { intros k1 k2. rewrite Hedges2, Hedges1. split.
      - intros [?|[-> ->]]; [by left|]. right. by exists j.
      - intros [?|(j' & Hj' & -> & ->)]; [by left|]. right.
        by inversion Hj'; subst j'. }
    rewrite Hgraph2. split; [by exists cp|]. done.
Qed.

Lemma visitAll_spec parts n : ∀ a st,
  slashFree parts → (a + n ≤ length parts)%nat → WF st → parented st None →
  (∀ j, a = S j → is_Some (graph st !! prefixKey parts j)) →
  ∃ st', visitAll parts (seq a n) st = Some st' ∧ WF st' ∧ parented st' None
    ∧ (∀ k nm, hasNode st' k nm ↔
               hasNode st k nm
               ∨ ∃ i, (a ≤ i < a + n)%nat ∧ k = prefixKey parts i ∧ nm = nth i parts "")
    ∧ (∀ k1 k2, hasEdge st' k1 k2 ↔
                 hasEdge st k1 k2
                 ∨ ∃ j, (a ≤ S j < a + n)%nat ∧ k1 = prefixKey parts j
                        ∧ k2 = prefixKey parts (S j)).
Proof.
  induction n as [|n IH]; intros a st Hfree Hlen Hwf Hpar Hprev; simpl.
  - exists st. split; [done|]. split; [done|]. split; [done|].
    split; intros; (split; [by left|]); intros [?|(i & Hi & _)]; [done|lia|done|lia].
  - destruct (visit_spec parts a st Hfree ltac:(lia) Hwf Hpar Hprev)
      as (st1 & Hv & Hwf1 & Hpar1 & Hn1 & He1 & Hsome1 & _).
    rewrite Hv.
    destruct (IH (S a) st1 Hfree ltac:(lia) Hwf1 Hpar1) as (st2 & Hv2 & Hwf2 & Hpar2 & Hn2 & He2).
    { intros j Hj. by inversion Hj; subst j. }
    exists st2. split; [done|]. split; [done|]. split; [done|]. split.
    + intros k nm. rewrite Hn2, Hn1. split.
      * intros [[?|[-> ->]]|(i & Hi & -> & ->)]; [by left| |].
        -- right. exists a. split; [lia|done].
        -- right. exists i. split; [lia|done].
      * intros [?|(i & Hi & -> & ->)]; [by left; left|].
        destruct (decide (i = a)) as [->|Hne]; [left; by right|].
        right. exists i. split; [lia|done].
    + intros k1 k2. rewrite He2, He1. split.
      * intros [[?|(j & -> & -> & ->)]|(j & Hj & -> & ->)]; [by left| |].
        -- right. exists j. split; [lia|done].
        -- right. exists j. split; [lia|done].
      * intros [?|(j & Hj & -> & ->)]; [by left; left|].
        destruct (decide (S j = a)) as [<-|Hne]; [left; right; by exists j|].
        right. exists j. split; [lia|done].
Qed.

Lemma addPath_spec parts st :
  slashFree parts → WF st → parented st None →
  ∃ st', visitAll parts (seq 0 (length parts)) st = Some st' ∧ WF st' ∧ parented st' None
    ∧ (∀ k nm, hasNode st' k nm ↔ hasNode st k nm ∨ nodeOfParts parts k nm)
    ∧ (∀ k1 k2, hasEdge st' k1 k2 ↔ hasEdge st k1 k2 ∨ edgeOfParts parts k1 k2).
Proof.
  intros Hfree Hwf Hpar.
  destruct (visitAll_spec parts (length parts) 0 st Hfree ltac:(lia) Hwf Hpar)
    as (st' & Hv & Hwf' & Hpar' & Hn & He); [by intros j Hj|].
  exists st'. split; [done|]. split; [done|]. split; [done|]. split.
  - intros k nm. rewrite Hn. unfold nodeOfParts. split.
    + intros [?|(i & Hi & ?)]; [by left|]. right. exists i. split; [lia|done].
    + intros [?|(i & Hi & ?)]; [by left|]. right. exists i. split; [lia|done].
  - intros k1 k2. rewrite He. unfold edgeOfParts. split.
    + intros [?|(j & Hj & ?)]; [by left|]. right. exists j. split; [lia|done].
    + intros [?|(j & Hj & ?)]; [by left|]. right. exists j. split; [lia|done].
Qed.

Section Building.
Variable P : Filepath.Platform.
Variable baseDir : string.

Lemma partsOf_slashFree path : slashFree (partsOf P baseDir path).
Proof.
  unfold partsOf. destruct (_ || _); [constructor|].
  unfold slashFree, hasSlash, Strings.Split. apply splitOn_pieces.
Qed.

Lemma BuildFolderGraph_loop_spec paths : ∀ st,
  WF st → parented st None →
  ∃ st', BuildFolderGraph_loop P paths baseDir st = Some st' ∧ WF st' ∧ parented st' None
    ∧ (∀ k nm, hasNode st' k nm ↔
               hasNode st k nm ∨ ∃ path, path ∈ paths ∧ nodeOfParts (partsOf P baseDir path) k nm)
    ∧ (∀ k1 k2, hasEdge st' k1 k2 ↔
                 hasEdge st k1 k2 ∨ ∃ path, path ∈ paths ∧ edgeOfParts (partsOf P baseDir path) k1 k2).
Proof.
  induction paths as [|path rest IH]; intros st Hwf Hpar; simpl.
  - exists st. split; [done|]. split; [done|]. split; [done|].
    split; intros; (split; [by left|]); intros [?|(x & Hx & _)]; try done;
      by apply elem_of_nil in Hx.
  - pose proof (partsOf_slashFree path) as Hfree. unfold partsOf in Hfree.
    assert (Hparts : ∀ k nm, nodeOfParts (partsOf P baseDir path) k nm ↔
              (if bool_decide (relOf P baseDir path = ".")
                  || bool_decide (relOf P baseDir path = "")
               then False
               else nodeOfParts (Strings.Split (relOf P baseDir path) "/") k nm)).
    { intros k nm. unfold partsOf. destruct (_ || _); [|done].
      split; [|done]. intros (i & Hi & _). simpl in Hi. lia. }
    assert (Hparts' : ∀ k1 k2, edgeOfParts (partsOf P baseDir path) k1 k2 ↔
              (if bool_decide (relOf P baseDir path = ".")
                  || bool_decide (relOf P baseDir path = "")
               then False
               else edgeOfParts (Strings.Split (relOf P baseDir path) "/") k1 k2)).
    { intros k1 k2. unfold partsOf. destruct (_ || _); [|done].
      split; [|done]. intros (i & Hi & _). simpl in Hi. lia. }
    destruct (bool_decide (relOf P baseDir path = ".")
              || bool_decide (relOf P baseDir path = "")) eqn:Hroot.
    + destruct (IH st Hwf Hpar) as (st' & Hb & Hwf' & Hpar' & Hn & He).
      exists st'. split; [done|]. split; [done|]. split; [done|]. split.
      * intros k nm. rewrite Hn. split.
        -- intros [?|(x & Hx & ?)]; [by left|]. right. exists x. split; [by right|done].
        -- intros [?|(x & Hx & Hnode)]; [by left|].
           apply elem_of_cons in Hx as [->|Hx]; [by apply Hparts in Hnode|].
           right. by exists x.
      * intros k1 k2. rewrite He. split.
        -- intros [?|(x & Hx & ?)]; [by left|]. right. exists x. split; [by right|done].
        -- intros [?|(x & Hx & Hedge)]; [by left|].
           apply elem_of_cons in Hx as [->|Hx]; [by apply Hparts' in Hedge|].
           right. by exists x.
    + destruct (addPath_spec _ st Hfree Hwf Hpar) as (st1 & Hv & Hwf1 & Hpar1 & Hn1 & He1).
      rewrite Hv.
      destruct (IH st1 Hwf1 Hpar1) as (st' & Hb & Hwf' & Hpar' & Hn & He).
      exists st'. split; [done|]. split; [done|]. split; [done|]. split.
      * intros k nm. rewrite Hn, Hn1. split.
        -- intros [[?|Hnode]|(x & Hx & ?)]; [by left| |].
           ++ right. exists path. split; [by left|by apply Hparts].
           ++ right. exists x. split; [by right|done].
        -- intros [?|(x & Hx & Hnode)]; [by left; left|].
           apply elem_of_cons in Hx as [->|Hx]; [left; right; by apply Hparts in Hnode|].
           right. by exists x.
      * intros k1 k2. rewrite He, He1. split.
        -- intros [[?|Hedge]|(x & Hx & ?)]; [by left| |].
           ++ right. exists path. split; [by left|by apply Hparts'].
           ++ right. exists x. split; [by right|done].
        -- intros [?|(x & Hx & Hedge)]; [by left; left|].
           apply elem_of_cons in Hx as [->|Hx]; [left; right; by apply Hparts' in Hedge|].
           right. by exists x.
Qed.

Lemma BuildFolderGraph_spec paths :
  ∃ st, BuildFolderGraph P paths baseDir = Some st ∧ WF st ∧ parented st None
    ∧ (∀ k nm, hasNode st k nm ↔ ∃ path, path ∈ paths ∧ nodeOfParts (partsOf P baseDir path) k nm)
    ∧ (∀ k1 k2, hasEdge st k1 k2 ↔
                 ∃ path, path ∈ paths ∧ edgeOfParts (partsOf P baseDir path) k1 k2).
Proof.
  destruct (BuildFolderGraph_loop_spec paths (mkStore [] ∅) WF_empty)
    as (st & Hb & Hwf & Hpar & Hn & He).
  { intros p n Hp. done. }
  exists st. split; [done|]. split; [done|]. split; [done|]. split.
  - intros k nm. rewrite Hn. split; [|by right].
    intros [(p & n & Hg & _)|?]; [|done]. simpl in Hg. by rewrite lookup_empty in Hg.
  - intros k1 k2. rewrite He. split; [|by right].
    intros [(p & n & q & m & Hg & _)|?]; [|done]. simpl in Hg. by rewrite lookup_empty in Hg.
Qed.

End Building.

Lemma HasParent_listed (node : ptr) (st : Store) :
  HasParent node st = true ↔
  ∃ k q m, graph st !! k = Some q ∧ heap st !! q = Some m ∧ node ∈ Children m.
Proof.
  unfold HasParent. rewrite existsb_exists. split.
  - intros ([k q] & Hin & Hf). simpl in Hf.
    apply list_elem_of_In, elem_of_map_to_list in Hin.
    destruct (heap st !! q) as [m|] eqn:Hm; [|done].
    apply existsb_eqb_elem in Hf. by exists k, q, m.
  - intros (k & q & m & Hg & Hm & Hin). exists (k, q). split.
    + by apply list_elem_of_In, elem_of_map_to_list.
    + simpl. rewrite Hm. by apply existsb_eqb_elem.
Qed.

Lemma hasSlash_single (s : string) :
  hasSlash s = false ↔ Strings.Split s "/" = [s].
Proof.
  unfold hasSlash, Strings.Split. split; [apply splitOn_clean|].
  intros Heq. pose proof (splitOn_pieces (Ascii.eqb "/") s) as H.
  rewrite Heq in H. by apply Forall_cons in H as [H _].
Qed.

(** C6. [BuildFolderGraph] returns a graph for every list of paths and
    every base directory (it never dereferences a missing node).  In it
    the key of a node is the node's full path, every node stands under its
    full path, so that two distinct nodes never have the same full path and
    no node stands under two keys; and every child listed by a node is a
    node whose full path is the parent's full path, a slash, and the
    child's own name. *)
Theorem forest_structure (P : Filepath.Platform) (dashboardPaths : list string)
    (baseDir : string) :
  ∃ st, BuildFolderGraph P dashboardPaths baseDir = Some st
    ∧ (∀ k p, graph st !! k = Some p → ∃ n, heap st !! p = Some n ∧ FullPath n = k)
    ∧ (∀ p n, heap st !! p = Some n → graph st !! FullPath n = Some p)
    ∧ (∀ p q n m, heap st !! p = Some n → heap st !! q = Some m →
                  FullPath n = FullPath m → p = q)
    ∧ (∀ k1 k2 p, graph st !! k1 = Some p → graph st !! k2 = Some p → k1 = k2)
    ∧ (∀ p n q, heap st !! p = Some n → q ∈ Children n →
                ∃ m, heap st !! q = Some m
                     ∧ FullPath m = FullPath n +:+ "/" +:+ Name m).
Proof.
  destruct (BuildFolderGraph_spec P baseDir dashboardPaths) as (st & Hb & Hwf & _).
  exists st. split; [done|]. split; [apply (wf_key st Hwf)|].
  split; [apply (wf_indexed st Hwf)|]. split.
  { intros p q n m Hp Hq Heq.
    pose proof (wf_indexed st Hwf p n Hp) as H1.
    pose proof (wf_indexed st Hwf q m Hq) as H2. rewrite Heq in H1. congruence. }
  split; [|apply (wf_child st Hwf)].
  intros k1 k2 p H1 H2.
  destruct (wf_key st Hwf k1 p H1) as (n1 & Hn1 & <-).
  destruct (wf_key st Hwf k2 p H2) as (n2 & Hn2 & <-). congruence.
Qed.

(** C7. In the graph that [BuildFolderGraph] returns, [HasParent] is false
    for a node exactly when the node's full path has no slash in it, that
    is when the path is one single segment. *)
Theorem root_detection (P : Filepath.Platform) (dashboardPaths : list string)
    (baseDir : string) :
  ∃ st, BuildFolderGraph P dashboardPaths baseDir = Some st
    ∧ ∀ k p n, graph st !! k = Some p → heap st !! p = Some n →
        (HasParent p st = false ↔ hasSlash (FullPath n) = false)
        ∧ (HasParent p st = false ↔ Strings.Split (FullPath n) "/" = [FullPath n]).
Proof.
  destruct (BuildFolderGraph_spec P baseDir dashboardPaths) as (st & Hb & Hwf & Hpar & _).
  exists st. split; [done|]. intros k p n Hg Hp.
  assert (Hiff : HasParent p st = false ↔ hasSlash (FullPath n) = false).
  { split.
    - intros Hno. destruct (hasSlash (FullPath n)) eqn:Hs; [|done].
      destruct (Hpar p n Hp Hs) as [?|(q & m & Hq & Hin)]; [done|].
      assert (HasParent p st = true); [|congruence].
      apply HasParent_listed. exists (FullPath m), q, m.
      split; [by apply (wf_indexed st Hwf)|done].
    - intros Hs. destruct (HasParent p st) eqn:Hhas; [|done].
      apply HasParent_listed in Hhas as (kq & q & m & _ & Hq & Hin).
      destruct (wf_child st Hwf q m p Hq Hin) as (n' & Hn' & Hfp).
      rewrite Hp in Hn'. inversion Hn'; subst n'.
      rewrite Hfp in Hs. unfold hasSlash in Hs.
      rewrite !anyChar_append in Hs. simpl in Hs. by rewrite orb_true_r in Hs. }
  split; [done|]. by rewrite Hiff, hasSlash_single.
Qed.

Lemma sameForest_same_paths P baseDir l l' :
  (∀ x, x ∈ l ↔ x ∈ l') →
  ∃ st st', BuildFolderGraph P l baseDir = Some st
    ∧ BuildFolderGraph P l' baseDir = Some st'
    ∧ sameForest st st' ∧ childrenDistinct st ∧ childrenDistinct st'.
Proof.
  intros Hsame.
  destruct (BuildFolderGraph_spec P baseDir l) as (st & Hb & Hwf & _ & Hn & He).
  destruct (BuildFolderGraph_spec P baseDir l') as (st' & Hb' & Hwf' & _ & Hn' & He').
  exists st, st'. split; [done|]. split; [done|].
  split; [|split; [exact (wf_nodup st Hwf)|exact (wf_nodup st' Hwf')]].
  split.
  - intros k nm. rewrite Hn, Hn'. by setoid_rewrite Hsame.
  - intros k1 k2. rewrite He, He'. by setoid_rewrite Hsame.
Qed.

(** C2. Building the graph from a list of paths, from the list followed by
    itself, or from any permutation of the list gives graphs with the same
    nodes (same keys, same names) and the same parent-child edges; and in
    each of them no node lists the same child twice. *)
Theorem forest_build_idempotent (P : Filepath.Platform) (dashboardPaths : list string)
    (baseDir : string) :
  ∃ st, BuildFolderGraph P dashboardPaths baseDir = Some st
    ∧ childrenDistinct st
    ∧ (∃ st2, BuildFolderGraph P (dashboardPaths ++ dashboardPaths) baseDir = Some st2
              ∧ sameForest st st2 ∧ childrenDistinct st2)
    ∧ (∀ l', dashboardPaths ≡ₚ l' →
             ∃ st', BuildFolderGraph P l' baseDir = Some st'
                    ∧ sameForest st st' ∧ childrenDistinct st').
Proof.
  destruct (BuildFolderGraph_spec P baseDir dashboardPaths) as (st & Hb & Hwf & _).
  exists st. split; [done|]. split; [exact (wf_nodup st Hwf)|]. split.
  - destruct (sameForest_same_paths P baseDir dashboardPaths (dashboardPaths ++ dashboardPaths))
      as (st1 & st2 & Hb1 & Hb2 & Hsame & _ & Hd2).
    { intros x. rewrite elem_of_app. naive_solver. }
    rewrite Hb in Hb1. inversion Hb1; subst st1. by exists st2.
  - intros l' Hperm.
    destruct (sameForest_same_paths P baseDir dashboardPaths l')
      as (st1 & st' & Hb1 & Hb' & Hsame & _ & Hd').
    { intros x. by rewrite Hperm. }
    rewrite Hb in Hb1. inversion Hb1; subst st1. by exists st'.
Qed.

(** *** From the graph to the trees that the reconciler walks *)

Lemma longestPath_bound (h : list FolderNode) (p : nat) (n : FolderNode) :
  h !! p = Some n → (String.length (FullPath n) ≤ longestPath h)%nat.
Proof.
  revert p. induction h as [|x h IH]; intros p Hp; [done|].
  destruct p as [|p]; simpl in *.
  - inversion Hp; subst. lia.
  - specialize (IH p Hp). lia.
Qed.

Lemma string_length_append (a b : string) :
  String.length (a +:+ b) = (String.length a + String.length b)%nat.
Proof.
  induction a as [|x a IH]; [done|]. rewrite append_cons. simpl. by rewrite IH.
Qed.

Lemma load_succeeds st :
  WF st → ∀ depth p n,
  heap st !! p = Some n →
  (longestPath (heap st) < depth + String.length (FullPath n))%nat →
  ∃ t, load depth (heap st) p = Some t
       ∧ treeName t = Name n ∧ treeFullPath t = FullPath n.
Proof.
  intros Hwf. induction depth as [|depth IH]; intros p n Hp Hlen.
  - pose proof (longestPath_bound _ _ _ Hp). lia.
  - simpl. rewrite Hp.
    assert (Hall : Forall (fun q => is_Some (load depth (heap st) q)) (Children n)).
    { apply Forall_forall. intros q Hq.
      destruct (wf_child st Hwf p n q Hp Hq) as (m & Hm & Hfp).
      destruct (IH q m Hm) as (t & Ht & _); [|by exists t].
      rewrite Hfp, !string_length_append. simpl. lia. }
    apply mapM_is_Some in Hall as [cs Hcs]. rewrite Hcs. by eexists.
Qed.

(** Below every node of a graph built by [BuildFolderGraph] hangs a finite
    tree: the walk of the reconciler over the node is a walk over that
    tree. *)
Lemma built_graph_loads (P : Filepath.Platform) (dashboardPaths : list string)
    (baseDir : string) :
  ∃ st, BuildFolderGraph P dashboardPaths baseDir = Some st
    ∧ ∀ p n, heap st !! p = Some n →
        ∃ t, load (S (longestPath (heap st))) (heap st) p = Some t
             ∧ treeName t = Name n ∧ treeFullPath t = FullPath n.
Proof.
  destruct (BuildFolderGraph_spec P baseDir dashboardPaths) as (st & Hb & Hwf & _).
  exists st. split; [done|]. intros p n Hp.
  apply (load_succeeds st Hwf); [done|lia].
Qed.

(** A node of a built graph is listed by one node at most. *)
Lemma built_graph_one_parent st p q1 m1 q2 m2 :
  WF st → heap st !! q1 = Some m1 → heap st !! q2 = Some m2 →
  p ∈ Children m1 → p ∈ Children m2 → q1 = q2.
Proof.
  intros Hwf H1 H2 Hin1 Hin2.
  destruct (wf_child st Hwf q1 m1 p H1 Hin1) as (n & Hn & Hfp1).
  destruct (wf_child st Hwf q2 m2 p H2 Hin2) as (n' & Hn' & Hfp2).
  rewrite Hn in Hn'. inversion Hn'; subst n'.
  rewrite Hfp1 in Hfp2.
  assert (FullPath m1 = FullPath m2) as Heq.
  { assert (∀ a b c : string, a +:+ c = b +:+ c → a = b) as Hcancel.
    { intros a b c. revert b. induction a as [|x a IH]; intros b Hab.
      - destruct b as [|y b]; [done|]. exfalso.
        assert (String.length ("" +:+ c) = String.length (String y b +:+ c)) as Hl
          by (by rewrite Hab).
        rewrite !string_length_append in Hl. simpl in Hl. lia.
      - destruct b as [|y b].
        + exfalso.
          assert (String.length (String x a +:+ c) = String.length ("" +:+ c)) as Hl
            by (by rewrite Hab).
          rewrite !string_length_append in Hl. simpl in Hl. lia.
        + rewrite !append_cons in Hab. injection Hab as -> Hab. f_equal. by apply IH. }
    by apply Hcancel in Hfp2. }
  pose proof (wf_indexed st Hwf q1 m1 H1) as Hi1.
  pose proof (wf_indexed st Hwf q2 m2 H2) as Hi2.
  rewrite Heq in Hi1. congruence.
Qed.

End GraphInvariant.

(** ** Path classifier *)

Section LexicalPaths.
Import Filepath.
Variable P : Platform.

Lemma splitOn_Join p c segs :
  segs ≠ [] → p c = true → Forall (fun w => Strings.anyChar p w = false) segs →
  Strings.splitOn p (Strings.Join segs (String c "")) = segs.
Proof.
  induction segs as [|e rest IH]; [done|]. intros _ Hc Hall.
  apply Forall_cons in Hall as [He Hrest].
  destruct rest as [|e' rest'].
  - simpl. by apply splitOn_clean.
  - rewrite Join_cons by done.
    change (String c "" +:+ Strings.Join (e' :: rest') (String c ""))
      with (String c (Strings.Join (e' :: rest') (String c ""))).
    rewrite splitOn_append; [|done|done]. by rewrite IH.
Qed.

Lemma anyChar_weaken (p q : ascii → bool) s :
  (∀ c, q c = true → p c = true) →
  Strings.anyChar p s = false → Strings.anyChar q s = false.
Proof.
  intros Hpq. induction s as [|x s IH]; simpl; [done|].
  intros H. apply orb_false_elim in H as [Hx Hs]. rewrite (IH Hs), orb_false_r.
  destruct (q x) eqn:Hq; [|done]. apply Hpq in Hq. congruence.
Qed.

Lemma fold_cleanStep rooted l : ∀ out,
  Forall (fun w => w = "" ∨ (plain P) w) l →
  fold_left (cleanStep rooted) l out = rev (filter nonEmpty l) ++ out.
Proof.
  induction l as [|w l IH]; intros out Hall; [done|].
  apply Forall_cons in Hall as [Hw Hl]. simpl. rewrite (IH _ Hl).
  unfold cleanStep. destruct Hw as [->|(Hne & Hdot & Hdd & _)].
  - rewrite bool_decide_eq_true_2 by done.
    by rewrite filter_cons_False by (unfold nonEmpty; naive_solver).
  - rewrite !bool_decide_eq_false_2 by done.
    rewrite filter_cons_True by done. simpl. by rewrite <- app_assoc.
Qed.

Lemma filter_nonEmpty_plain segs :
  Forall (plain P) segs → filter nonEmpty segs = segs.
Proof.
  induction 1 as [|w l Hw _ IH]; [done|].
  rewrite filter_cons_True by (destruct Hw as [? _]; done). by rewrite IH.
Qed.

Lemma mapChars_id (f : ascii → ascii) (q : ascii → bool) s :
  (∀ c, q c = false → f c = c) →
  Strings.anyChar q s = false → Strings.mapChars f s = s.
Proof.
  intros Hf. induction s as [|x s IH]; simpl; [done|].
  intros H. apply orb_false_elim in H as [Hx Hs]. by rewrite (Hf x Hx), (IH Hs).
Qed.

Lemma anyChar_Join p segs c :
  p c = false → Forall (fun w => Strings.anyChar p w = false) segs →
  Strings.anyChar p (Strings.Join segs (String c "")) = false.
Proof.
  intros Hc. induction 1 as [|w l Hw Hl IH]; [done|].
  destruct l as [|w' l']; [done|].
  rewrite Join_cons by done. rewrite !anyChar_append, Hw, IH. simpl. by rewrite Hc.
Qed.

Lemma Join_not_nil segs sep :
  Forall (plain P) segs → segs ≠ [] → Strings.Join segs sep ≠ "".
Proof.
  intros Hall Hne. destruct segs as [|w l]; [done|].
  apply Forall_cons in Hall as [(Hw & _) _].
  destruct l; simpl; [done|]. intros H. apply append_eq_nil in H as [? _]. done.
Qed.

Lemma HasPrefixChar_append s t p :
  s ≠ "" → Strings.HasPrefixChar (s +:+ t) p = Strings.HasPrefixChar s p.
Proof. by destruct s. Qed.

Lemma HasPrefixChar_plain w p :
  w ≠ "" → Strings.anyChar p w = false → Strings.HasPrefixChar w p = false.
Proof.
  destruct w as [|x w]; [done|]. simpl. intros _ H.
  by apply orb_false_elim in H as [-> _].
Qed.

Lemma HasPrefixChar_Join segs sep p :
  Forall (fun w => w ≠ "" ∧ Strings.anyChar p w = false) segs →
  Strings.HasPrefixChar (Strings.Join segs sep) p = false.
Proof.
  destruct 1 as [|w l [Hw Hp] _]; [done|].
  destruct l; simpl; [by apply HasPrefixChar_plain|].
  rewrite HasPrefixChar_append by done. by apply HasPrefixChar_plain.
Qed.

Section WithLaws.
Hypothesis laws : PlatformLaws P.

Lemma plain_no_sep w :
  (plain P) w → Strings.anyChar (Ascii.eqb (Separator P)) w = false.
Proof.
  intros (_ & _ & _ & H). eapply anyChar_weaken; [|exact H].
  intros c Hc. apply Ascii.eqb_eq in Hc. subst c. apply (separator_separates P laws).
Qed.

Lemma plain_no_slash w : (plain P) w → Strings.anyChar (Ascii.eqb "/") w = false.
Proof.
  intros (_ & _ & _ & H). eapply anyChar_weaken; [|exact H].
  intros c Hc. apply Ascii.eqb_eq in Hc. subst c. apply (slash_separates P laws).
Qed.

Lemma FromSlash_pathOf rooted segs :
  Forall (plain P) segs → FromSlash P ((pathOf P) rooted segs) = (pathOf P) rooted segs.
Proof.
  intros Hall. unfold FromSlash.
  destruct (Ascii.eqb (Separator P) "/") eqn:Hs; [done|].
  apply (mapChars_id _ (Ascii.eqb "/")).
  - intros c Hc. rewrite Ascii.eqb_sym in Hc. by rewrite Hc.
  - unfold pathOf, sepString. rewrite anyChar_append.
    rewrite (anyChar_Join (Ascii.eqb "/")).
    + rewrite orb_false_r. destruct rooted; [|done]. simpl.
      rewrite orb_false_r. by rewrite Ascii.eqb_sym.
    + by rewrite Ascii.eqb_sym.
    + eapply Forall_impl; [exact Hall|]. apply plain_no_slash.
Qed.

Lemma splitOn_pathOf p rooted pieces :
  p (Separator P) = true → pieces ≠ [] →
  Forall (fun w => Strings.anyChar p w = false) pieces →
  Strings.splitOn p ((pathOf P) rooted pieces) = (if rooted then [""] else []) ++ pieces.
Proof.
  intros Hp Hne Hall. unfold pathOf, sepString. destruct rooted.
  - rewrite append_cons, append_nil_l. simpl. rewrite Hp.
    by rewrite splitOn_Join.
  - rewrite append_nil_l. by rewrite splitOn_Join.
Qed.

Lemma Clean_root : Clean P (sepString P) = sepString P.
Proof.
  unfold Clean, sepString. rewrite bool_decide_eq_false_2 by done. simpl.
  rewrite (separator_separates P laws). simpl.
  change (String (Separator P) "" +:+ "") with ((pathOf P) true []).
  rewrite FromSlash_pathOf by constructor. unfold pathOf, sepString. simpl.
  by rewrite append_nil_r.
Qed.

Lemma Clean_pathOf rooted segs (trail : bool) :
  Forall (plain P) segs → segs ≠ [] →
  Clean P ((pathOf P) rooted (segs ++ if trail then [""] else [])) = (pathOf P) rooted segs.
Proof.
  intros Hall Hne. set (pieces := segs ++ if trail then [""] else []).
  assert (Hpne : pieces ≠ []) by (subst pieces; by destruct segs).
  assert (Hpieces : Forall (fun w => w = "" ∨ (plain P) w) pieces).
  { apply Forall_app. split; [eapply Forall_impl; [exact Hall|]; by right|].
    destruct trail; repeat constructor. }
  assert (Hnosep : Forall (fun w => Strings.anyChar (IsPathSeparator P) w = false) pieces).
  { eapply Forall_impl; [exact Hpieces|]. intros w [->|(_ & _ & _ & H)]; done. }
  assert (Hfilter : filter nonEmpty pieces = segs).
  { subst pieces. rewrite filter_app, (filter_nonEmpty_plain _ Hall).
    destruct trail; [|by rewrite app_nil_r].
    rewrite filter_cons_False by (unfold nonEmpty; naive_solver). by rewrite app_nil_r. }
  assert (Hfirst : Strings.HasPrefixChar (Strings.Join pieces (sepString P)) (IsPathSeparator P)
                   = false).
  { destruct segs as [|w rest]; [done|]. apply Forall_cons in Hall as [(Hw & _ & _ & Hs) _].
    subst pieces. simpl. destruct (rest ++ _) eqn:Hr.
    - by apply HasPrefixChar_plain.
    - rewrite HasPrefixChar_append by done. by apply HasPrefixChar_plain. }
  assert (Hnn : (pathOf P) rooted pieces ≠ "").
  { unfold pathOf. destruct rooted; [done|]. rewrite append_nil_l.
    destruct segs as [|w rest]; [done|]. apply Forall_cons in Hall as [(Hw & _) _].
    subst pieces. simpl. destruct (rest ++ _); [done|].
    intros H. apply append_eq_nil in H as [? _]. done. }
  assert (Hrooted : Strings.HasPrefixChar ((pathOf P) rooted pieces) (IsPathSeparator P) = rooted).
  { unfold pathOf. destruct rooted.
    - unfold sepString. rewrite append_cons. simpl. apply (separator_separates P laws).
    - by rewrite append_nil_l. }
  unfold Clean. rewrite (bool_decide_eq_false_2 _ Hnn), Hrooted.
  rewrite splitOn_pathOf; [|apply (separator_separates P laws)|done|done].
  rewrite fold_cleanStep.
  2:{ apply Forall_app. split; [|done]. destruct rooted; repeat constructor. }
  rewrite app_nil_r, filter_app, Hfilter.
  assert (filter nonEmpty (if rooted then [""] else []) = []) as ->.
  { destruct rooted; [|done]. by rewrite filter_cons_False by (unfold nonEmpty; naive_solver). }
  rewrite app_nil_l, rev_involutive.
  change ((if rooted then sepString P else "") +:+ Strings.Join segs (sepString P))
    with ((pathOf P) rooted segs).
  assert ((pathOf P) rooted segs ≠ "") as Hs.
  { unfold pathOf. destruct rooted; [done|]. rewrite append_nil_l. by apply Join_not_nil. }
  rewrite (bool_decide_eq_false_2 _ Hs). by apply FromSlash_pathOf.
Qed.

Lemma Clean_cleanOf rooted segs :
  Forall (plain P) segs → Clean P ((cleanOf P) rooted segs) = (cleanOf P) rooted segs.
Proof.
  intros Hall. destruct segs as [|w rest].
  - destruct rooted; simpl.
    + change ((pathOf P) true []) with (sepString P +:+ "").
      rewrite append_nil_r. apply Clean_root.
    + unfold Clean. rewrite bool_decide_eq_false_2 by done. simpl.
      rewrite (dot_no_separator P laws). simpl.
      unfold FromSlash. by destruct (Ascii.eqb _ _).
  - assert ((cleanOf P) rooted (w :: rest) = (pathOf P) rooted (w :: rest)) as ->
      by (by destruct rooted).
    pose proof (Clean_pathOf rooted (w :: rest) false Hall ltac:(done)) as H.
    by rewrite app_nil_r in H.
Qed.

Lemma Clean_pathOf_all rooted segs :
  Forall (plain P) segs → Clean P ((pathOf P) rooted segs) = (cleanOf P) rooted segs.
Proof.
  intros Hall. destruct segs as [|w rest].
  - destruct rooted.
    + change ((pathOf P) true []) with (sepString P +:+ "").
      rewrite append_nil_r, Clean_root. unfold cleanOf, pathOf. simpl.
      by rewrite append_nil_r.
    + done.
  - pose proof (Clean_pathOf rooted (w :: rest) false Hall ltac:(done)) as H.
    rewrite app_nil_r in H. rewrite H. by destruct rooted.
Qed.

Lemma dirPrefix_plain name :
  Strings.anyChar (IsPathSeparator P) name = false → dirPrefix P name = "".
Proof.
  induction name as [|c name IH]; simpl; [done|].
  intros H. apply orb_false_elim in H as [Hc Hn]. by rewrite (IH Hn), Hc.
Qed.

Lemma dirPrefix_append x c name :
  IsPathSeparator P c = true → Strings.anyChar (IsPathSeparator P) name = false →
  dirPrefix P (x +:+ String c name) = x +:+ String c "".
Proof.
  intros Hc Hn. induction x as [|y x IH].
  - rewrite !append_nil_l. simpl. by rewrite (dirPrefix_plain _ Hn), Hc.
  - rewrite !append_cons. simpl. rewrite IH.
    destruct x; by rewrite ?append_nil_l, ?append_cons.
Qed.

Lemma pathOf_snoc rooted segs e :
  segs ≠ [] → (pathOf P) rooted (segs ++ [e]) = (pathOf P) rooted segs +:+ String (Separator P) e.
Proof.
  intros Hne. unfold pathOf. rewrite Join_snoc by done.
  rewrite <- append_assoc. by destruct rooted.
Qed.

Lemma Dir_pathOf rooted segs name :
  Forall (plain P) segs → (plain P) name →
  Dir P ((pathOf P) rooted (segs ++ [name])) = (cleanOf P) rooted segs.
Proof.
  intros Hall (_ & _ & _ & Hname). unfold Dir.
  destruct segs as [|w rest].
  - destruct rooted.
    + change ((pathOf P) true ([] ++ [name])) with ("" +:+ String (Separator P) name).
      rewrite dirPrefix_append; [|apply (separator_separates P laws)|done].
      rewrite append_nil_l. change (String (Separator P) "") with (sepString P).
      rewrite Clean_root. unfold cleanOf, pathOf. simpl. by rewrite append_nil_r.
    + change ((pathOf P) false ([] ++ [name])) with name.
      by rewrite dirPrefix_plain.
  - rewrite pathOf_snoc by done.
    rewrite dirPrefix_append; [|apply (separator_separates P laws)|done].
    rewrite <- pathOf_snoc by done.
    rewrite (Clean_pathOf rooted (w :: rest) true Hall) by done. by destruct rooted.
Qed.

Lemma Separator_not_dot : Separator P ≠ "."%char.
Proof.
  intros H. pose proof (separator_separates P laws) as H1.
  rewrite H, (dot_no_separator P laws) in H1. done.
Qed.

Lemma cleanOf_elems rooted segs :
  Forall (plain P) segs →
  elems P (if bool_decide ((cleanOf P) rooted segs = ".") then "" else (cleanOf P) rooted segs)
  = lead rooted ++ segs.
Proof.
  intros Hall. unfold elems, Strings.Split.
  destruct segs as [|w rest].
  - destruct rooted; simpl.
    + assert (Hp : (pathOf P) true [] = String (Separator P) "") by reflexivity.
      rewrite Hp.
      rewrite (bool_decide_eq_false_2 (String (Separator P) "" = ".")).
      2:{ intros [= H]. by apply Separator_not_dot. }
      simpl. by rewrite Ascii.eqb_refl.
    + done.
  - assert (Hc : (cleanOf P) rooted (w :: rest) = (pathOf P) rooted (w :: rest)) by (by destruct rooted).
    rewrite Hc.
    assert (Hsplit : Strings.splitOn (Ascii.eqb (Separator P)) ((pathOf P) rooted (w :: rest))
                     = lead rooted ++ w :: rest).
    { apply splitOn_pathOf; [apply Ascii.eqb_refl|done|].
      eapply Forall_impl; [exact Hall|]. apply plain_no_sep. }
    assert (Hnd : (pathOf P) rooted (w :: rest) ≠ ".").
    { intros Hd. rewrite Hd in Hsplit. simpl in Hsplit.
      rewrite (proj2 (Ascii.eqb_neq _ _) Separator_not_dot) in Hsplit.
      apply Forall_cons in Hall as [(_ & Hw & _) Hrest].
      destruct rooted; simpl in Hsplit; [by destruct rest|].
      inversion Hsplit. congruence. }
    rewrite (bool_decide_eq_false_2 _ Hnd), Hsplit.
    rewrite bool_decide_eq_false_2; [done|].
    rewrite last_app.
    destruct (last (w :: rest)) as [x|] eqn:Hl; [|by apply last_None in Hl].
    assert (x ∈ w :: rest) as Hin.
    { apply last_Some in Hl as [l' ->]. apply elem_of_app. right. by left. }
    rewrite Forall_forall in Hall. destruct (Hall x Hin) as [Hx _]. congruence.
Qed.

Lemma relLoop_prefix pre rest :
  relLoop pre (pre ++ rest) = ([], rest, false).
Proof.
  induction pre as [|x pre IH]; simpl; [by destruct rest|].
  by rewrite bool_decide_eq_true_2.
Qed.

Lemma cleanOf_slashed rooted segs :
  Forall (plain P) segs →
  Strings.HasPrefixChar
    (if bool_decide ((cleanOf P) rooted segs = ".") then "" else (cleanOf P) rooted segs)
    (Ascii.eqb (Separator P)) = rooted.
Proof.
  intros Hall. case_bool_decide as Hd.
  - destruct rooted; [|done]. exfalso. unfold cleanOf, pathOf, sepString in Hd.
    rewrite append_cons in Hd. inversion Hd as [[H1 H2]]. by apply Separator_not_dot.
  - destruct rooted.
    + unfold cleanOf, pathOf, sepString. rewrite append_cons. simpl. apply Ascii.eqb_refl.
    + destruct segs as [|w rest]; [done|]. unfold cleanOf, pathOf.
      rewrite append_nil_l. apply HasPrefixChar_Join.
      eapply Forall_impl; [exact Hall|]. intros x Hx. split; [by destruct Hx|].
      by apply plain_no_sep.
Qed.

Lemma cleanOf_slashed_raw rooted segs :
  Forall (plain P) segs → segs ≠ [] →
  Strings.HasPrefixChar ((cleanOf P) rooted segs) (Ascii.eqb (Separator P)) = rooted
  ∧ elems P ((cleanOf P) rooted segs) = lead rooted ++ segs.
Proof.
  intros Hall Hne.
  pose proof (cleanOf_slashed rooted segs Hall) as H1.
  pose proof (cleanOf_elems rooted segs Hall) as H2.
  assert ((cleanOf P) rooted segs ≠ ".") as Hnd.
  { intros Hd. rewrite Hd in H2. rewrite bool_decide_eq_true_2 in H2 by done.
    destruct segs; [done|]. destruct rooted; simpl in H2; discriminate. }
  by rewrite (bool_decide_eq_false_2 _ Hnd) in H1, H2.
Qed.

Lemma Rel_descendant rooted bs ds :
  Forall (plain P) bs → Forall (plain P) ds →
  Rel P ((pathOf P) rooted bs) ((cleanOf P) rooted (bs ++ ds))
  = (match ds with [] => "." | _ => Strings.Join ds (sepString P) end, None).
Proof.
  intros Hbs Hds. assert (Hall : Forall (plain P) (bs ++ ds)) by (by apply Forall_app).
  unfold Rel. rewrite (Clean_pathOf_all rooted bs Hbs), (Clean_cleanOf rooted _ Hall).
  destruct ds as [|d ds'].
  { rewrite app_nil_r. by rewrite bool_decide_eq_true_2. }
  assert (Hne : bs ++ d :: ds' ≠ []) by (by destruct bs).
  destruct (cleanOf_slashed_raw rooted (bs ++ d :: ds') Hall Hne) as [Hts Hte].
  pose proof (cleanOf_slashed rooted bs Hbs) as Hbsl.
  pose proof (cleanOf_elems rooted bs Hbs) as Hbe.
  assert (Hdiff : (cleanOf P) rooted (bs ++ d :: ds') ≠ (cleanOf P) rooted bs).
  { intros Heq. rewrite Heq in Hte.
    destruct (decide ((cleanOf P) rooted bs = ".")) as [Hd|Hd].
    - rewrite Hd in Hte. unfold elems, Strings.Split in Hte. simpl in Hte.
      rewrite (proj2 (Ascii.eqb_neq _ _) Separator_not_dot) in Hte. simpl in Hte.
      destruct rooted; simpl in Hte; [discriminate|].
      destruct bs; simpl in Hte; inversion Hte; subst.
      + apply Forall_cons in Hds as [(_ & Hdot & _) _]. done.
      + apply Forall_cons in Hbs as [(_ & Hdot & _) _]. done.
    - rewrite (bool_decide_eq_false_2 _ Hd) in Hbe. rewrite Hbe in Hte.
      apply app_inv_head in Hte.
      assert (length bs = length (bs ++ d :: ds')) as Hl by (by rewrite <- Hte).
      rewrite length_app in Hl. simpl in Hl. lia. }
  rewrite (bool_decide_eq_false_2 _ Hdiff), Hbsl, Hts, Hbe, Hte.
  assert (Bool.eqb rooted rooted = true) as -> by (by destruct rooted).
  simpl negb. cbv iota.
  rewrite (app_assoc (lead rooted) bs), relLoop_prefix. done.
Qed.

Lemma mapChars_append f a b :
  Strings.mapChars f (a +:+ b) = Strings.mapChars f a +:+ Strings.mapChars f b.
Proof.
  induction a as [|x a IH]; [done|]. rewrite append_cons. simpl.
  by rewrite IH, append_cons.
Qed.

Lemma ToSlash_Join segs :
  Forall (plain P) segs → ToSlash P (Strings.Join segs (sepString P)) = Strings.Join segs "/".
Proof.
  intros Hall. unfold ToSlash, sepString.
  destruct (Ascii.eqb (Separator P) "/") eqn:Hs.
  { apply Ascii.eqb_eq in Hs. by rewrite Hs. }
  induction Hall as [|w l Hw Hl IH]; [done|].
  assert (Hwid : Strings.mapChars
                   (fun c => if Ascii.eqb c (Separator P) then "/"%char else c) w = w).
  { apply (mapChars_id _ (Ascii.eqb (Separator P))).
    - intros c Hc. rewrite Ascii.eqb_sym in Hc. by rewrite Hc.
    - by apply plain_no_sep. }
  destruct l as [|w' l']; [done|].
  rewrite !Join_cons by done. rewrite !mapChars_append, Hwid, IH.
  simpl. by rewrite Ascii.eqb_refl.
Qed.

Lemma Join_plain_not_dot segs sep :
  Forall (plain P) segs → segs ≠ [] → sep ≠ "" →
  Strings.Join segs sep ≠ "." ∧ Strings.Join segs sep ≠ "".
Proof.
  intros Hall Hne Hsep. split; [|by apply Join_not_nil].
  destruct segs as [|w l]; [done|].
  apply Forall_cons in Hall as [(Hw & Hdot & _) _].
  destruct l as [|w' l']; [done|]. rewrite Join_cons by done.
  destruct w as [|c [|c' w'']]; [done| |].
  - rewrite append_cons, append_nil_l. intros [= _ H].
    apply append_eq_nil in H as [? _]. done.
  - rewrite !append_cons. discriminate.
Qed.

(** The folder of a dashboard that lies under the base directory. *)
Lemma detectFolderFromPath_under (s : Sync.Service) rooted bs ds name :
  Forall (plain P) bs → Forall (plain P) ds → (plain P) name →
  Sync.dashboardsDir s = (pathOf P) rooted bs →
  Sync.detectFolderFromPath P s ((pathOf P) rooted (bs ++ ds ++ [name]))
  = Strings.Join ds "/".
Proof.
  intros Hbs Hds Hname Hbase. unfold Sync.detectFolderFromPath.
  rewrite app_assoc, Dir_pathOf, Hbase, Rel_descendant; try done;
    [|by apply Forall_app].
  destruct ds as [|d ds'].
  - assert (ToSlash P "." = ".") as ->.
    { unfold ToSlash. destruct (Ascii.eqb (Separator P) "/"); [done|]. simpl.
      by rewrite (proj2 (Ascii.eqb_neq _ _)) by (intros H; by apply Separator_not_dot). }
    done.
  - rewrite ToSlash_Join by done.
    destruct (Join_plain_not_dot (d :: ds') "/" Hds) as [H1 H2]; [done|done|].
    by rewrite !bool_decide_eq_false_2.
Qed.

End WithLaws.

End LexicalPaths.

Section Classifier.
Import Filepath.

Lemma Unix_laws : PlatformLaws Unix.
Proof. by constructor. Qed.

Lemma Windows_laws : PlatformLaws Windows.
Proof. by constructor. Qed.




End Classifier.

(** ** The graph of a small dashboard directory *)

Section GraphExamples.
Import Sync.

Example demoGraph_heap :
  option_map heap (BuildFolderGraph Filepath.Unix demoPaths "/d")
  = Some [mkFolderNode "a" "a" [1%nat; 2%nat] "" 0;
          mkFolderNode "b" "a/b" [] "" 0;
          mkFolderNode "c" "a/c" [] "" 0;
          mkFolderNode "q" "q" [] "" 0].
Proof. vm_compute. reflexivity. Qed.

Lemma forest_structure_witness :
  ∃ st, BuildFolderGraph Filepath.Unix demoPaths "/d" = Some st
    ∧ ∃ m, heap st !! 2%nat = Some m ∧ FullPath m = "a" +:+ "/" +:+ Name m.
Proof.
  destruct (forest_structure Filepath.Unix demoPaths "/d")
    as (st & Hb & _ & _ & _ & _ & Hchild).
  exists st. split; [exact Hb|].
  vm_compute in Hb. injection Hb as <-.
  apply (Hchild 0%nat (mkFolderNode "a" "a" [1%nat; 2%nat] "" 0) 2%nat eq_refl).
  right. left.
Defined.

Lemma root_detection_witness :
  ∃ st, BuildFolderGraph Filepath.Unix demoPaths "/d" = Some st
    ∧ HasParent 0%nat st = false ∧ HasParent 3%nat st = false
    ∧ HasParent 1%nat st ≠ false.
Proof.
  destruct (root_detection Filepath.Unix demoPaths "/d") as (st & Hb & Hroot).
  exists st. split; [exact Hb|].
  vm_compute in Hb. injection Hb as <-.
  split; [|split].
  - by apply (Hroot "a" 0%nat (mkFolderNode "a" "a" [1%nat; 2%nat] "" 0) eq_refl eq_refl).
  - by apply (Hroot "q" 3%nat (mkFolderNode "q" "q" [] "" 0) eq_refl eq_refl).
  - intros Hno.
    by apply (Hroot "a/b" 1%nat (mkFolderNode "b" "a/b" [] "" 0) eq_refl eq_refl) in Hno.
Defined.

Lemma forest_build_idempotent_witness :
  ∃ st st', BuildFolderGraph Filepath.Unix ["/d/a/b/x.json"; "/d/q/w.json"] "/d" = Some st
    ∧ BuildFolderGraph Filepath.Unix ["/d/q/w.json"; "/d/a/b/x.json"] "/d" = Some st'
    ∧ sameForest st st' ∧ childrenDistinct st'.
Proof.
  destruct (forest_build_idempotent Filepath.Unix ["/d/a/b/x.json"; "/d/q/w.json"] "/d")
    as (st & Hb & _ & _ & Hperm).
  destruct (Hperm ["/d/q/w.json"; "/d/a/b/x.json"]) as (st' & Hb' & Hsame & Hd).
  { apply Permutation_swap. }
  by exists st, st'.
Defined.

End GraphExamples.

(** * Further properties of the code *)

Section Fingerprint.

Import Sha256.

Lemma round_length st kw : length st = 8%nat → length (round st kw) = 8%nat.
Proof.
  intros H. do 9 (destruct st as [|? st]; try done).
Qed.

Lemma fold_round_length kws : ∀ st,
  length st = 8%nat → length (fold_left round kws st) = 8%nat.
Proof.
  induction kws as [|kw kws IH]; intros st H; simpl; [done|].
  apply IH. by apply round_length.
Qed.

Lemma compress_length h block : length h = 8%nat → length (compress h block) = 8%nat.
Proof.
  intros H. unfold compress. rewrite length_map, length_combine.
  rewrite fold_round_length by done. lia.
Qed.

Lemma blocks_length fuel : ∀ h bs, length h = 8%nat → length (blocks fuel h bs) = 8%nat.
Proof.
  induction fuel as [|f IH]; intros h bs H; simpl; [done|].
  destruct bs; [done|]. apply IH. by apply compress_length.
Qed.

Lemma flat_map_be_bytes_length (l : list Z) :
  length (flat_map (be_bytes 4) l) = (4 * length l)%nat.
Proof.
  induction l as [|x l IH]; [done|].
  cbn [flat_map]. rewrite length_app, IH. simpl. lia.
Qed.

Lemma Sum256_length content : length (Sum256 content) = 32%nat.
Proof.
  unfold Sum256. rewrite flat_map_be_bytes_length, blocks_length; done.
Qed.

Lemma EncodeToString_length bs :
  String.length (EncodeToString bs) = (2 * length bs)%nat.
Proof. induction bs as [|b bs IH]; simpl; [done|]. rewrite IH. lia. Qed.

Lemma hexdigit_hex n : In (hexdigit n) (list_ascii_of_string "0123456789abcdef").
Proof.
  unfold hexdigit.
  destruct (Nat.lt_ge_cases (Z.to_nat n) 16) as [Hlt|Hge].
  - apply nth_In. simpl. lia.
  - rewrite nth_overflow by (simpl; lia). simpl. by left.
Qed.

Lemma EncodeToString_hex bs ch :
  In ch (list_ascii_of_string (EncodeToString bs)) →
  In ch (list_ascii_of_string "0123456789abcdef").
Proof.
  induction bs as [|b bs IH]; simpl; [done|].
  intros [<-|[<-|H]]; [apply hexdigit_hex|apply hexdigit_hex|by apply IH].
Qed.

(** X4. The fingerprint of a content is a string of sixty-four characters,
    each a digit or a letter from [a] to [f]. *)
Theorem computeFileHash_format (content : list Byte.byte) :
  String.length (Sync.computeFileHash content) = 64%nat
  ∧ ∀ ch, In ch (list_ascii_of_string (Sync.computeFileHash content)) →
          In ch (list_ascii_of_string "0123456789abcdef").
Proof.
  unfold Sync.computeFileHash. split.
  - by rewrite EncodeToString_length, Sum256_length.
  - apply EncodeToString_hex.
Qed.

End Fingerprint.

Section ChangeCycles.

Import Sync.

Lemma GetChangedFiles_loop_config fs l : ∀ changed s,
  let s' := (GetChangedFiles_loop fs l changed s).2 in
  repoDir s' = repoDir s ∧ repoSubdir s' = repoSubdir s
  ∧ dashboardsDir s' = dashboardsDir s.
Proof.
  induction l as [|p l IH]; intros changed s; simpl; [done|].
  destruct (fs p) as [content|]; [|apply IH].
  pose proof (HasFileChanged_config s p content) as Hc.
  destruct (HasFileChanged s p content) as [b s1]. simpl in Hc.
  destruct (IH (if b then changed ++ [p] else changed) s1) as (H1 & H2 & H3).
  destruct Hc as (? & ? & ?). simpl. split_and!; congruence.
Qed.

Lemma Service_eq (s1 s2 : Service) :
  repoDir s1 = repoDir s2 → repoSubdir s1 = repoSubdir s2 →
  dashboardsDir s1 = dashboardsDir s2 → fileHashes s1 = fileHashes s2 → s1 = s2.
Proof. destruct s1, s2. simpl. by intros -> -> -> ->. Qed.

Lemma GetChangedFiles_again (fs : FileSystem) (s : Service) (allFiles : list string) :
  GetChangedFiles fs (GetChangedFiles fs s allFiles).2 allFiles
  = (([], None), (GetChangedFiles fs s allFiles).2).
Proof.
  unfold GetChangedFiles.
  destruct (GetChangedFiles_loop_spec fs allFiles [] s) as (res & Hres & _ & _ & _ & _ & Ht).
  destruct (GetChangedFiles_loop fs allFiles [] s) as [changed s1] eqn:E1.
  simpl in *.
  destruct (GetChangedFiles_loop_spec fs allFiles [] s1)
    as (res2 & Hres2 & _ & _ & Hmem2 & _ & Ht2).
  pose proof (GetChangedFiles_loop_config fs allFiles [] s1) as Hcfg2.
  destruct (GetChangedFiles_loop fs allFiles [] s1) as [changed2 s2] eqn:E2.
  simpl in *. subst changed2.
  assert (res2 = []) as ->.
  { destruct res2 as [|p res2]; [done|]. exfalso.
    destruct (proj1 (Hmem2 p)) as [Hin Hch]; [by left|].
    unfold changedAt in Hch. specialize (Ht p).
    destruct (fs p) as [content|]; [|done].
    rewrite bool_decide_eq_true_2 in Ht by done.
    apply bool_decide_eq_true in Hch. done. }
  do 2 f_equal. apply Service_eq; try (by destruct Hcfg2 as (?&?&?)).
  apply map_eq. intros p. rewrite Ht2. specialize (Ht p).
  destruct (fs p) as [content|]; [|done]. case_bool_decide; [|done]. done.
Qed.

(** X3. Two poll cycles.  The second run of [GetChangedFiles] over the same
    files reports nothing and leaves the service as it is when no content
    has changed; and when the contents may have changed, a file that both
    runs can read is reported by the second one exactly when the
    fingerprints of its two contents differ.  The directories of the
    service are never touched. *)
Theorem change_detection_cycles (fs : FileSystem) (s : Service) (allFiles : list string) :
  let r := GetChangedFiles fs s allFiles in
  GetChangedFiles fs r.2 allFiles = (([], None), r.2)
  ∧ (repoDir r.2, repoSubdir r.2, dashboardsDir r.2)
    = (repoDir s, repoSubdir s, dashboardsDir s)
  ∧ (∀ fs2 p content content2,
       p ∈ allFiles → fs p = Some content → fs2 p = Some content2 →
       (p ∈ (GetChangedFiles fs2 r.2 allFiles).1.1
        ↔ computeFileHash content ≠ computeFileHash content2)).
Proof.
  intros r. subst r. unfold GetChangedFiles.
  destruct (GetChangedFiles_loop_spec fs allFiles [] s) as (res & Hres & _ & _ & _ & _ & Ht).
  pose proof (GetChangedFiles_loop_config fs allFiles [] s) as Hcfg.
  destruct (GetChangedFiles_loop fs allFiles [] s) as [changed s1] eqn:E1.
  pose proof (GetChangedFiles_again fs s allFiles) as Hagain.
  unfold GetChangedFiles in Hagain. rewrite E1 in Hagain.
  simpl in *. split_and!.
  - exact Hagain.
  - destruct Hcfg as (-> & -> & ->). done.
  - intros fs2 p content content2 Hin Hp Hp2.
    destruct (GetChangedFiles_loop_spec fs2 allFiles [] s1)
      as (res2 & Hres2 & _ & _ & Hmem2 & _).
    destruct (GetChangedFiles_loop fs2 allFiles [] s1) as [changed2 s2] eqn:E2.
    simpl in *. subst changed2. rewrite Hmem2. unfold changedAt. rewrite Hp2.
    specialize (Ht p). rewrite Hp, bool_decide_eq_true_2 in Ht by done.
    rewrite Ht. split.
    + intros [_ Hd]. apply bool_decide_eq_true in Hd. congruence.
    + intros Hd. split; [done|]. apply bool_decide_eq_true. congruence.
Qed.

End ChangeCycles.

Section UniqueFolders.

Import Sync.

Variable P : Filepath.Platform.

Lemma GetUniqueFolders_loop_spec (s : Service) (dashboardFiles : list string) :
  ∀ (folderSet : gmap string bool) (folders : list string),
  (∀ k, default false (folderSet !! k) = true ↔ k ∈ folders) →
  NoDup folders →
  let res := GetUniqueFolders_loop P s dashboardFiles folderSet folders in
  NoDup res
  ∧ (∀ k, k ∈ res ↔
          k ∈ folders
          ∨ (k ≠ "" ∧ ∃ file, file ∈ dashboardFiles ∧ detectFolderFromPath P s file = k))
  ∧ (∃ more, res = folders ++ more ∧ (length more ≤ length dashboardFiles)%nat).
Proof.
  induction dashboardFiles as [|file rest IH]; intros folderSet folders Hset Hnd; simpl.
  - split; [done|]. split.
    + intros k. split; [by left|]. intros [?|(_ & f & Hf & _)]; [done|].
      by apply elem_of_nil in Hf.
    + exists []. by rewrite app_nil_r.
  - set (k0 := detectFolderFromPath P s file).
    destruct (negb (bool_decide (k0 = "")) && negb (default false (folderSet !! k0)))
      eqn:Hnew.
    + apply andb_true_iff in Hnew as [Hne Hfresh].
      apply negb_true_iff, bool_decide_eq_false in Hne.
      apply negb_true_iff in Hfresh.
      assert (Hnot : k0 ∉ folders).
      { intros Hin. apply Hset in Hin. congruence. }
      destruct (IH (<[k0 := true]> folderSet) (folders ++ [k0])) as (Hnd' & Hmem & more & Hres & Hlen).
      { intros k. rewrite elem_of_app, list_elem_of_singleton.
        destruct (decide (k = k0)) as [->|Hk].
        - rewrite lookup_insert_eq. simpl. naive_solver.
        - rewrite lookup_insert_ne by done. rewrite Hset. naive_solver. }
      { apply NoDup_app. split; [done|]. split; [|apply NoDup_singleton].
        intros x Hx Hx'. apply list_elem_of_singleton in Hx'. by subst. }
      split; [done|]. split.
      * intros k. rewrite Hmem, elem_of_app, list_elem_of_singleton. split.
        -- intros [[?| ->]|(Hk & f & Hf & Hd)]; [by left| |].
           ++ right. split; [done|]. exists file. split; [by left|done].
           ++ right. split; [done|]. exists f. split; [by right|done].
        -- intros [?|(Hk & f & Hf & Hd)]; [by left; left|].
           apply elem_of_cons in Hf as [->|Hf]; [left; right; by subst k0|].
           right. split; [done|]. by exists f.
      * exists (k0 :: more). rewrite Hres, <- app_assoc. split; [done|]. simpl. lia.
    + destruct (IH folderSet folders Hset Hnd) as (Hnd' & Hmem & more & Hres & Hlen).
      split; [done|]. split.
      * intros k. rewrite Hmem. split.
        -- intros [?|(Hk & f & Hf & Hd)]; [by left|].
           right. split; [done|]. exists f. split; [by right|done].
        -- intros [?|(Hk & f & Hf & Hd)]; [by left|].
           apply elem_of_cons in Hf as [->|Hf]; [|right; split; [done|]; by exists f].
           left. apply Hset. fold k0 in Hd. subst k.
           apply andb_false_iff in Hnew as [Hnew|Hnew].
           ++ apply negb_false_iff, bool_decide_eq_true in Hnew. done.
           ++ by apply negb_false_iff in Hnew.
      * exists more. split; [done|]. lia.
Qed.

Lemma GetUniqueFolders_loop_app (s : Service) (l1 l2 : list string) :
  ∀ folderSet folders,
  (∀ k, default false (folderSet !! k) = true ↔ k ∈ folders) →
  ∃ folderSet',
    (∀ k, default false (folderSet' !! k) = true
          ↔ k ∈ GetUniqueFolders_loop P s l1 folderSet folders)
    ∧ GetUniqueFolders_loop P s (l1 ++ l2) folderSet folders
      = GetUniqueFolders_loop P s l2 folderSet'
          (GetUniqueFolders_loop P s l1 folderSet folders).
Proof.
  induction l1 as [|file rest IH]; intros folderSet folders Hset; simpl.
  - by exists folderSet.
  - set (k0 := detectFolderFromPath P s file).
    destruct (negb (bool_decide (k0 = "")) && negb (default false (folderSet !! k0)));
      [|by apply IH].
    apply IH. intros k. rewrite elem_of_app, list_elem_of_singleton.
    destruct (decide (k = k0)) as [->|Hk].
    + rewrite lookup_insert_eq. simpl. naive_solver.
    + rewrite lookup_insert_ne by done. rewrite Hset. naive_solver.
Qed.

Lemma GetUniqueFolders_elem (s : Service) (dashboardFiles : list string) (k : string) :
  k ∈ GetUniqueFolders P s dashboardFiles ↔
  k ≠ "" ∧ ∃ file, file ∈ dashboardFiles ∧ detectFolderFromPath P s file = k.
Proof.
  destruct (GetUniqueFolders_loop_spec s dashboardFiles ∅ [])
    as (_ & Hmem & _); [|constructor|].
  { intros k'. rewrite lookup_empty. simpl. split; [done|].
    intros H. by apply elem_of_nil in H. }
  unfold GetUniqueFolders. rewrite Hmem. split; [|by right]. intros [H|?]; [|done].
  by apply elem_of_nil in H.
Qed.

(** X1. [GetUniqueFolders] returns every folder once: the result has no
    duplicate and no empty string, it holds exactly the non-empty folders
    that [detectFolderFromPath] gives for the files, it is no longer than
    the list of files, and the folders come in the order in which the
    files first show them, so that more files only add folders at the
    end. *)
Theorem GetUniqueFolders_spec (s : Service) (dashboardFiles : list string) :
  NoDup (GetUniqueFolders P s dashboardFiles)
  ∧ (∀ k, k ∈ GetUniqueFolders P s dashboardFiles ↔
          k ≠ "" ∧ ∃ file, file ∈ dashboardFiles ∧ detectFolderFromPath P s file = k)
  ∧ (length (GetUniqueFolders P s dashboardFiles) ≤ length dashboardFiles)%nat
  ∧ (∀ more, ∃ added,
       GetUniqueFolders P s (dashboardFiles ++ more)
       = GetUniqueFolders P s dashboardFiles ++ added
       ∧ ∀ k, k ∈ added → k ∉ GetUniqueFolders P s dashboardFiles).
Proof.
  assert (Hempty : ∀ k, default false ((∅ : gmap string bool) !! k) = true ↔ k ∈ @nil string).
  { intros k. rewrite lookup_empty. simpl. split; [done|]. intros H. by apply elem_of_nil in H. }
  destruct (GetUniqueFolders_loop_spec s dashboardFiles ∅ [] Hempty (NoDup_nil_2))
    as (Hnd & Hmem & more & Hres & Hlen).
  unfold GetUniqueFolders. split; [done|]. split.
  { intros k. rewrite Hmem. split; [|by right]. intros [H|?]; [|done].
    by apply elem_of_nil in H. }
  split.
  { rewrite Hres. simpl. lia. }
  intros extra.
  destruct (GetUniqueFolders_loop_app s dashboardFiles extra ∅ [] Hempty)
    as (set' & Hset' & ->).
  destruct (GetUniqueFolders_loop_spec s extra set' _ Hset' Hnd)
    as (Hnd2 & _ & added & Hres2 & _).
  exists added. split; [done|]. intros k Hk Hin.
  rewrite Hres2 in Hnd2. apply NoDup_app in Hnd2 as (_ & Hdisj & _).
  by apply (Hdisj k).
Qed.

End UniqueFolders.

Section FoldersAndGraph.

Import Sync.

Variable P : Filepath.Platform.

Lemma Rel_error_empty basepath targpath :
  (Filepath.Rel P basepath targpath).2 ≠ None →
  (Filepath.Rel P basepath targpath).1 = "".
Proof.
  unfold Filepath.Rel. case_bool_decide; [done|].
  destruct (negb _); [done|].
  destruct (Filepath.relLoop _ _) as [[b t] differ].
  destruct (differ && _); [done|]. by destruct b.
Qed.

Lemma ToSlash_empty : Filepath.ToSlash P "" = "".
Proof. unfold Filepath.ToSlash. by destruct (Ascii.eqb _ _). Qed.

(** The segments that the graph builder cuts for a file are those of the
    folder that the classifier gives for it. *)
Lemma partsOf_detect (s : Service) (path : string) :
  partsOf P (dashboardsDir s) path
  = if bool_decide (detectFolderFromPath P s path = "") then []
    else Strings.Split (detectFolderFromPath P s path) "/".
Proof.
  unfold partsOf, relOf, detectFolderFromPath.
  pose proof (Rel_error_empty (dashboardsDir s) (Filepath.Dir P path)) as He.
  destruct (Filepath.Rel P (dashboardsDir s) (Filepath.Dir P path)) as [rel [e|]];
    simpl in *.
  - rewrite He by done. rewrite ToSlash_empty. simpl. done.
  - destruct (bool_decide (Filepath.ToSlash P rel = ".")
              || bool_decide (Filepath.ToSlash P rel = "")) eqn:Hr; [done|].
    apply orb_false_iff in Hr as [_ Hr]. apply bool_decide_eq_false in Hr.
    by rewrite bool_decide_eq_false_2.
Qed.

Lemma Join_splitOn c s :
  Strings.Join (Strings.splitOn (Ascii.eqb c) s) (String c "") = s.
Proof.
  induction s as [|a s IH]; [done|]. simpl.
  pose proof (splitOn_not_nil (Ascii.eqb c) s) as Hne.
  destruct (Ascii.eqb c a) eqn:Ea.
  - apply Ascii.eqb_eq in Ea. subst a.
    rewrite Join_cons by done. rewrite IH. by rewrite append_nil_l, append_cons, append_nil_l.
  - destruct (Strings.splitOn (Ascii.eqb c) s) as [|w ws]; [done|].
    destruct ws as [|w' ws]; simpl in *; [by rewrite IH|].
    rewrite append_cons. by rewrite IH.
Qed.

(** X2. The folders of [GetUniqueFolders] and the graph of [BuildFolderGraph]
    over the same files and base directory: every folder is a key of the
    graph, and every key of the graph is a folder or a prefix of one, cut
    at a slash. *)
Theorem unique_folders_in_graph (s : Service) (dashboardFiles : list string) :
  ∃ st, BuildFolderGraph P dashboardFiles (dashboardsDir s) = Some st
    ∧ (∀ k, k ∈ GetUniqueFolders P s dashboardFiles → is_Some (graph st !! k))
    ∧ (∀ k, is_Some (graph st !! k) →
         ∃ folder i, folder ∈ GetUniqueFolders P s dashboardFiles
                     ∧ (i < length (Strings.Split folder "/"))%nat
                     ∧ k = prefixKey (Strings.Split folder "/") i).
Proof.
  destruct (BuildFolderGraph_spec P (dashboardsDir s) dashboardFiles)
    as (st & Hb & Hwf & _ & Hn & _).
  pose proof (GetUniqueFolders_elem P s dashboardFiles) as Hmem.
  exists st. split; [done|]. split.
  - intros k Hk. apply Hmem in Hk as (Hne & file & Hf & Hd).
    assert (Hnode : hasNode st k
                      (nth (pred (length (Strings.Split k "/"))) (Strings.Split k "/") "")).
    { apply Hn. exists file. split; [done|]. rewrite partsOf_detect, Hd.
      rewrite bool_decide_eq_false_2 by done.
      pose proof (splitOn_not_nil (Ascii.eqb "/") k) as Hnil.
      fold (Strings.Split k "/") in Hnil.
      exists (pred (length (Strings.Split k "/"))).
      destruct (Strings.Split k "/") as [|w ws] eqn:Es; [done|].
      split; [simpl; lia|]. split; [|done].
      unfold prefixKey. rewrite firstn_all2 by (simpl; lia).
      rewrite <- Es. unfold Strings.Split. by rewrite Join_splitOn. }
    destruct Hnode as (p & n & Hg & _). by eexists.
  - intros k [p Hp]. destruct (wf_key st Hwf k p Hp) as (n & Hh & Hfp).
    assert (Hnode : hasNode st k (Name n)) by (by exists p, n).
    apply Hn in Hnode as (file & Hf & i & Hi & Hk & _).
    rewrite partsOf_detect in Hi, Hk.
    case_bool_decide as Hd; [simpl in Hi; lia|].
    exists (detectFolderFromPath P s file), i. split; [|done].
    apply Hmem. split; [done|]. by exists file.
Qed.

End FoldersAndGraph.

Section Forest.

Import Sync.

Lemma visit_unresolved parts i st st' :
  unresolved st → visit parts i st = Some st' → unresolved st'.
Proof.
  intros Hu. unfold visit.
  set (st1 := match graph st !! _ with Some _ => st | None => _ end).
  assert (Hu1 : unresolved st1).
  { subst st1. destruct (graph st !! _); [done|]. intros p n. simpl.
    intros Hp. apply lookup_app_Some in Hp as [Hp|[_ Hp]]; [by eapply Hu|].
    apply list_lookup_singleton_Some in Hp as [_ <-]. done. }
  clearbody st1. destruct i as [|j]; [by intros [= <-]|].
  destruct (graph st1 !! _) as [pp|]; [|done].
  destruct (heap st1 !! pp) as [parent|] eqn:Hpp; [|done].
  destruct (graph st1 !! _) as [cp|]; [|done].
  destruct (existsb _ _); intros [= <-]; [done|].
  intros p n. simpl. intros Hp.
  apply list_lookup_insert_Some in Hp as [(-> & <- & _)|[_ Hp]]; [|by eapply Hu1].
  simpl. by eapply Hu1.
Qed.

Lemma visitAll_unresolved parts indices : ∀ st st',
  unresolved st → visitAll parts indices st = Some st' → unresolved st'.
Proof.
  induction indices as [|i rest IH]; intros st st' Hu; simpl; [by intros [= <-]|].
  destruct (visit parts i st) as [st1|] eqn:Hv; [|done].
  apply IH. by eapply visit_unresolved.
Qed.

Lemma BuildFolderGraph_loop_unresolved P paths baseDir : ∀ st st',
  unresolved st → BuildFolderGraph_loop P paths baseDir st = Some st' → unresolved st'.
Proof.
  induction paths as [|path rest IH]; intros st st' Hu; simpl; [by intros [= <-]|].
  destruct (_ || _); [by apply IH|].
  destruct (visitAll _ _ st) as [st1|] eqn:Hv; [|done].
  apply IH. by eapply visitAll_unresolved.
Qed.

Lemma load_unfold depth h p t :
  load depth h p = Some t →
  ∃ d n cs, depth = S d ∧ h !! p = Some n ∧ mapM (load d h) (Children n) = Some cs
            ∧ t = Node (Name n) (FullPath n) cs (UID n) (ID n).
Proof.
  destruct depth as [|d]; [done|]. simpl.
  destruct (h !! p) as [n|]; [|done].
  destruct (mapM (load d h) (Children n)) as [cs|] eqn:Hm; [|done].
  intros [= <-]. by exists d, n, cs.
Qed.

Lemma load_child depth h p n t q :
  load depth h p = Some t → h !! p = Some n → q ∈ Children n →
  ∃ d tq, load d h q = Some tq ∧ tq ∈ treeChildren t.
Proof.
  intros Hl Hp Hq. apply load_unfold in Hl as (d & n' & cs & -> & Hp' & Hm & ->).
  rewrite Hp in Hp'. inversion Hp'; subst n'.
  apply mapM_Some in Hm. apply list_elem_of_lookup in Hq as [i Hi].
  destruct (Forall2_lookup_l _ _ _ _ _ Hm Hi) as (tq & Hcs & Htq).
  exists d, tq. split; [done|]. simpl. by eapply list_elem_of_lookup_2.
Qed.

Lemma nodesOf_self t : t ∈ nodesOf t.
Proof. destruct t. simpl. by left. Qed.

Lemma nodesOf_child t child : child ∈ treeChildren t → child ∈ nodesOf t.
Proof.
  destruct t as [nm fp cs u i]. simpl. intros Hin. right.
  apply list_elem_of_In, in_flat_map. exists child. split; [by apply list_elem_of_In|].
  apply list_elem_of_In, nodesOf_self.
Qed.

Lemma nodesOf_trans c : ∀ a b, a ∈ nodesOf b → b ∈ nodesOf c → a ∈ nodesOf c.
Proof.
  induction c as [nm fp cs u i IH] using Tree_nested_ind.
  intros a b Ha Hb. simpl in Hb. apply elem_of_cons in Hb as [->|Hb]; [done|].
  simpl. right. apply list_elem_of_In, in_flat_map in Hb as (child & Hc & Hb).
  apply list_elem_of_In, in_flat_map. exists child. split; [done|].
  apply list_elem_of_In. rewrite Forall_forall in IH.
  apply (IH child (proj2 (list_elem_of_In _ _) Hc) a b); [done|by apply list_elem_of_In].
Qed.

Lemma rooted_below st :
  WF st → parented st None →
  ∀ len p n, heap st !! p = Some n → (String.length (FullPath n) < len)%nat →
  ∃ r root, heap st !! r = Some root ∧ hasSlash (FullPath root) = false
    ∧ ∀ d t, load d (heap st) r = Some t →
        ∃ d' tn, load d' (heap st) p = Some tn ∧ tn ∈ nodesOf t.
Proof.
  intros Hwf Hpar. induction len as [|len IH]; intros p n Hp Hlen; [lia|].
  destruct (hasSlash (FullPath n)) eqn:Hs.
  - destruct (Hpar p n Hp Hs) as [?|(q & m & Hq & Hin)]; [done|].
    destruct (wf_child st Hwf q m p Hq Hin) as (n' & Hn' & Hfp).
    rewrite Hp in Hn'. inversion Hn'; subst n'.
    destruct (IH q m Hq) as (r & root & Hr & Hroot & Hbelow).
    { rewrite Hfp, !string_length_append in Hlen. simpl in Hlen. lia. }
    exists r, root. split; [done|]. split; [done|].
    intros d t Hl. destruct (Hbelow d t Hl) as (d' & tm & Hlm & Htm).
    destruct (load_child _ _ _ _ _ _ Hlm Hq Hin) as (d'' & tn & Hln & Htn).
    exists d'', tn. split; [done|].
    eapply nodesOf_trans; [|exact Htm]. by apply nodesOf_child.
  - exists p, n. split; [done|]. split; [done|]. intros d t Hl.
    exists d, t. split; [done|]. apply nodesOf_self.
Qed.

Lemma load_fields depth h p n t :
  load depth h p = Some t → h !! p = Some n →
  treeName t = Name n ∧ treeFullPath t = FullPath n
  ∧ treeUID t = UID n ∧ treeID t = ID n.
Proof.
  intros Hl Hp. apply load_unfold in Hl as (d & n' & cs & -> & Hp' & Hm & ->).
  rewrite Hp in Hp'. by inversion Hp'; subst n'.
Qed.

Lemma no_slash_no_parent st p n :
  WF st → heap st !! p = Some n → hasSlash (FullPath n) = false →
  HasParent p st = false.
Proof.
  intros Hwf Hp Hs. destruct (HasParent p st) eqn:Hhas; [|done].
  apply HasParent_listed in Hhas as (kq & q & m & _ & Hq & Hin).
  destruct (wf_child st Hwf q m p Hq Hin) as (n' & Hn' & Hfp).
  rewrite Hp in Hn'. inversion Hn'; subst n'.
  rewrite Hfp in Hs. unfold hasSlash in Hs.
  rewrite !anyChar_append in Hs. simpl in Hs. by rewrite orb_true_r in Hs.
Qed.

(** X5. The graph of [BuildFolderGraph] is a forest of nodes without
    identifiers.  No node is listed as a child by two nodes; every node
    comes out of the builder with an empty UID and the ID 0; the nodes
    below any node form a finite tree (following [Children] never comes
    back to a node); and every node lies in the tree below a node that
    [HasParent] reports as a root. *)
Theorem built_graph_is_forest (P : Filepath.Platform) (dashboardPaths : list string)
    (baseDir : string) :
  ∃ st, BuildFolderGraph P dashboardPaths baseDir = Some st
    ∧ (∀ p q1 m1 q2 m2, heap st !! q1 = Some m1 → heap st !! q2 = Some m2 →
         p ∈ Children m1 → p ∈ Children m2 → q1 = q2)
    ∧ (∀ p n, heap st !! p = Some n → UID n = "" ∧ ID n = 0)
    ∧ (∀ p n, heap st !! p = Some n →
         ∃ t, load (S (longestPath (heap st))) (heap st) p = Some t
              ∧ treeName t = Name n ∧ treeFullPath t = FullPath n)
    ∧ (∀ p n, heap st !! p = Some n →
         ∃ r t, is_Some (graph st !! treeFullPath t)
           ∧ HasParent r st = false
           ∧ load (S (longestPath (heap st))) (heap st) r = Some t
           ∧ FullPath n ∈ map treeFullPath (nodesOf t)).
Proof.
  destruct (BuildFolderGraph_spec P baseDir dashboardPaths)
    as (st & Hb & Hwf & Hpar & _ & _).
  assert (Hloads : ∀ p n, heap st !! p = Some n →
            ∃ t, load (S (longestPath (heap st))) (heap st) p = Some t
                 ∧ treeName t = Name n ∧ treeFullPath t = FullPath n).
  { intros p n Hp. apply (load_succeeds st Hwf _ p n Hp). lia. }
  exists st. split; [done|]. split_and!.
  - intros p q1 m1 q2 m2 H1 H2 Hin1 Hin2. by eapply (built_graph_one_parent st).
  - eapply BuildFolderGraph_loop_unresolved; [|exact Hb]. by intros p n Hp.
  - done.
  - intros p n Hp.
    destruct (rooted_below st Hwf Hpar (S (String.length (FullPath n))) p n Hp)
      as (r & root & Hr & Hroot & Hbelow); [lia|].
    destruct (Hloads r root Hr) as (t & Hl & _ & Hfp).
    exists r, t. split_and!.
    + rewrite Hfp. rewrite (wf_indexed st Hwf r root Hr). by eexists.
    + by eapply no_slash_no_parent.
    + done.
    + destruct (Hbelow _ t Hl) as (d' & tn & Hln & Htn).
      destruct (load_fields _ _ _ _ _ Hln Hp) as (_ & <- & _).
      apply list_elem_of_fmap. by exists tn.
Qed.

End Forest.

Section FolderQuery.

Import Grafana.

Context {R : Remote}.

(** X6. [getFolderByTitle] sends one GET and leaves the cache alone.  It
    returns an error with the identifier 0 when the request fails, when the
    status is not 200 or when the body cannot be decoded.  Otherwise it
    returns the identifiers of the first folder of the list whose title is
    the one asked for and whose parent is the one asked for (no parent when
    [parentUid] is empty), and [(0, "", nil)] when the list holds no such
    folder; a folder with the right title under another parent is never
    returned. *)
Theorem getFolderByTitle_contract (c : Client) (title parentUid : string) :
  let r := getFolderByTitle c title parentUid in
  let resp := (doGetFolders (world c) parentUid).2 in
  calls r.1 = calls c ++ [CallGet parentUid resp]
  ∧ folders r.1 = folders c
  ∧ (r.2.2 ≠ None → r.2.1 = (0, ""))
  ∧ (r.2.2 = None ↔ ∃ body l, resp = Http 200 body (inr l))
  ∧ (∀ body l, resp = Http 200 body (inr l) →
       (∀ e, List.find (matches title parentUid) l = Some e →
             r.2 = (entryID e, entryUID e, None)
             ∧ e ∈ l ∧ entryTitle e = title ∧ entryParentUID e = parentUid)
       ∧ (List.find (matches title parentUid) l = None →
          r.2 = (0, "", None)
          ∧ ∀ e, e ∈ l → entryTitle e = title → entryParentUID e ≠ parentUid)).
Proof.
  intros r resp. subst r resp. rewrite getFolderByTitle_unfold. unfold query.
  cbn [fst snd calls folders sent].
  destruct (doGetFolders (world c) parentUid) as [w resp]. cbn [fst snd].
  split; [done|]. split; [done|].
  destruct resp as [err|statusCode body [err|l]]; simpl.
  - split_and!; [done| |done]. split; [done|]. by intros (? & ? & ?).
  - destruct (statusCode =? 200) eqn:Es; simpl;
      (split_and!; [done| |done]); (split; [done|]); by intros (? & ? & ?).
  - destruct (statusCode =? 200) eqn:Es; simpl.
    + apply Z.eqb_eq in Es. subst statusCode. rewrite findFolder_find.
      split_and!.
      * by destruct (List.find _ l).
      * split; [eauto|]. intros _. by destruct (List.find _ l).
      * intros body' l' Heq. inversion Heq; subst. split.
        -- intros e He. rewrite He. split; [done|].
           apply find_some in He as [Hin Hm]. unfold matches in Hm.
           apply andb_true_iff in Hm as [H1 H2].
           apply bool_decide_eq_true in H1, H2. split_and!; try done.
           by apply list_elem_of_In.
        -- intros Hnone. rewrite Hnone. split; [done|]. intros e Hin Ht Hp.
           apply list_elem_of_In in Hin.
           pose proof (find_none _ _ Hnone e Hin) as Hm. unfold matches in Hm.
           rewrite !bool_decide_eq_true_2 in Hm by done. done.
    + split_and!; [done| |].
      * split; [done|]. intros (b & l' & Heq). inversion Heq; subst. done.
      * intros b l' Heq. inversion Heq; subst. done.
Qed.

End FolderQuery.

Section NormalPaths.

Import Grafana.

Lemma splitFolderPath_clean path : Forall cleanSegment (splitFolderPath path).
Proof.
  rewrite splitFolderPath_spec. apply Forall_forall. intros seg Hin.
  apply list_elem_of_filter in Hin as [[H1 H2] Hin].
  pose proof (splitOn_pieces isSep path) as Hp. rewrite Forall_forall in Hp.
  unfold cleanSegment. split_and!; [done|done|]. by apply Hp.
Qed.

Lemma splitFolderPath_Join segs :
  Forall cleanSegment segs → splitFolderPath (Strings.Join segs "/") = segs.
Proof.
  intros Hc. rewrite splitFolderPath_spec. destruct segs as [|s segs]; [done|].
  rewrite (splitOn_Join isSep "/"); [|done|done|].
  - induction Hc as [|x l (H1 & H2 & _) _ IH]; [done|].
    rewrite filter_cons_True by done. by rewrite IH.
  - eapply Forall_impl; [exact Hc|]. by intros x (_ & _ & H).
Qed.


End NormalPaths.

Section FolderClient.

Import Grafana.

Context {R : Remote}.

Lemma after_refl c : after 0 c c.
Proof.
  repeat split; try done. exists []. by rewrite app_nil_r.
Qed.

Lemma after_trans n m c1 c2 c3 :
  after n c1 c2 → after m c2 c3 → after (n + m) c1 c3.
Proof.
  intros (?&?&?&?&Hk&new&Hc&Hl&Hp) (?&?&?&?&Hk'&new'&Hc'&Hl'&Hp').
  repeat split; try congruence.
  - intros q Hq. by apply Hk', Hk.
  - exists (new ++ new'). rewrite Hc', Hc, <- app_assoc. split; [done|].
    rewrite List.filter_app, !length_app. lia.
Qed.

Lemma after_weaken n m c c' : (n ≤ m)%nat → after n c c' → after m c c'.
Proof.
  intros Hnm (?&?&?&?&Hk&new&Hc&Hl&Hp). repeat split; try done.
  exists new. repeat split; [done|lia|lia].
Qed.

Lemma ensureFolder_after c name path parentUid :
  after 1 c (ensureFolder c name path parentUid).1.
Proof.
  pose proof (ensureFolder_cache c name path parentUid) as Hcache. simpl in Hcache.
  destruct Hcache as (new0 & Hnew0 & Hf).
  assert (Hkeys : ∀ q, is_Some (folders c !! q) →
                       is_Some (folders (ensureFolder c name path parentUid).1 !! q)).
  { intros q Hq. destruct (ensureFolder c name path parentUid).2 as [e|[id uid]].
    - by rewrite Hf.
    - destruct Hf as [-> _]. destruct (decide (q = path)) as [->|Hne].
      + rewrite lookup_insert_eq. by eexists.
      + by rewrite lookup_insert_ne. }
  clear Hnew0 Hf.
  unfold after.
  destruct (ensureFolder_outcome c name path parentUid);
    cbn [fst snd calls sent set_folders url token user password folders] in *;
    (split_and!; try done);
    rewrite <- ?app_assoc; eexists; (split; [reflexivity|]); simpl; lia.
Qed.

Lemma walkChildren_after (visit : Sync.Tree → Client → Client * Sync.Tree * option string)
    (children : list Sync.Tree) :
  Forall (fun child => ∀ c, after (length (nodesOf child)) c (visit child c).1.1) children →
  ∀ c, after (length (List.flat_map nodesOf children)) c
             (walkChildren visit children c).1.1.
Proof.
  induction 1 as [|child children Hchild _ IH]; intros c; simpl; [apply after_refl|].
  specialize (Hchild c). rewrite length_app.
  destruct (visit child c) as [[c1 child'] [e|]]; simpl in *.
  { eapply after_weaken; [|exact Hchild]. lia. }
  specialize (IH c1). destruct (walkChildren visit children c1) as [[c2 rest'] err].
  simpl in *. by eapply after_trans.
Qed.

Lemma CreateFolderTreeFromNode_after node : ∀ parentUid c,
  after (length (nodesOf node)) c (CreateFolderTreeFromNode node parentUid c).1.1.
Proof.
  induction node as [name fullPath children uid id IH] using Tree_nested_ind.
  intros parentUid c. rewrite CreateFolderTreeFromNode_unfold.
  pose proof (ensureFolder_after c name fullPath parentUid) as He.
  destruct (ensureFolder c name fullPath parentUid) as [c1 [e|[newID currentUID]]];
    simpl in He |- *.
  { eapply after_weaken; [|exact He]. lia. }
  assert (Hw := walkChildren_after
                  (fun child => CreateFolderTreeFromNode child currentUID) children).
  destruct (walkChildren _ children c1) as [[c2 children'] err] eqn:Ew.
  simpl. replace c2 with (walkChildren
           (fun child => CreateFolderTreeFromNode child currentUID) children c1).1.1
    by (by rewrite Ew).
  apply (after_trans 1 _ c c1); [done|].
  apply Hw. rewrite Forall_forall in IH |- *. intros child Hin c'. by apply IH.
Qed.

Lemma createFolderRecursive_loop_after parts : ∀ currentPath folderID currentUID c,
  after (length parts) c
        (createFolderRecursive_loop parts currentPath folderID currentUID c).1.
Proof.
  induction parts as [|name rest IH]; intros currentPath folderID currentUID c; simpl.
  { apply after_refl. }
  set (cp := if bool_decide (currentPath = "") then name
             else currentPath +:+ "/" +:+ name).
  pose proof (ensureFolder_after c name cp currentUID) as He.
  destruct (ensureFolder c name cp currentUID) as [c1 [e|[newID newUID]]]; simpl in He |- *.
  { eapply after_weaken; [|exact He]. lia. }
  apply (after_trans 1 _ c c1); [done|]. apply IH.
Qed.

Lemma CreateFolderTree_after c folderPath :
  after (length (splitFolderPath folderPath)) c (CreateFolderTree c folderPath).1.
Proof.
  unfold CreateFolderTree. destruct (folders c !! folderPath) as [id|].
  { eapply after_weaken; [|apply after_refl]. lia. }
  unfold createFolderRecursive.
  destruct (length (splitFolderPath folderPath) =? 0)%nat.
  { eapply after_weaken; [|apply after_refl]. lia. }
  apply createFolderRecursive_loop_after.
Qed.

Lemma queried_refl c : queried 0 c c.
Proof. exists []. split; [by rewrite app_nil_r|]. unfold getsIn. simpl. lia. Qed.

Lemma queried_trans n m c1 c2 c3 :
  queried n c1 c2 → queried m c2 c3 → queried (n + m) c1 c3.
Proof.
  intros (new & Hc & Hl) (new' & Hc' & Hl'). exists (new ++ new').
  rewrite Hc', Hc, <- app_assoc. split; [done|].
  unfold getsIn in *. rewrite List.filter_app, length_app. lia.
Qed.

Lemma queried_weaken n m c c' : (m ≤ n)%nat → queried n c c' → queried m c c'.
Proof. intros Hnm (new & Hc & Hl). exists new. split; [done|lia]. Qed.

Lemma ensureFolder_queried c name path parentUid :
  queried 1 c (ensureFolder c name path parentUid).1.
Proof.
  unfold queried, getsIn.
  destruct (ensureFolder_outcome c name path parentUid);
    cbn [fst snd calls sent set_folders];
    rewrite <- ?app_assoc; eexists; (split; [reflexivity|]); simpl; lia.
Qed.

Lemma walkChildren_queried (visit : Sync.Tree → Client → Client * Sync.Tree * option string)
    (children : list Sync.Tree) :
  Forall (fun child => ∀ c c1 child1, visit child c = (c1, child1, None) →
                       queried (length (nodesOf child)) c c1) children →
  ∀ c c1 children1, walkChildren visit children c = (c1, children1, None) →
    queried (length (List.flat_map nodesOf children)) c c1.
Proof.
  induction 1 as [|child children Hchild _ IH]; intros c c1 children1 Hw; simpl in *.
  { inversion Hw; subst. apply queried_refl. }
  rewrite length_app.
  destruct (visit child c) as [[c2 child'] [e|]] eqn:Ev; [done|].
  destruct (walkChildren visit children c2) as [[c3 rest'] err] eqn:Er.
  inversion Hw; subst. eapply queried_trans; eauto.
Qed.

Lemma CreateFolderTreeFromNode_queried node : ∀ parentUid c c1 node1,
  CreateFolderTreeFromNode node parentUid c = (c1, node1, None) →
  queried (length (nodesOf node)) c c1.
Proof.
  induction node as [name fullPath children uid id IH] using Tree_nested_ind.
  intros parentUid c c1 node1. rewrite CreateFolderTreeFromNode_unfold.
  pose proof (ensureFolder_queried c name fullPath parentUid) as He.
  destruct (ensureFolder c name fullPath parentUid) as [c2 [e|[newID currentUID]]];
    [done|].
  assert (Hw := walkChildren_queried
                  (fun child => CreateFolderTreeFromNode child currentUID) children).
  destruct (walkChildren _ children c2) as [[c3 children'] err] eqn:Ew.
  intros Heq. inversion Heq; subst. simpl.
  apply (queried_trans 1 _ c c2); [done|].
  eapply Hw; [|done]. rewrite Forall_forall in IH |- *.
  intros child Hin c' c1' child1 Hc. by eapply IH.
Qed.

Lemma CreateFolderTreeFromNode_first node parentUid c :
  queried 1 c (CreateFolderTreeFromNode node parentUid c).1.1.
Proof.
  destruct node as [name fullPath children uid id].
  rewrite CreateFolderTreeFromNode_unfold.
  pose proof (ensureFolder_queried c name fullPath parentUid) as He.
  pose proof (CreateFolderTreeFromNode_after (Sync.Node name fullPath children uid id)
                parentUid c) as Ha.
  rewrite CreateFolderTreeFromNode_unfold in Ha.
  destruct (ensureFolder c name fullPath parentUid) as [c2 [e|[newID currentUID]]];
    [done|].
  assert (Hw := walkChildren_after
                  (fun child => CreateFolderTreeFromNode child currentUID) children).
  destruct (walkChildren _ children c2) as [[c3 children'] err] eqn:Ew.
  simpl in *.
  assert (Hafter : after (length (List.flat_map nodesOf children)) c2 c3).
  { replace c3 with (walkChildren
           (fun child => CreateFolderTreeFromNode child currentUID) children c2).1.1
      by (by rewrite Ew).
    apply Hw. rewrite Forall_forall. intros child _ c'.
    apply CreateFolderTreeFromNode_after. }
  destruct Hafter as (_&_&_&_&_&new&Hc&_).
  apply (queried_trans 1 0 c c2 c3); [done|].
  exists new. split; [done|lia].
Qed.

Lemma createFolderRecursive_loop_queried parts : ∀ currentPath folderID currentUID c c1 id,
  createFolderRecursive_loop parts currentPath folderID currentUID c = (c1, (id, None)) →
  queried (length parts) c c1.
Proof.
  induction parts as [|name rest IH]; intros currentPath folderID currentUID c c1 id;
    simpl.
  { intros Heq. inversion Heq; subst. apply queried_refl. }
  set (cp := if bool_decide (currentPath = "") then name
             else currentPath +:+ "/" +:+ name).
  pose proof (ensureFolder_queried c name cp currentUID) as He.
  destruct (ensureFolder c name cp currentUID) as [c2 [e|[newID newUID]]]; [done|].
  intros Heq. apply (queried_trans 1 _ c c2); [done|]. by eapply IH.
Qed.

(** X8. A walk over a node sends at least one and at most three requests for
    each node, at most one of them a creation; a walk that returns nil has
    sent an existence query for every node.  [CreateFolderTree] sends
    nothing when the path is a key of the cache, and otherwise stays within
    the same bounds for the segments of the path. *)
Theorem request_bounds :
  (∀ node parentUid c,
     let r := CreateFolderTreeFromNode node parentUid c in
     ∃ new, calls r.1.1 = calls c ++ new
       ∧ (1 ≤ getsIn new)%nat
       ∧ (length new ≤ 3 * length (nodesOf node))%nat
       ∧ (length (List.filter isPost new) ≤ length (nodesOf node))%nat
       ∧ (r.2 = None → (length (nodesOf node) ≤ getsIn new)%nat))
  ∧ (∀ c folderPath,
       let r := CreateFolderTree c folderPath in
       ∃ new, calls r.1 = calls c ++ new
         ∧ (length new ≤ 3 * length (splitFolderPath folderPath))%nat
         ∧ (length (List.filter isPost new) ≤ length (splitFolderPath folderPath))%nat
         ∧ (is_Some (folders c !! folderPath) → new = [])
         ∧ (folders c !! folderPath = None → r.2.2 = None →
            (length (splitFolderPath folderPath) ≤ getsIn new)%nat)).
Proof.
  split.
  - intros node parentUid c r.
    destruct (CreateFolderTreeFromNode_after node parentUid c)
      as (_&_&_&_&_&new&Hc&Hl&Hp).
    exists new. split; [done|].
    destruct (CreateFolderTreeFromNode_first node parentUid c) as (new1 & Hc1 & Hl1).
    assert (new1 = new) as -> by (eapply app_inv_head; by rewrite <- Hc, <- Hc1).
    split_and!; try done.
    intros Hnone. destruct r as [[c1 node1] err] eqn:Er. simpl in Hnone. subst err.
    destruct (CreateFolderTreeFromNode_queried node parentUid c c1 node1 Er)
      as (new2 & Hc2 & Hl2).
    subst r. rewrite Er in Hc. simpl in Hc.
    assert (new2 = new) as -> by (eapply app_inv_head; by rewrite <- Hc, <- Hc2).
    done.
  - intros c folderPath r.
    destruct (CreateFolderTree_after c folderPath) as (_&_&_&_&_&new&Hc&Hl&Hp).
    exists new. split_and!; try done.
    + intros [id Hid]. subst r. unfold CreateFolderTree in Hc. rewrite Hid in Hc.
      simpl in Hc. apply (app_inv_head (calls c)). by rewrite app_nil_r.
    + intros Hmiss Hnone. subst r. unfold CreateFolderTree in *. rewrite Hmiss in *.
      unfold createFolderRecursive in *.
      destruct (length (splitFolderPath folderPath) =? 0)%nat eqn:El; [done|].
      destruct (createFolderRecursive_loop _ _ _ _ c) as [c1 [id err]] eqn:Er.
      simpl in *. subst err.
      destruct (createFolderRecursive_loop_queried _ _ _ _ _ _ _ Er) as (new2 & Hc2 & Hl2).
      assert (new2 = new) as -> by (eapply app_inv_head; by rewrite <- Hc, <- Hc2).
      done.
Qed.

(** X9. Neither entry point changes the address or the credentials of the
    client, and neither removes a key from the cache: an entry can be
    overwritten, never dropped. *)
Theorem cache_keys_kept :
  (∀ node parentUid c,
     let c' := (CreateFolderTreeFromNode node parentUid c).1.1 in
     (url c', token c', user c', password c') = (url c, token c, user c, password c)
     ∧ dom (folders c) ⊆ dom (folders c'))
  ∧ (∀ c folderPath,
       let c' := (CreateFolderTree c folderPath).1 in
       (url c', token c', user c', password c') = (url c, token c, user c, password c)
       ∧ dom (folders c) ⊆ dom (folders c')).
Proof.
  split.
  - intros node parentUid c c'. subst c'.
    destruct (CreateFolderTreeFromNode_after node parentUid c) as (->&->&->&->&Hk&_).
    split; [done|]. intros q Hq. apply elem_of_dom. apply Hk. by apply elem_of_dom.
  - intros c folderPath c'. subst c'.
    destruct (CreateFolderTree_after c folderPath) as (->&->&->&->&Hk&_).
    split; [done|]. intros q Hq. apply elem_of_dom. apply Hk. by apply elem_of_dom.
Qed.

End FolderClient.

Section WalkCache.

Import Grafana.

Context {R : Remote}.

Lemma skeleton_fields t :
  Sync.treeName (skeleton t) = Sync.treeName t
  ∧ Sync.treeFullPath (skeleton t) = Sync.treeFullPath t.
Proof. by destruct t. Qed.

Lemma ensureFolder_write c name path parentUid c1 id uid :
  ensureFolder c name path parentUid = (c1, inr (id, uid)) →
  folders c1 = <[path := id]> (folders c).
Proof.
  intros He. pose proof (ensureFolder_cache c name path parentUid) as H.
  rewrite He in H. simpl in H. by destruct H as (_ & _ & -> & _).
Qed.

Lemma walkChildren_writes (visit : Sync.Tree → Client → Client * Sync.Tree * option string)
    (children : list Sync.Tree) :
  Forall (fun child => ∀ c c1 child1, visit child c = (c1, child1, None) →
            folders c1 = applyWrites (folders c) (writesOf child1)
            ∧ skeleton child1 = skeleton child) children →
  ∀ c c1 children1, walkChildren visit children c = (c1, children1, None) →
    folders c1 = applyWrites (folders c) (List.flat_map writesOf children1)
    ∧ map skeleton children1 = map skeleton children.
Proof.
  induction 1 as [|child children Hchild _ IH]; intros c c1 children1 Hw; simpl in *.
  { by inversion Hw; subst. }
  destruct (visit child c) as [[c2 child'] [e|]] eqn:Ev; [done|].
  destruct (walkChildren visit children c2) as [[c3 rest'] err] eqn:Er.
  inversion Hw; subst.
  destruct (Hchild _ _ _ Ev) as [Hf Hs]. destruct (IH _ _ _ Er) as [Hf' Hs'].
  simpl. rewrite applyWrites_app, <- Hf, Hf', Hs, Hs'. done.
Qed.

(** A walk that returns nil has written the identifier of every node under
    the node's full path, in the order of the walk, and has changed nothing
    of the tree but the identifiers. *)
Lemma CreateFolderTreeFromNode_writes node : ∀ parentUid c c1 node1,
  CreateFolderTreeFromNode node parentUid c = (c1, node1, None) →
  folders c1 = applyWrites (folders c) (writesOf node1)
  ∧ skeleton node1 = skeleton node.
Proof.
  induction node as [name fullPath children uid id IH] using Tree_nested_ind.
  intros parentUid c c1 node1. rewrite CreateFolderTreeFromNode_unfold.
  destruct (ensureFolder c name fullPath parentUid) as [c2 [e|[newID currentUID]]] eqn:He;
    [done|].
  apply ensureFolder_write in He.
  assert (Hw := walkChildren_writes
                  (fun child => CreateFolderTreeFromNode child currentUID) children).
  destruct (walkChildren _ children c2) as [[c3 children'] err] eqn:Ew.
  intros Heq. inversion Heq; subst.
  destruct (Hw) with (c := c2) (c1 := c1) (children1 := children') as [Hf Hs]; [|done|].
  { rewrite Forall_forall in IH |- *. intros child Hin c' c1' child1 Hc. by eapply IH. }
  split.
  - unfold writesOf. simpl. rewrite Hf, He. f_equal.
    clear. induction children' as [|x l IHl]; simpl; [done|].
    by rewrite map_app, IHl.
  - simpl. by rewrite Hs.
Qed.

Lemma applyWrites_other ws : ∀ (m : gmap string Z) k,
  k ∉ map fst ws → applyWrites m ws !! k = m !! k.
Proof.
  induction ws as [|[k' v'] ws IH]; intros m k Hk; [done|].
  simpl in Hk. apply not_elem_of_cons in Hk as [Hne Hk].
  unfold applyWrites in *. simpl. rewrite IH by done. by rewrite lookup_insert_ne.
Qed.

Lemma applyWrites_written ws : ∀ (m : gmap string Z) k v,
  NoDup (map fst ws) → (k, v) ∈ ws → applyWrites m ws !! k = Some v.
Proof.
  induction ws as [|[k' v'] ws IH]; intros m k v Hnd Hin.
  { by apply elem_of_nil in Hin. }
  simpl in Hnd. apply NoDup_cons in Hnd as [Hk' Hnd].
  apply elem_of_cons in Hin as [Heq|Hin].
  - inversion Heq; subst. unfold applyWrites. simpl.
    change (fold_left _ ws ?m) with (applyWrites m ws).
    rewrite applyWrites_other by done. by rewrite lookup_insert_eq.
  - unfold applyWrites. simpl. by apply IH.
Qed.

Lemma nodesOf_skeleton t : nodesOf (skeleton t) = map skeleton (nodesOf t).
Proof.
  induction t as [name fullPath children uid id IH] using Tree_nested_ind.
  simpl. f_equal. induction IH as [|child children Hc _ IHl]; simpl; [done|].
  by rewrite map_app, Hc, IHl.
Qed.

Lemma skeleton_paths t t' :
  skeleton t = skeleton t' →
  map Sync.treeFullPath (nodesOf t) = map Sync.treeFullPath (nodesOf t')
  ∧ map Sync.treeName (nodesOf t) = map Sync.treeName (nodesOf t').
Proof.
  intros Hs.
  assert (H : ∀ u, map Sync.treeFullPath (nodesOf u)
                   = map Sync.treeFullPath (nodesOf (skeleton u))
                 ∧ map Sync.treeName (nodesOf u)
                   = map Sync.treeName (nodesOf (skeleton u))).
  { intros u. rewrite nodesOf_skeleton, !map_map. split; apply map_ext; intros a;
      by destruct a. }
  destruct (H t) as [-> ->]. destruct (H t') as [-> ->]. by rewrite Hs.
Qed.

(** X10. A walk that returns nil over a tree whose full paths are pairwise
    distinct leaves names and paths as they were and the cache with the
    identifier of every node under the node's full path, which is what
    [GetFolderIDByPath] then returns for it. *)
Theorem walk_fills_cache (node : Sync.Tree) (parentUid : string) (c c1 : Client)
    (node1 : Sync.Tree) :
  CreateFolderTreeFromNode node parentUid c = (c1, node1, None) →
  NoDup (map Sync.treeFullPath (nodesOf node)) →
  map Sync.treeFullPath (nodesOf node1) = map Sync.treeFullPath (nodesOf node)
  ∧ map Sync.treeName (nodesOf node1) = map Sync.treeName (nodesOf node)
  ∧ ∀ n, n ∈ nodesOf node1 →
      folders c1 !! Sync.treeFullPath n = Some (Sync.treeID n)
      ∧ (Sync.treeFullPath n ≠ "" → Sync.treeFullPath n ≠ "." →
         GetFolderIDByPath c1 (Sync.treeFullPath n) = Sync.treeID n).
Proof.
  intros Hrun Hnd. destruct (CreateFolderTreeFromNode_writes _ _ _ _ _ Hrun) as [Hf Hs].
  destruct (skeleton_paths _ _ Hs) as [Hp Hn]. split; [done|]. split; [done|].
  intros n Hin.
  assert (Hl : folders c1 !! Sync.treeFullPath n = Some (Sync.treeID n)).
  { rewrite Hf. apply applyWrites_written.
    - replace (map fst (writesOf node1)) with (map Sync.treeFullPath (nodesOf node1))
        by (unfold writesOf; by rewrite map_map).
      by rewrite Hp.
    - unfold writesOf. apply list_elem_of_fmap. by exists n. }
  split; [done|]. intros H1 H2. unfold GetFolderIDByPath.
  rewrite !bool_decide_eq_false_2 by done. simpl. by rewrite Hl.
Qed.

End WalkCache.

Section PathCache.

Import Grafana.

Context {R : Remote}.

Lemma Join_nonEmpty (segs : list string) sep :
  Forall nonEmpty segs → (Strings.Join segs sep = "" ↔ segs = []).
Proof.
  intros Hne. split; [|by intros ->].
  destruct Hne as [|x l Hx _]; [done|]. intros Hj. exfalso.
  destruct l; simpl in Hj; [done|]. destruct x; [done|]. by rewrite append_cons in Hj.
Qed.

(** The keys that [createFolderRecursive] writes are the joined prefixes
    of the segments. *)
Lemma pathSteps_keys parts : ∀ before,
  Forall nonEmpty (before ++ parts) →
  pathSteps (Strings.Join before "/") parts
  = map (fun i => (Strings.Join (before ++ take (S i) parts) "/", nth i parts ""))
        (seq 0 (length parts)).
Proof.
  induction parts as [|name rest IH]; intros before Hne; [done|].
  cbn [pathSteps length seq map].
  assert (Hcp : (if bool_decide (Strings.Join before "/" = "") then name
                 else Strings.Join before "/" +:+ "/" +:+ name)
                = Strings.Join (before ++ [name]) "/").
  { apply Forall_app in Hne as [Hb _]. case_bool_decide as Hj.
    - apply Join_nonEmpty in Hj; [|done]. by subst before.
    - rewrite Join_snoc; [done|]. by intros ->. }
  rewrite Hcp. f_equal.
  rewrite IH by (by rewrite <- app_assoc).
  rewrite <- seq_shift, map_map. apply map_ext. intros i. simpl.
  by rewrite <- app_assoc.
Qed.

Lemma pathSteps_prefixKeys parts :
  Forall nonEmpty parts →
  pathSteps "" parts
  = map (fun i => (prefixKey parts i, nth i parts "")) (seq 0 (length parts)).
Proof. intros Hne. exact (pathSteps_keys parts [] Hne). Qed.

Lemma createFolderRecursive_loop_other parts : ∀ currentPath folderID currentUID c q,
  q ∉ map fst (pathSteps currentPath parts) →
  folders (createFolderRecursive_loop parts currentPath folderID currentUID c).1 !! q
  = folders c !! q.
Proof.
  induction parts as [|name rest IH]; intros currentPath folderID currentUID c q Hq;
    simpl in *; [done|].
  set (cp := if bool_decide (currentPath = "") then name
             else currentPath +:+ "/" +:+ name) in *.
  apply not_elem_of_cons in Hq as [Hne Hq].
  pose proof (ensureFolder_other c name cp currentUID q Hne) as He.
  destruct (ensureFolder c name cp currentUID) as [c2 [e|[newID newUID]]];
    simpl in He |- *; [done|].
  rewrite IH by done. done.
Qed.

Lemma createFolderRecursive_loop_error parts : ∀ currentPath folderID currentUID c,
  let r := createFolderRecursive_loop parts currentPath folderID currentUID c in
  r.2.2 ≠ None → r.2.1 = 0.
Proof.
  induction parts as [|name rest IH]; intros currentPath folderID currentUID c; simpl;
    [done|].
  destruct (ensureFolder c name _ currentUID) as [c2 [e|[newID newUID]]]; [done|].
  apply IH.
Qed.

Lemma createFolderRecursive_loop_last parts : ∀ currentPath folderID currentUID c,
  let r := createFolderRecursive_loop parts currentPath folderID currentUID c in
  r.2.2 = None →
  match last (pathSteps currentPath parts) with
  | Some step => folders r.1 !! step.1 = Some r.2.1
  | None => r = (c, (folderID, None))
  end.
Proof.
  induction parts as [|name rest IH]; intros currentPath folderID currentUID c;
    [done|].
  cbn [pathSteps createFolderRecursive_loop].
  set (cp := if bool_decide (currentPath = "") then name
             else currentPath +:+ "/" +:+ name).
  destruct (ensureFolder c name cp currentUID) as [c2 [e|[newID newUID]]] eqn:He;
    [done|].
  apply ensureFolder_write in He.
  intros Hr. specialize (IH cp newID newUID c2 Hr).
  destruct rest as [|name' rest'].
  - simpl in *. rewrite He. by rewrite lookup_insert_eq.
  - rewrite last_cons.
    destruct (last (pathSteps cp (name' :: rest'))) eqn:El; [done|].
    by apply last_None in El.
Qed.

Lemma createFolderRecursive_loop_keys parts : ∀ currentPath folderID currentUID c,
  let r := createFolderRecursive_loop parts currentPath folderID currentUID c in
  r.2.2 = None →
  ∀ k, k ∈ map fst (pathSteps currentPath parts) → is_Some (folders r.1 !! k).
Proof.
  induction parts as [|name rest IH]; intros currentPath folderID currentUID c.
  { intros r _ k Hk. by apply elem_of_nil in Hk. }
  cbn [pathSteps createFolderRecursive_loop map fst].
  set (cp := if bool_decide (currentPath = "") then name
             else currentPath +:+ "/" +:+ name).
  destruct (ensureFolder c name cp currentUID) as [c2 [e|[newID newUID]]] eqn:He;
    [done|].
  apply ensureFolder_write in He.
  intros Hr k Hk. apply elem_of_cons in Hk as [->|Hk].
  - destruct (createFolderRecursive_loop_after rest cp newID newUID c2)
      as (_&_&_&_&Hkeep&_).
    apply Hkeep. rewrite He, lookup_insert_eq. by eexists.
  - by apply IH.
Qed.

Lemma Join_clean_not_dot segs :
  Forall cleanSegment segs → Strings.Join segs "/" ≠ ".".
Proof.
  intros Hc Hj. destruct Hc as [|x l (H1 & H2 & _) _]; [done|].
  destruct l as [|y l]; simpl in Hj; [done|].
  destruct x as [|a x]; [done|]. rewrite append_cons in Hj.
  inversion Hj as [[Ha Hx]]. apply append_eq_nil in Hx as [_ Hx]. by rewrite append_cons in Hx.
Qed.

Lemma last_pathSteps parts :
  Forall nonEmpty parts → parts ≠ [] →
  ∃ name, last (pathSteps "" parts) = Some (Strings.Join parts "/", name).
Proof.
  intros Hne Hnil. rewrite pathSteps_prefixKeys by done.
  destruct (length parts) as [|n] eqn:El; [by destruct parts|].
  rewrite seq_S, map_app. cbn [map]. rewrite last_snoc. simpl. eexists. do 2 f_equal.
  unfold prefixKey. rewrite firstn_all2 by lia. done.
Qed.

Lemma clean_nonEmpty segs : Forall cleanSegment segs → Forall nonEmpty segs.
Proof. intros H. eapply Forall_impl; [exact H|]. by intros x (? & _). Qed.



End PathCache.

Section PathAsTree.

Import Grafana.

Context {R : Remote}.

Lemma chain_agree parts : ∀ currentPath folderID currentUID c,
  let r := createFolderRecursive_loop parts currentPath folderID currentUID c in
  let w := walkChildren (fun child => CreateFolderTreeFromNode child currentUID)
                        (chainBelow currentPath parts) c in
  r.1 = w.1.1 ∧ r.2.2 = w.2
  ∧ (w.2 = None →
     r.2.1 = match last (List.flat_map nodesOf w.1.2) with
             | Some leaf => Sync.treeID leaf
             | None => folderID
             end).
Proof.
  induction parts as [|name rest IH]; intros currentPath folderID currentUID c; [done|].
  cbn [createFolderRecursive_loop chainBelow walkChildren].
  set (cp := if bool_decide (currentPath = "") then name
             else currentPath +:+ "/" +:+ name).
  rewrite CreateFolderTreeFromNode_unfold.
  destruct (ensureFolder c name cp currentUID) as [c1 [e|[newID newUID]]]; [done|].
  specialize (IH cp newID newUID c1). simpl in IH.
  destruct (walkChildren _ (chainBelow cp rest) c1) as [[c2 children'] err].
  destruct IH as (H1 & H2 & H3). simpl in *.
  destruct err as [e|]; simpl; [done|].
  split_and!; [done|done|]. intros _. rewrite H3 by done. rewrite app_nil_r.
  rewrite last_cons. by destruct (last (List.flat_map nodesOf children')).
Qed.

(** X13. [createFolderRecursive] on a path and [CreateFolderTreeFromNode] on
    the tree that the path stands for send the same requests, leave the
    same client and return the same error; when they return nil, the
    identifier that [createFolderRecursive] returns is the one that the
    walk has written into the deepest node. *)
Theorem path_walk_agree (c : Client) (folderPath parentUID : string) :
  let r := createFolderRecursive c folderPath parentUID in
  match chainBelow "" (splitFolderPath folderPath) with
  | [root] =>
      let w := CreateFolderTreeFromNode root parentUID c in
      r.1 = w.1.1 ∧ r.2.2 = w.2
      ∧ (w.2 = None →
         ∃ leaf, last (nodesOf w.1.2) = Some leaf ∧ r.2.1 = Sync.treeID leaf)
  | _ => r = (c, (0, Some "empty folder path"))
  end.
Proof.
  unfold createFolderRecursive.
  destruct (splitFolderPath folderPath) as [|name rest] eqn:Es; [done|].
  pose proof (chain_agree (name :: rest) "" 0 parentUID c) as H.
  cbn [chainBelow] in *. cbn [walkChildren] in H.
  cbn [length Nat.eqb].
  destruct (CreateFolderTreeFromNode _ parentUID c) as [[c1 root1] err].
  destruct err as [e|]; simpl in *; [by destruct H as (?&?&?)|].
  destruct H as (H1 & H2 & H3). split_and!; [done|done|]. intros _.
  specialize (H3 eq_refl). rewrite H3, app_nil_r.
  destruct (last (nodesOf root1)) as [leaf|] eqn:El.
  - by exists leaf.
  - apply last_None in El. by destruct root1.
Qed.

End PathAsTree.

Section PollCycle.

Import Sync Grafana.

Context {R : Remote}.

Lemma applyWrites_some ws : ∀ (m : gmap string Z) k,
  k ∈ map fst ws → ∃ v, (k, v) ∈ ws ∧ applyWrites m ws !! k = Some v.
Proof.
  intros m k Hk. rewrite applyWrites_lookup.
  destruct (List.find _ (rev ws)) as [w|] eqn:Hf.
  - apply find_some in Hf as [Hin Hw]. apply bool_decide_eq_true in Hw.
    exists w.2. split; [|done]. apply in_rev, list_elem_of_In in Hin.
    destruct w; simpl in *. by subst.
  - exfalso. apply list_elem_of_fmap in Hk as (w & -> & Hin).
    apply list_elem_of_In, in_rev in Hin.
    pose proof (find_none _ _ Hf w Hin) as Hw. simpl in Hw.
    by rewrite bool_decide_eq_true_2 in Hw.
Qed.

Lemma createFolders_spec st entries : ∀ c c' trees,
  createFolders st entries c = Some (c', trees, []) →
  folders c' = applyWrites (folders c) (List.flat_map writesOf trees)
  ∧ ∀ k r t, (k, r) ∈ entries → HasParent r st = false →
      load (S (longestPath (heap st))) (heap st) r = Some t →
      ∃ t', t' ∈ trees ∧ skeleton t' = skeleton t.
Proof.
  induction entries as [|[k0 node] rest IH]; intros c c' trees; cbn [createFolders].
  { intros [= <- <-]. split; [done|]. intros k r t Hin. by apply elem_of_nil in Hin. }
  destruct (HasParent node st) eqn:Hhp; cbn [negb].
  - intros Hrun. destruct (IH c c' trees Hrun) as [Hf Hall]. split; [done|].
    intros k r t Hin Hr Hl. apply elem_of_cons in Hin as [[= -> ->]|Hin]; [congruence|].
    by eapply Hall.
  - destruct (load (S (longestPath (heap st))) (heap st) node) as [t0|] eqn:Hl0; [|done].
    destruct (CreateFolderTreeFromNode t0 "" c) as [[c1 t1] err] eqn:Hw.
    destruct (createFolders st rest c1) as [[[c2 trees2] errors]|] eqn:Hrest; [|done].
    destruct err as [e|]; [done|]. intros [= <- <- ->].
    destruct (IH c1 c2 trees2 Hrest) as [Hf Hall].
    destruct (CreateFolderTreeFromNode_writes _ _ _ _ _ Hw) as [Hf1 Hs1].
    split.
    + simpl. by rewrite applyWrites_app, <- Hf1.
    + intros k r t Hin Hr Hl. apply elem_of_cons in Hin as [[= -> ->]|Hin].
      * rewrite Hl0 in Hl. inversion Hl; subst. exists t1. split; [by left|done].
      * destruct (Hall k r t Hin Hr Hl) as (t' & Ht' & Hs). exists t'. split; [by right|done].
Qed.

Lemma createFolders_total st :
  WF st → ∀ entries c,
  Forall (fun e => graph st !! e.1 = Some e.2) entries →
  is_Some (createFolders st entries c).
Proof.
  intros Hwf. induction entries as [|[k r] rest IH]; intros c Hall; cbn [createFolders].
  { by eexists. }
  apply Forall_cons in Hall as [Hk Hall]. simpl in Hk.
  destruct (HasParent r st); cbn [negb]; [by apply IH|].
  destruct (wf_key st Hwf k r Hk) as (n & Hn & _).
  destruct (load_succeeds st Hwf (S (longestPath (heap st))) r n Hn) as (t & -> & _);
    [lia|].
  destruct (CreateFolderTreeFromNode t "" c) as [[c1 t1] err].
  destruct (IH c1 Hall) as [[[c2 trees] errors] ->]. by eexists.
Qed.

Variable P : Filepath.Platform.

Lemma detectFolderFromPath_not_dot (s : Service) (file : string) :
  detectFolderFromPath P s file ≠ ".".
Proof.
  unfold detectFolderFromPath.
  destruct (Filepath.Rel P _ _) as [rel [e|]]; [done|].
  destruct (bool_decide (Filepath.ToSlash P rel = ".")) eqn:Hd; simpl; [done|].
  apply bool_decide_eq_false in Hd. by destruct (bool_decide (_ = "")).
Qed.

Lemma detected_folder_key (s : Service) (allFiles : list string) (st : Store) (file : string) :
  WF st →
  (∀ k nm, hasNode st k nm ↔
           ∃ path, path ∈ allFiles ∧ nodeOfParts (partsOf P (dashboardsDir s) path) k nm) →
  file ∈ allFiles → detectFolderFromPath P s file ≠ "" →
  ∃ p n, heap st !! p = Some n ∧ FullPath n = detectFolderFromPath P s file.
Proof.
  intros Hwf Hn Hf Hne. set (k := detectFolderFromPath P s file) in *.
  assert (Hnode : hasNode st k
                    (nth (pred (length (Strings.Split k "/"))) (Strings.Split k "/") "")).
  { apply Hn. exists file. split; [done|]. rewrite partsOf_detect. fold k.
    rewrite bool_decide_eq_false_2 by done.
    pose proof (splitOn_not_nil (Ascii.eqb "/") k) as Hnil.
    fold (Strings.Split k "/") in Hnil.
    exists (pred (length (Strings.Split k "/"))).
    destruct (Strings.Split k "/") as [|w ws] eqn:Es; [done|].
    split; [simpl; lia|]. split; [|done].
    unfold prefixKey. rewrite firstn_all2 by (simpl; lia).
    rewrite <- Es. unfold Strings.Split. by rewrite Join_splitOn. }
  destruct Hnode as (p & n & Hg & Hh & _).
  destruct (wf_key st Hwf k p Hg) as (n' & Hh' & Hfp).
  rewrite Hh in Hh'. inversion Hh'; subst n'. by exists p, n.
Qed.

(** X14. One poll cycle, from the files to the cache.  [main] builds the graph
    over all files and walks every root; the loop does not fail, whatever
    order the map is ranged over in.  When no walk has returned an error,
    the folder of every file that does not lie in the base directory is a
    key of the cache, the cached value is the identifier that the walk has
    written into a node with that full path, and [GetFolderIDByPath] returns
    it, so that the upload loop needs [CreateFolderTree] only for an
    identifier that is 0. *)
Theorem folders_ready (s : Service) (allFiles : list string) :
  ∃ st, BuildFolderGraph P allFiles (dashboardsDir s) = Some st
    ∧ ∀ entries c,
        entries ≡ₚ map_to_list (graph st) →
        is_Some (createFolders st entries c)
        ∧ ∀ c' trees,
            createFolders st entries c = Some (c', trees, []) →
            ∀ file, file ∈ allFiles → detectFolderFromPath P s file ≠ "" →
              ∃ n, n ∈ List.flat_map nodesOf trees
                ∧ treeFullPath n = detectFolderFromPath P s file
                ∧ folders c' !! detectFolderFromPath P s file = Some (treeID n)
                ∧ GetFolderIDByPath c' (detectFolderFromPath P s file) = treeID n.
Proof.
  destruct (BuildFolderGraph_spec P (dashboardsDir s) allFiles)
    as (st & Hb & Hwf & Hpar & Hn & _).
  exists st. split; [done|]. intros entries c Hperm. split.
  { apply createFolders_total; [done|]. rewrite Hperm. apply Forall_forall.
    intros [k r] Hin. by apply elem_of_map_to_list in Hin. }
  intros c' trees Hrun file Hf Hne.
  destruct (detected_folder_key s allFiles st file Hwf Hn Hf Hne) as (p & n & Hp & Hfp).
  destruct (rooted_below st Hwf Hpar (S (String.length (FullPath n))) p n Hp)
    as (r & root & Hr & Hroot & Hbelow); [lia|].
  destruct (load_succeeds st Hwf (S (longestPath (heap st))) r root Hr)
    as (t & Hl & _); [lia|].
  destruct (createFolders_spec st entries c c' trees Hrun) as [Hcache Hall].
  destruct (Hall (FullPath root) r t) as (t' & Ht' & Hs).
  { rewrite Hperm. apply elem_of_map_to_list. by apply (wf_indexed st Hwf). }
  { by eapply no_slash_no_parent. }
  { done. }
  destruct (Hbelow _ t Hl) as (d' & tn & Hln & Htn).
  destruct (load_fields _ _ _ _ _ Hln Hp) as (_ & Htfp & _).
  destruct (skeleton_paths _ _ Hs) as [Hpaths _].
  assert (Hk : detectFolderFromPath P s file
               ∈ map fst (List.flat_map writesOf trees)).
  { rewrite flat_map_writesOf, map_map. simpl.
    apply list_elem_of_fmap.
    assert (Hin : FullPath n ∈ map treeFullPath (nodesOf t')).
    { rewrite Hpaths. apply list_elem_of_fmap. exists tn. by rewrite Htfp. }
    apply list_elem_of_fmap in Hin as (n' & Hn' & Hin).
    exists n'. split; [congruence|].
    apply list_elem_of_In, in_flat_map. exists t'.
    split; by apply list_elem_of_In. }
  destruct (applyWrites_some _ (folders c) _ Hk) as (v & Hv & Hlook).
  rewrite flat_map_writesOf in Hv. apply list_elem_of_fmap in Hv as (n' & Heq & Hn').
  assert (Hpath : treeFullPath n' = detectFolderFromPath P s file) by congruence.
  assert (Hid : treeID n' = v) by congruence.
  exists n'. split; [done|]. split; [done|]. rewrite Hid.
  rewrite Hcache. split; [done|].
  unfold GetFolderIDByPath.
  rewrite (bool_decide_eq_false_2 _ Hne).
  rewrite (bool_decide_eq_false_2 _ (detectFolderFromPath_not_dot s file)).
  simpl. by rewrite Hcache, Hlook.
Qed.

End PollCycle.

Section SyncCycle.

Import Sync Grafana.

Context {R : Remote} {J : Json} {U : Uploader}.

Variable P : Filepath.Platform.

Lemma UploadDashboardWithVersion_frame (c : Client) (dashboard : JsonObject)
    (folderID : Z) (versionMessage : string) :
  let c' := (UploadDashboardWithVersion c dashboard folderID versionMessage).1 in
  url c' = url c ∧ token c' = token c ∧ user c' = user c ∧ password c' = password c
  ∧ folders c' = folders c ∧ calls c' = calls c.
Proof.
  unfold UploadDashboardWithVersion. destruct (Marshal _); [done|].
  destruct (NewRequest _ _); [done|].
  destruct (doPostDashboard _ _ _) as [w [e|sc body]]; [done|].
  by destruct (sc >=? 300).
Qed.

Lemma folderFor_cached (c : Client) (folderPath : string) :
  folderPath = "" ∨ GetFolderIDByPath c folderPath ≠ 0 →
  folderFor c folderPath = (c, Some (GetFolderIDByPath c folderPath)).
Proof.
  unfold folderFor. intros [->|Hid]; [done|].
  case_bool_decide as He; simpl.
  - subst. done.
  - apply Z.eqb_neq in Hid. by rewrite Hid.
Qed.

(** X21. The second of two poll cycles over files whose contents have not
    changed ends at the change detection: it sends nothing and uploads
    nothing, whatever the first cycle did.  A dashboard whose upload has
    failed in the first cycle is therefore not uploaded again before its
    content changes: its fingerprint was recorded when the change was
    detected, not when the upload succeeded. *)
Theorem unchanged_files_no_upload (range : Store → list (string * nat))
    (fs : FileSystem) (versionMessage : string) (allFiles : list string)
    (s s1 : Service) (c c1 : Client) (end1 : CycleEnd) :
  syncFiles P range fs versionMessage allFiles s c = Some (s1, c1, end1) →
  s1 = (GetChangedFiles fs s allFiles).2
  ∧ ∀ versionMessage' c',
      syncFiles P range fs versionMessage' allFiles s1 c' = Some (s1, c', NoChanges).
Proof.
  intros Hrun.
  assert (Hs : s1 = (GetChangedFiles fs s allFiles).2).
  { unfold syncFiles in Hrun.
    destruct (GetChangedFiles fs s allFiles) as [[changed err] s'].
    destruct (length _ =? 0)%nat; [by inversion Hrun|].
    destruct (BuildFolderGraph _ _ _) as [st|]; [|done].
    destruct (createFolders _ _ _) as [[[c2 trees] errors]|]; [|done].
    destruct (uploadChanged _ _ _ _ _ _) as [[c3 n] tried]. by inversion Hrun. }
  split; [done|]. intros vm' c'. unfold syncFiles. rewrite Hs.
  by rewrite GetChangedFiles_again.
Qed.

Lemma uploadChanged_spec (fs : FileSystem) (s : Service) (versionMessage : string)
    (changedFiles : list string) : ∀ (c : Client) (dashboardCount : Z),
  let r := uploadChanged P fs s versionMessage changedFiles c dashboardCount in
  sublist (map (fun t => t.1.1) r.2) changedFiles
  ∧ r.1.2 = dashboardCount
            + Z.of_nat (length (List.filter (fun t => bool_decide (t.2 = None)) r.2))
  ∧ (∀ file id err, (file, id, err) ∈ r.2 →
       ∃ d, LoadDashboard P fs s file = inl d ∧ (FolderPath d = "" → id = 0))
  ∧ (url r.1.1, token r.1.1, user r.1.1, password r.1.1)
    = (url c, token c, user c, password c)
  ∧ dom (folders c) ⊆ dom (folders r.1.1).
Proof.
  induction changedFiles as [|file rest IH]; intros c n; cbn [uploadChanged].
  { simpl. split_and!; try done; [lia|]. intros f i e H. by apply elem_of_nil in H. }
  destruct (LoadDashboard P fs s file) as [d|e] eqn:Hload.
  2: { destruct (IH c n) as (H1 & H2 & H3 & H4 & H5).
       split_and!; try done. by apply sublist_cons. }
  assert (Hfolder : let r := folderFor c (FolderPath d) in
            (url r.1, token r.1, user r.1, password r.1)
            = (url c, token c, user c, password c)
            ∧ dom (folders c) ⊆ dom (folders r.1)
            ∧ (FolderPath d = "" → r.2 = Some 0)).
  { unfold folderFor. case_bool_decide as Hp; simpl; [done|].
    destruct (GetFolderIDByPath c (FolderPath d) =? 0); [|done].
    destruct (CreateFolderTree_after c (FolderPath d)) as (Hu & Ht & Hus & Hpw & Hk & _).
    destruct (CreateFolderTree c (FolderPath d)) as [c1 [id [e|]]]; simpl in *;
      (split_and!; [congruence| |done]);
      intros q Hq; apply elem_of_dom, Hk; by apply elem_of_dom. }
  destruct (folderFor c (FolderPath d)) as [c1 [folderID|]]; simpl in Hfolder.
  2: { destruct Hfolder as (Hcfg & Hdom & _).
       destruct (IH c1 n) as (H1 & H2 & H3 & H4 & H5).
       split_and!; try done; [by apply sublist_cons|congruence|set_solver]. }
  destruct Hfolder as (Hcfg & Hdom & Hroot).
  pose proof (UploadDashboardWithVersion_frame c1 (Content d) folderID versionMessage)
    as Hup.
  destruct (UploadDashboardWithVersion c1 (Content d) folderID versionMessage)
    as [c2 err]. simpl in Hup. destruct Hup as (Hu & Ht & Hus & Hpw & Hf & _).
  set (n' := match err with Some _ => n | None => n + 1 end).
  destruct (IH c2 n') as (H1 & H2 & H3 & H4 & H5).
  destruct (uploadChanged P fs s versionMessage rest c2 n') as [[c3 n3] tried].
  simpl in *. split_and!.
  - by apply sublist_skip.
  - rewrite H2. subst n'. destruct err; simpl; lia.
  - intros f i e Hin. apply elem_of_cons in Hin as [[= -> -> ->]|Hin]; [|by eapply H3].
    exists d. split; [done|]. intros Hp. specialize (Hroot Hp). by inversion Hroot.
  - rewrite H4. congruence.
  - rewrite Hf in H5. set_solver.
Qed.

Lemma uploadChanged_cached (fs : FileSystem) (s : Service) (versionMessage : string)
    (changedFiles : list string) : ∀ (c : Client) (dashboardCount : Z),
  (∀ file d, file ∈ changedFiles → LoadDashboard P fs s file = inl d →
             FolderPath d = "" ∨ GetFolderIDByPath c (FolderPath d) ≠ 0) →
  let r := uploadChanged P fs s versionMessage changedFiles c dashboardCount in
  calls r.1.1 = calls c ∧ folders r.1.1 = folders c
  ∧ map (fun t => (t.1.1, t.1.2)) r.2
    = omap (fun file => match LoadDashboard P fs s file with
                        | inl d => Some (file, GetFolderIDByPath c (FolderPath d))
                        | inr _ => None
                        end) changedFiles.
Proof.
  induction changedFiles as [|file rest IH]; intros c n Hall; cbn [uploadChanged];
    [done|].
  cbn [omap list_omap]. destruct (LoadDashboard P fs s file) as [d|e] eqn:Hload.
  2: { cbv beta iota. apply (IH c n). intros f d' Hf. apply Hall. by right. }
  cbv beta iota.
  rewrite folderFor_cached by (apply (Hall file d); [by left|done]).
  pose proof (UploadDashboardWithVersion_frame c (Content d)
                (GetFolderIDByPath c (FolderPath d)) versionMessage) as Hup.
  destruct (UploadDashboardWithVersion c (Content d) _ versionMessage) as [c2 err].
  simpl in Hup. destruct Hup as (_ & _ & _ & _ & Hf & Hc).
  set (n' := match err with Some _ => n | None => n + 1 end).
  assert (Hget : ∀ p, GetFolderIDByPath c2 p = GetFolderIDByPath c p).
  { intros p. unfold GetFolderIDByPath. by rewrite Hf. }
  destruct (IH c2 n') as (H1 & H2 & H3).
  { intros f d' Hin Hl. rewrite Hget. apply (Hall f d'); [by right|done]. }
  destruct (uploadChanged P fs s versionMessage rest c2 n') as [[c3 n3] tried].
  simpl in *. split_and!; [congruence|congruence|].
  rewrite H3. f_equal. apply list_omap_ext, Forall2_same_length_lookup_2; [done|].
  intros i file1 file2 H4 H5. assert (file1 = file2) as -> by congruence.
  destruct (LoadDashboard P fs s file2); [|done]. by rewrite Hget.
Qed.

(** X22. The upload loop of [main].  The uploads that are tried follow the
    order of the changed files, one for each file at most; a file is
    tried only if it loads, a dashboard of the base directory goes to the
    folder 0, and the count that the loop reports is the number of uploads
    that returned nil.  The loop leaves the address and the credentials of
    the client alone and removes no key from the cache.  When the cache
    holds an identifier other than 0 for the folder of every changed file
    that loads, no folder request is sent and the cache is not written:
    every such file is tried exactly once, with the cached identifier of
    its folder. *)
Theorem upload_loop_contract (fs : FileSystem) (s : Service) (versionMessage : string)
    (changedFiles : list string) (c : Client) (dashboardCount : Z) :
  let r := uploadChanged P fs s versionMessage changedFiles c dashboardCount in
  sublist (map (fun t => t.1.1) r.2) changedFiles
  ∧ r.1.2 = dashboardCount
            + Z.of_nat (length (List.filter (fun t => bool_decide (t.2 = None)) r.2))
  ∧ (∀ file id err, (file, id, err) ∈ r.2 →
       ∃ d, LoadDashboard P fs s file = inl d ∧ (FolderPath d = "" → id = 0))
  ∧ (url r.1.1, token r.1.1, user r.1.1, password r.1.1)
    = (url c, token c, user c, password c)
  ∧ dom (folders c) ⊆ dom (folders r.1.1)
  ∧ ((∀ file d, file ∈ changedFiles → LoadDashboard P fs s file = inl d →
                FolderPath d = "" ∨ GetFolderIDByPath c (FolderPath d) ≠ 0) →
     calls r.1.1 = calls c ∧ folders r.1.1 = folders c
     ∧ map (fun t => (t.1.1, t.1.2)) r.2
       = omap (fun file => match LoadDashboard P fs s file with
                           | inl d => Some (file, GetFolderIDByPath c (FolderPath d))
                           | inr _ => None
                           end) changedFiles).
Proof.
  intros r. subst r.
  destruct (uploadChanged_spec fs s versionMessage changedFiles c dashboardCount)
    as (H1 & H2 & H3 & H4 & H5).
  split_and!; try done. intros Hall. by apply uploadChanged_cached.
Qed.

End SyncCycle.

Section Credentials.

Import Grafana.

Context {R : Remote} {T : Transport} {L : Library}.

Lemma ValidateAuth_loop_spec (c : Client) (count : nat) : ∀ s,
  let r := ValidateAuth_loop c count s in
  ∃ new waits final,
    events r.1 = events s ++ new
    ∧ repliesIn new = waits ++ final
    ∧ Forall (fun q => q = healthRequest c (Basic (user c) (password c))) (requestsIn new)
    ∧ length (requestsIn new) = length (repliesIn new)
    ∧ pausesIn new = map (fun _ => 2 * second) waits
    ∧ Forall (fun y => decisive y = false) waits
    ∧ match final with
      | [] => length waits = count
              ∧ r.2 = Some "Grafana authentication check timed out"
      | [Replied statusCode body] =>
          (length waits < count)%nat
          ∧ last new = Some (Sent (healthRequest c (Basic (user c) (password c)))
                                  (Replied statusCode body))
          ∧ ((statusCode = 200 ∧ r.2 = None)
             ∨ (statusCode = 401
                ∧ r.2 = Some "Grafana returned 401 Unauthorized — invalid credentials"))
      | _ => False
      end.
Proof.
  induction count as [|count IH]; intros s; cbn [ValidateAuth_loop].
  { exists [], [], []. rewrite app_nil_r. by split_and!. }
  set (req := healthRequest c (Basic (user c) (password c))).
  unfold send. destruct (roundTrip (net s) req) as [n reply] eqn:Hrt.
  assert (Hwait : decisive reply = false →
    let r := ValidateAuth_loop c count
               (pause (mkSession n (events s ++ [Sent req reply])) (2 * second)) in
    ∃ new waits final,
      events r.1 = events s ++ new
      ∧ repliesIn new = waits ++ final
      ∧ Forall (fun q => q = req) (requestsIn new)
      ∧ length (requestsIn new) = length (repliesIn new)
      ∧ pausesIn new = map (fun _ => 2 * second) waits
      ∧ Forall (fun y => decisive y = false) waits
      ∧ match final with
        | [] => length waits = S count
                ∧ r.2 = Some "Grafana authentication check timed out"
        | [Replied statusCode body] =>
            (length waits < S count)%nat
            ∧ last new = Some (Sent req (Replied statusCode body))
            ∧ ((statusCode = 200 ∧ r.2 = None)
               ∨ (statusCode = 401
                  ∧ r.2 = Some "Grafana returned 401 Unauthorized — invalid credentials"))
        | _ => False
        end).
  { intros Hd r. subst r.
    destruct (IH (pause (mkSession n (events s ++ [Sent req reply])) (2 * second)))
      as (new & waits & final & Hev & Hrep & Hreq & Hlen & Hp & Hw & Hfin).
    exists (Sent req reply :: Slept (2 * second) :: new), (reply :: waits), final.
    split_and!.
    - rewrite Hev. simpl. by rewrite <- !app_assoc.
    - simpl. by rewrite Hrep.
    - simpl. by constructor.
    - simpl. by rewrite Hlen.
    - simpl. by rewrite Hp.
    - by constructor.
    - destruct final as [|[e|sc body] [|? ?]]; try done.
      + destruct Hfin as [Hl Hr]. simpl. by rewrite Hl.
      + destruct Hfin as (Hlt & Hlast & Hr). split_and!; [simpl; lia| |done].
        rewrite !last_cons, Hlast. done. }
  destruct reply as [e|sc body]; [by apply Hwait|].
  destruct (sc =? 200) eqn:E200; [|destruct (sc =? 401) eqn:E401].
  - apply Z.eqb_eq in E200. subst sc.
    exists [Sent req (Replied 200 body)], [], [Replied 200 body].
    simpl. split_and!; try done; [by repeat constructor|lia|by left].
  - apply Z.eqb_eq in E401. subst sc.
    exists [Sent req (Replied 401 body)], [], [Replied 401 body].
    simpl. split_and!; try done; [by repeat constructor|lia|by right].
  - apply Hwait. simpl. by rewrite E200, E401.
Qed.

(** X15. [ValidateAuth] sends at most thirty requests, each a GET of the
    health address with the user and the password of the client, and
    sleeps two seconds after every reply that does not decide.  The first
    reply with status 200 ends it with nil and the first with status 401
    with the error of the invalid credentials, and nothing is sent after
    either; after thirty replies that are neither it returns the error of
    the timeout. *)
Theorem ValidateAuth_bounded (c : Client) (s : Session) :
  let r := ValidateAuth c s in
  ∃ new waits final,
    events r.1 = events s ++ new
    ∧ repliesIn new = waits ++ final
    ∧ (length (requestsIn new) ≤ 30)%nat
    ∧ Forall (fun q => q = healthRequest c (Basic (user c) (password c))) (requestsIn new)
    ∧ pausesIn new = map (fun _ => 2 * second) waits
    ∧ Forall (fun y => decisive y = false) waits
    ∧ match final with
      | [] => length waits = 30%nat
              ∧ r.2 = Some "Grafana authentication check timed out"
      | [Replied statusCode body] =>
          last new = Some (Sent (healthRequest c (Basic (user c) (password c)))
                                (Replied statusCode body))
          ∧ ((statusCode = 200 ∧ r.2 = None)
             ∨ (statusCode = 401
                ∧ r.2 = Some "Grafana returned 401 Unauthorized — invalid credentials"))
      | _ => False
      end.
Proof.
  intros r. subst r. unfold ValidateAuth.
  destruct (ValidateAuth_loop_spec c 30 s)
    as (new & waits & final & Hev & Hrep & Hreq & Hlen & Hp & Hw & Hfin).
  exists new, waits, final. split_and!; try done.
  - rewrite Hlen, Hrep, length_app.
    destruct final as [|[e|sc body] [|? ?]]; try done; simpl.
    + destruct Hfin as [Hl _]. lia.
    + destruct Hfin as (Hlt & _). lia.
  - destruct final as [|[e|sc body] [|? ?]]; try done. by destruct Hfin as (_ & ? & ?).
Qed.

End Credentials.

Section Readiness.

Import Grafana.

Context {R : Remote} {T : Transport} {L : Library}.

Lemma roundsLeft_step (deadline t t' : Z) :
  t < deadline → t + 2 * second ≤ t' →
  (roundsLeft deadline t' < roundsLeft deadline t)%nat.
Proof.
  intros Ht Ht'. unfold roundsLeft, second in *.
  set (K := 2 * 1000000000) in *.
  set (a := deadline - t). set (b := deadline - t').
  assert (HK : 0 < K) by (subst K; lia).
  assert (Hb : b ≤ a - K) by (subst a b; lia).
  assert (H1 : (b + K - 1) / K ≤ (a + K - 1) / K - 1).
  { replace ((a + K - 1) / K - 1) with ((a + K - 1 + (-1) * K) / K)
      by (rewrite Z.div_add by lia; lia).
    apply Z.div_le_mono; lia. }
  assert (H2 : 1 ≤ (a + K - 1) / K).
  { apply Z.div_le_lower_bound; subst a; lia. }
  lia.
Qed.

Lemma WaitForReady_loop_spec (laws : ClockLaws) (c : Client) (timeout deadline : Z) :
  ∀ fuel s, (roundsLeft deadline (now (net s)) < fuel)%nat →
  ∃ s' err new,
    WaitForReady_loop fuel c timeout deadline s = Some (s', err)
    ∧ events s' = events s ++ new
    ∧ (length (requestsIn new) ≤ roundsLeft deadline (now (net s)))%nat
    ∧ Forall (fun q => q = healthRequest c NoAuth) (requestsIn new)
    ∧ Forall (fun d => d = 2 * second) (pausesIn new)
    ∧ (deadline ≤ now (net s) → new = [])
    ∧ match err with
      | None => ∃ body, last new = Some (Sent (healthRequest c NoAuth) (Replied 200 body))
      | Some e =>
          e = "Grafana API did not become ready within " +:+ durationString timeout
          ∧ deadline ≤ now (net s')
          ∧ Forall (fun y => match y with Replied 200 _ => False | _ => True end)
                   (repliesIn new)
      end.
Proof.
  induction fuel as [|fuel IH]; intros s Hfuel; [lia|].
  cbn [WaitForReady_loop].
  destruct (now (net s) <? deadline) eqn:Hnow.
  2: { apply Z.ltb_ge in Hnow. exists s, (Some ("Grafana API did not become ready within "
                                                 +:+ durationString timeout)), [].
       rewrite app_nil_r. split_and!; try done. simpl. lia. }
  apply Z.ltb_lt in Hnow.
  set (req := healthRequest c NoAuth).
  unfold send. pose proof (clock_send laws (net s) req) as Hsend.
  destruct (roundTrip (net s) req) as [n reply] eqn:Hrt. simpl in Hsend.
  set (s1 := mkSession n (events s ++ [Sent req reply])).
  assert (Hstep : (roundsLeft deadline (now (net (pause s1 (2 * second))))
                   < roundsLeft deadline (now (net s)))%nat).
  { apply roundsLeft_step; [done|]. unfold pause, s1. simpl.
    pose proof (clock_sleep laws n (2 * second)). lia. }
  assert (Hwait : (match reply with Replied 200 _ => False | _ => True end) →
    ∃ s' err new,
      WaitForReady_loop fuel c timeout deadline (pause s1 (2 * second)) = Some (s', err)
      ∧ events s' = events s ++ new
      ∧ (length (requestsIn new) ≤ roundsLeft deadline (now (net s)))%nat
      ∧ Forall (fun q => q = req) (requestsIn new)
      ∧ Forall (fun d => d = 2 * second) (pausesIn new)
      ∧ (deadline ≤ now (net s) → new = [])
      ∧ match err with
        | None => ∃ body, last new = Some (Sent req (Replied 200 body))
        | Some e =>
            e = "Grafana API did not become ready within " +:+ durationString timeout
            ∧ deadline ≤ now (net s')
            ∧ Forall (fun y => match y with Replied 200 _ => False | _ => True end)
                     (repliesIn new)
        end).
  { intros Hno.
    destruct (IH (pause s1 (2 * second)))
      as (s' & err & new & Hrun & Hev & Hlen & Hreq & Hp & _ & Hfin); [lia|].
    exists s', err, (Sent req reply :: Slept (2 * second) :: new). split_and!.
    - done.
    - rewrite Hev. unfold pause, s1. simpl. by rewrite <- !app_assoc.
    - simpl. lia.
    - simpl. by constructor.
    - simpl. by constructor.
    - lia.
    - destruct err as [e|].
      + destruct Hfin as (? & ? & ?). split_and!; [done|done|]. simpl. by constructor.
      + destruct Hfin as (body & Hlast). exists body. by rewrite !last_cons, Hlast. }
  destruct reply as [e|sc body]; [by apply Hwait|].
  destruct (sc =? 200) eqn:E200.
  - apply Z.eqb_eq in E200. subst sc.
    exists s1, None, [Sent req (Replied 200 body)]. split_and!; try done.
    + simpl. lia.
    + by repeat constructor.
    + lia.
    + by exists body.
  - apply Hwait. apply Z.eqb_neq in E200. destruct sc as [|p|p]; try done.
    do 8 (destruct p as [p|p|]; try done).
Qed.

(** X16. [WaitForReady] returns when the clock moves: with fuel for one round
    more than the rounds of two seconds that fit into the timeout, it
    gives a result; it has then sent at most one request for each such
    round, each a GET of the health address without credentials, it
    returns nil only on a reply with status 200, which is the last thing
    on the wire, and its error only once the deadline has passed without
    such a reply.  With a timeout that is not positive nothing is sent. *)
Theorem WaitForReady_terminates (laws : ClockLaws) (c : Client) (timeout : Z)
    (s : Session) (fuel : nat) :
  let rounds := Z.to_nat ((timeout + 2 * second - 1) / (2 * second)) in
  (rounds < fuel)%nat →
  ∃ s' err new,
    WaitForReady fuel c timeout s = Some (s', err)
    ∧ events s' = events s ++ new
    ∧ (length (requestsIn new) ≤ rounds)%nat
    ∧ Forall (fun q => q = healthRequest c NoAuth) (requestsIn new)
    ∧ Forall (fun d => d = 2 * second) (pausesIn new)
    ∧ (timeout ≤ 0 → new = [])
    ∧ match err with
      | None => ∃ body, last new = Some (Sent (healthRequest c NoAuth) (Replied 200 body))
      | Some e =>
          e = "Grafana API did not become ready within " +:+ durationString timeout
          ∧ now (net s) + timeout ≤ now (net s')
          ∧ Forall (fun y => match y with Replied 200 _ => False | _ => True end)
                   (repliesIn new)
      end.
Proof.
  intros rounds Hfuel. unfold WaitForReady.
  assert (Hr : roundsLeft (now (net s) + timeout) (now (net s)) = rounds).
  { unfold roundsLeft. subst rounds. do 2 f_equal. lia. }
  destruct (WaitForReady_loop_spec laws c timeout (now (net s) + timeout) fuel s)
    as (s' & err & new & Hrun & Hev & Hlen & Hreq & Hp & Hnil & Hfin); [by rewrite Hr|].
  rewrite Hr in Hlen.
  exists s', err, new. split_and!; try done.
  intros Hneg. apply Hnil. lia.
Qed.

End Readiness.

Section ServiceAccount.

Import Grafana.

Context {R : Remote} {T : Transport} {L : Library}.

Ltac solve_sublist :=
  simpl; repeat first [apply sublist_nil | apply sublist_skip | apply sublist_cons].

Lemma basicRequests_app c m1 m2 new1 new2 :
  basicRequests c m1 new1 → basicRequests c m2 new2 →
  basicRequests c (m1 ++ m2) (new1 ++ new2).
Proof.
  intros (Hp1 & Ha1 & Hm1) (Hp2 & Ha2 & Hm2). unfold basicRequests, pausesIn, requestsIn in *.
  rewrite !flat_map_app, map_app. split_and!.
  - by rewrite Hp1, Hp2.
  - by apply Forall_app.
  - by apply sublist_app.
Qed.

Lemma ensureServiceAccount_spec (c : Client) (accountName : string) (s : Session) :
  let r := ensureServiceAccount c accountName s in
  ∃ new, events r.1 = events s ++ new
    ∧ basicRequests c ["GET"; "POST"] new
    ∧ (r.2.2 ≠ None → r.2.1 = "").
Proof.
  unfold ensureServiceAccount, send. cbv zeta.
  destruct (roundTrip (net s) _) as [n [e|sc body]] eqn:H1; cbn [fst snd events net].
  { eexists. split; [done|]. split; [|done]. split_and!; [done|by repeat constructor|solve_sublist]. }
  destruct (decodeServiceAccounts body) as [e|accounts]; cbn [fst snd events net].
  { eexists. split; [done|]. split; [|done]. split_and!; [done|by repeat constructor|solve_sublist]. }
  destruct (List.find _ accounts) as [sa|]; cbn [fst snd events net].
  { eexists. split; [done|]. split; [|done]. split_and!; [done|by repeat constructor|solve_sublist]. }
  destruct (roundTrip n _) as [n2 [e|sc2 body2]] eqn:H2; cbn [fst snd events net].
  { rewrite <- app_assoc. eexists. split; [done|]. split; [|done].
    split_and!; [done|by repeat constructor|solve_sublist]. }
  destruct (decodeCreatedAccount body2) as [e|id]; cbn [fst snd events net];
    rewrite <- app_assoc; (eexists; split; [done|]); (split; [|done]);
    (split_and!; [done|by repeat constructor|solve_sublist]).
Qed.

Lemma createOrReplaceSAToken_spec (c : Client) (saID tokenName : string) (s : Session) :
  let r := createOrReplaceSAToken c saID tokenName s in
  ∃ new, events r.1 = events s ++ new
    ∧ basicRequests c ["GET"; "DELETE"; "POST"] new
    ∧ (r.2.2 ≠ None → r.2.1 = "").
Proof.
  unfold createOrReplaceSAToken, send. cbv zeta.
  destruct (roundTrip (net s) _) as [n [e|sc body]] eqn:H1; cbn [fst snd events net].
  { eexists. split; [done|]. split; [|done]. split_and!; [done|by repeat constructor|solve_sublist]. }
  destruct (decodeTokens body) as [e|tokens]; cbn [fst snd events net].
  { eexists. split; [done|]. split; [|done]. split_and!; [done|by repeat constructor|solve_sublist]. }
  destruct (List.find _ tokens) as [t|]; cbn [fst snd events net].
  - destruct (roundTrip n _) as [n2 reply2] eqn:H2; cbn [fst snd events net].
    destruct (roundTrip n2 _) as [n3 [e|sc3 body3]] eqn:H3; cbn [fst snd events net].
    { rewrite <- !app_assoc. eexists. split; [done|]. split; [|done].
      split_and!; [done|by repeat constructor|solve_sublist]. }
    destruct (decodeCreatedToken body3) as [e|key]; cbn [fst snd events net];
      rewrite <- !app_assoc; (eexists; split; [done|]); (split; [|done]);
      (split_and!; [done|by repeat constructor|solve_sublist]).
  - destruct (roundTrip n _) as [n3 [e|sc3 body3]] eqn:H3; cbn [fst snd events net].
    { rewrite <- !app_assoc. eexists. split; [done|]. split; [|done].
      split_and!; [done|by repeat constructor|solve_sublist]. }
    destruct (decodeCreatedToken body3) as [e|key]; cbn [fst snd events net];
      rewrite <- !app_assoc; (eexists; split; [done|]); (split; [|done]);
      (split_and!; [done|by repeat constructor|solve_sublist]).
Qed.

Lemma waitForSAToken_loop_spec (c : Client) (token : string) (timeout deadline : Z) :
  ∀ fuel s s' err,
  waitForSAToken_loop fuel c token timeout deadline s = Some (s', err) →
  ∃ new, events s' = events s ++ new
    ∧ Forall (fun q => q = tokenProbe c token) (requestsIn new)
    ∧ Forall (fun d => d = second) (pausesIn new)
    ∧ (err = None → ∃ body, last new = Some (Sent (tokenProbe c token) (Replied 200 body))).
Proof.
  induction fuel as [|fuel IH]; intros s s' err; [done|].
  cbn [waitForSAToken_loop].
  destruct (now (net s) <? deadline).
  2: { intros [= <- <-]. exists []. rewrite app_nil_r. by split_and!. }
  fold (tokenProbe c token). unfold send.
  destruct (roundTrip (net s) (tokenProbe c token)) as [n reply] eqn:Hrt.
  set (s1 := mkSession n (events s ++ [Sent (tokenProbe c token) reply])).
  assert (Hwait : waitForSAToken_loop fuel c token timeout deadline (pause s1 second)
                  = Some (s', err) →
    ∃ new, events s' = events s ++ new
      ∧ Forall (fun q => q = tokenProbe c token) (requestsIn new)
      ∧ Forall (fun d => d = second) (pausesIn new)
      ∧ (err = None →
         ∃ body, last new = Some (Sent (tokenProbe c token) (Replied 200 body)))).
  { intros Hrun. destruct (IH _ _ _ Hrun) as (new & Hev & Hreq & Hp & Hfin).
    exists (Sent (tokenProbe c token) reply :: Slept second :: new). split_and!.
    - rewrite Hev. unfold pause, s1. simpl. by rewrite <- !app_assoc.
    - simpl. by constructor.
    - simpl. by constructor.
    - intros Hnone. destruct (Hfin Hnone) as (body & Hlast). exists body.
      by rewrite !last_cons, Hlast. }
  destruct reply as [e|sc body]; [done|].
  destruct (sc =? 200) eqn:E200.
  - apply Z.eqb_eq in E200. subst sc. intros [= <- <-].
    exists [Sent (tokenProbe c token) (Replied 200 body)].
    split_and!; try done; [by repeat constructor|]. intros _. by exists body.
  - destruct ((sc =? 401) || (sc =? 403)); [|done].
    intros [= <- <-]. exists [Sent (tokenProbe c token) (Replied sc body)].
    split_and!; try done. by repeat constructor.
Qed.

(** X17. [CreateServiceAccountToken], when it returns.  The requests that set
    the account and the token up carry the user and the password of the
    client, never a token; there are at most five of them, in the order
    GET, POST, GET, DELETE, POST, so at most one token is deleted and it
    is deleted before the new one is created; none of them is followed by
    a sleep.  After them come only the probes of [waitForSAToken], each a
    GET of the folders address that bears the new token.  A token is
    returned only when the last reply on the wire is a 200 to such a
    probe; with an error the returned token is empty. *)
Theorem CreateServiceAccountToken_contract (fuel : nat) (c : Client)
    (accountName tokenName : string) (s s' : Session) (tok : string)
    (err : option string) :
  CreateServiceAccountToken fuel c accountName tokenName s = Some (s', (tok, err)) →
  ∃ setup probes,
    events s' = events s ++ setup ++ probes
    ∧ basicRequests c ["GET"; "POST"; "GET"; "DELETE"; "POST"] setup
    ∧ (∃ key, Forall (fun q => q = tokenProbe c key) (requestsIn probes)
              ∧ (err = None → key = tok))
    ∧ Forall (fun d => d = second) (pausesIn probes)
    ∧ match err with
      | Some _ => tok = ""
      | None => ∃ body, last probes = Some (Sent (tokenProbe c tok) (Replied 200 body))
      end.
Proof.
  unfold CreateServiceAccountToken.
  destruct (ensureServiceAccount_spec c accountName s) as (new1 & Hev1 & Hb1 & He1).
  destruct (ensureServiceAccount c accountName s) as [s1 [saID [e1|]]]; simpl in *.
  { intros [= <- <- <-]. exists new1, []. rewrite app_nil_r. split_and!; try done.
    - pose proof (basicRequests_app c _ ["GET"; "DELETE"; "POST"] new1 [] Hb1) as H.
      rewrite app_nil_r in H. apply H. by split_and!; [done|constructor|apply sublist_nil_l].
    - exists "". by split. }
  destruct (createOrReplaceSAToken_spec c saID tokenName s1) as (new2 & Hev2 & Hb2 & He2).
  pose proof (basicRequests_app c _ _ _ _ Hb1 Hb2) as Hb. simpl in Hb.
  destruct (createOrReplaceSAToken c saID tokenName s1) as [s2 [key [e2|]]]; simpl in *.
  { intros [= <- <- <-]. exists (new1 ++ new2), []. rewrite app_nil_r.
    split_and!; try done.
    - by rewrite Hev2, Hev1, app_assoc.
    - exists "". by split. }
  unfold waitForSAToken.
  destruct (waitForSAToken_loop fuel c key (2 * minute) _ s2) as [[s3 err3]|] eqn:Hw;
    [|done].
  destruct (waitForSAToken_loop_spec _ _ _ _ _ _ _ _ Hw) as (new3 & Hev3 & Hreq3 & Hp3 & Hfin3).
  destruct err3 as [e3|]; intros [= <- <- <-].
  - exists (new1 ++ new2), new3. split_and!; try done.
    + by rewrite Hev3, Hev2, Hev1, !app_assoc.
    + exists key. by split.
  - exists (new1 ++ new2), new3. split_and!; try done.
    + by rewrite Hev3, Hev2, Hev1, !app_assoc.
    + exists key. by split.
    + by apply Hfin3.
Qed.

End ServiceAccount.

Section Configuration.

Import Config.

Lemma mul64_small (sec : Z) :
  0 < sec → sec ≤ 9223372036 → mul64 sec Second = sec * Second.
Proof.
  intros H1 H2. unfold mul64, Second. rewrite Z.mod_small; lia.
Qed.

(** X18. How [Load] ends.  When one of the three required variables is not
    set, the process is ended with the message that names the first of
    them, in the order GIT_REPO_URL, GIT_BRANCH, GRAFANA_URL, and no error
    is returned.  A configuration is returned only with the three set, a
    poll interval that [Atoi] reads as a positive number, credentials for
    Git (an SSH key, or a user with a password) and for Grafana (a user
    with a password, or a token); its interval is the number of seconds
    times a second as 64-bit arithmetic computes it, which is the product
    itself up to 9223372036 seconds, and sixty seconds when the variable
    is not set; the two directories default to [/tmp/grafana_data]. *)
Theorem Load_contract (env : Env) :
  match Load env with
  | Fatal msg =>
      ∃ key, msg = "❌ Required environment variable " +:+ key +:+ " is not set"
        ∧ env key = ""
        ∧ ((key = "GIT_REPO_URL")
           ∨ (key = "GIT_BRANCH" ∧ env "GIT_REPO_URL" ≠ "")
           ∨ (key = "GRAFANA_URL" ∧ env "GIT_REPO_URL" ≠ "" ∧ env "GIT_BRANCH" ≠ ""))
  | Failed err =>
      env "GIT_REPO_URL" ≠ "" ∧ env "GIT_BRANCH" ≠ "" ∧ env "GRAFANA_URL" ≠ ""
  | Done cfg =>
      RepoURL cfg = env "GIT_REPO_URL" ∧ RepoURL cfg ≠ ""
      ∧ Branch cfg = env "GIT_BRANCH" ∧ Branch cfg ≠ ""
      ∧ GrafanaURL cfg = env "GRAFANA_URL" ∧ GrafanaURL cfg ≠ ""
      ∧ (SSHKey cfg ≠ "" ∨ (HTTPSUser cfg ≠ "" ∧ HTTPSPassword cfg ≠ ""))
      ∧ ((GrafanaUser cfg ≠ "" ∧ GrafanaPass cfg ≠ "") ∨ GrafanaToken cfg ≠ "")
      ∧ (∃ sec, Atoi (getEnv env "POLL_INTERVAL_SEC" "60") = Some sec ∧ 0 < sec
                ∧ PollInterval cfg = mul64 sec Second
                ∧ (sec ≤ 9223372036 →
                   PollInterval cfg = sec * Second ∧ 0 < PollInterval cfg))
      ∧ (env "POLL_INTERVAL_SEC" = "" → PollInterval cfg = 60 * Second)
      ∧ (env "GIT_LOCAL_REPO_DIR" = "" → RepoDir cfg = "/tmp/grafana_data")
      ∧ (env "DASHBOARDS_DIR" = "" → DashboardsDir cfg = "/tmp/grafana_data")
  end.
Proof.
  unfold Load, getEnvRequired.
  case_bool_decide as H1; [exists "GIT_REPO_URL"; split_and!; [done|done|by left]|].
  case_bool_decide as H2;
    [exists "GIT_BRANCH"; split_and!; [done|done|right; left; by split]|].
  case_bool_decide as H3;
    [exists "GRAFANA_URL"; split_and!; [done|done|right; right; by split_and!]|].
  cbv zeta. cbn [RepoURL Branch SSHKey HTTPSUser HTTPSPassword RepoDir RepoSubdir
                 DashboardsDir GrafanaURL GrafanaUser GrafanaPass GrafanaToken].
  destruct (Atoi (getEnv env "POLL_INTERVAL_SEC" "60")) as [sec|] eqn:Hsec; [|done].
  destruct (sec <=? 0) eqn:Hpos; [done|]. apply Z.leb_gt in Hpos.
  destruct (validate _) as [err|] eqn:Hv; [done|].
  unfold validate in Hv. simpl in Hv.
  simpl. split_and!; try done.
  - destruct (bool_decide (env "GIT_SSH_KEY" = "")) eqn:E1; simpl in Hv.
    + right. destruct (bool_decide (env "GIT_HTTPS_USER" = "")) eqn:E2; [done|].
      destruct (bool_decide (env "GIT_HTTPS_PASS" = "")) eqn:E3; [done|].
      apply bool_decide_eq_false in E2, E3. done.
    + left. by apply bool_decide_eq_false in E1.
  - destruct (negb (negb (bool_decide (env "GIT_SSH_KEY" = "")))
              && negb _); [done|].
    destruct (bool_decide (getEnv env "GF_SECURITY_TOKEN" "" = "")) eqn:E1.
    + left.
      destruct (bool_decide (getEnv env "GF_SECURITY_ADMIN_USER" "" = "")) eqn:E2;
        [done|].
      destruct (bool_decide (getEnv env "GF_SECURITY_ADMIN_PASSWORD" "" = "")) eqn:E3;
        [done|].
      apply bool_decide_eq_false in E2, E3. done.
    + right. by apply bool_decide_eq_false in E1.
  - exists sec. split_and!; try done. intros Hle.
    rewrite mul64_small by done. unfold Second. lia.
  - intros Hunset. unfold getEnv in Hsec. rewrite Hunset in Hsec. simpl in Hsec.
    vm_compute in Hsec. injection Hsec as <-. reflexivity.
  - intros Hunset. unfold getEnv. by rewrite Hunset.
  - intros Hunset. unfold getEnv. by rewrite Hunset.
Qed.

(** X19. [SafeForLog] replaces by three stars the SSH key, the HTTPS password,
    the Grafana password and the Grafana token when they are not empty,
    and copies every other field, the repository address and the two user
    names among them; masking a masked configuration changes nothing. *)
Theorem SafeForLog_masks (c : Config) :
  SafeForLog c
  = mkConfig (RepoURL c) (Branch c) (masked (SSHKey c)) (HTTPSUser c)
             (masked (HTTPSPassword c)) (RepoDir c) (RepoSubdir c) (DashboardsDir c)
             (PollInterval c) (GrafanaURL c) (GrafanaUser c) (masked (GrafanaPass c))
             (masked (GrafanaToken c))
  ∧ SafeForLog (SafeForLog c) = SafeForLog c.
Proof.
  assert (H : ∀ c, SafeForLog c
    = mkConfig (RepoURL c) (Branch c) (masked (SSHKey c)) (HTTPSUser c)
               (masked (HTTPSPassword c)) (RepoDir c) (RepoSubdir c) (DashboardsDir c)
               (PollInterval c) (GrafanaURL c) (GrafanaUser c) (masked (GrafanaPass c))
               (masked (GrafanaToken c))).
  { intros [? ? k ? p ? ? ? ? ? ? g t]. unfold SafeForLog, maskSensitiveFields, masked.
    simpl.
    unfold maskField. simpl.
    destruct (bool_decide (k = "")) eqn:Ek, (bool_decide (p = "")) eqn:Ep,
             (bool_decide (g = "")) eqn:Eg, (bool_decide (t = "")) eqn:Et;
      try apply bool_decide_eq_true in Ek; try apply bool_decide_eq_true in Ep;
      try apply bool_decide_eq_true in Eg; try apply bool_decide_eq_true in Et;
      subst; reflexivity. }
  split; [apply H|]. rewrite !H. simpl. unfold masked.
  repeat case_bool_decide; done.
Qed.

End Configuration.

Section HealthEndpoint.

Import Health.

(** X20. The health endpoint answers 503 exactly when neither Grafana nor the
    Git synchronisation is healthy and 200 otherwise; the status it
    encodes is [healthy] when both are, [unhealthy] when neither is and
    [degraded] when one is, with the two flags, the time of the last
    synchronisation and the last error as they were set.  A new checker
    answers 503, and a setter changes its own field only. *)
Theorem health_endpoint (c : Checker) (now : Z) :
  let r := Handler c now in
  (r.1 = 503 ↔ grafanaHealthy c = false ∧ gitSyncHealthy c = false)
  ∧ (r.1 = 200 ↔ grafanaHealthy c = true ∨ gitSyncHealthy c = true)
  ∧ (StatusText r.2 = "healthy" ↔ grafanaHealthy c = true ∧ gitSyncHealthy c = true)
  ∧ (StatusText r.2 = "unhealthy" ↔ grafanaHealthy c = false ∧ gitSyncHealthy c = false)
  ∧ (StatusText r.2 = "degraded" ↔ grafanaHealthy c ≠ gitSyncHealthy c)
  ∧ r.2 = mkStatus (StatusText r.2) now (grafanaHealthy c) (gitSyncHealthy c)
                   (lastSyncTime c) (lastError c)
  ∧ (Handler NewChecker now).1 = 503
  ∧ (∀ b, Handler (SetGitSyncHealth (SetGrafanaHealth c b) b) now
          = (if b then 200 else 503,
             mkStatus (if b then "healthy" else "unhealthy") now b b
                      (lastSyncTime c) (lastError c))).
Proof.
  destruct c as [[|] [|] t e]; simpl; split_and!; try done;
    try (intros []; done); naive_solver.
Qed.

End HealthEndpoint.

Section GitAuthentication.

Import Config Git.

Context {K : KeyParser}.

(** X23. The choice of the authentication of the Git client.  With an SSH key
    and an address that starts with [ssh://] or [git@] the HTTPS
    credentials are not looked at: the client signs as the user [git] with
    the key in which every backslash followed by n has become a line feed,
    accepts any host key, and a key that is blank or does not parse is an
    error even when HTTPS credentials are given.  In every other case the
    SSH key is not looked at: the client uses the HTTPS credentials when
    neither is empty, and fails with the message that no authentication is
    provided otherwise. *)
Theorem git_auth_choice (repoURL branch repoDir sshKey httpsUser httpsPassword : string) :
  let r := NewClient repoURL branch repoDir sshKey httpsUser httpsPassword in
  (sshKey ≠ "" → sshURL repoURL = true →
     (∀ u p, NewClient repoURL branch repoDir sshKey u p = r)
     ∧ (TrimSpace (unescapeNewlines sshKey) = "" →
          r = inr "failed to create git auth: SSH key is empty")
     ∧ (TrimSpace (unescapeNewlines sshKey) ≠ "" →
          r = match ParsePrivateKey (unescapeNewlines sshKey) with
              | inl err =>
                  inr ("failed to create git auth: unable to parse private key: "
                       +:+ err)
              | inr signer =>
                  inl (mkClient repoURL branch repoDir (PublicKeys "git" signer true))
              end))
  ∧ (sshKey = "" ∨ sshURL repoURL = false →
     (∀ key, key = "" ∨ sshURL repoURL = false →
             NewClient repoURL branch repoDir key httpsUser httpsPassword = r)
     ∧ (httpsUser ≠ "" → httpsPassword ≠ "" →
          r = inl (mkClient repoURL branch repoDir (BasicAuth httpsUser httpsPassword)))
     ∧ (httpsUser = "" ∨ httpsPassword = "" →
          r = inr "failed to create git auth: no authentication provided")).
Proof.
  intros r. subst r. unfold NewClient, createAuth, sshURL. split.
  - intros Hkey Hurl. rewrite Hurl.
    rewrite (bool_decide_eq_false_2 (sshKey = "")) by done. cbn [negb andb].
    split_and!; [done| |].
    + intros ->. by rewrite bool_decide_eq_true_2.
    + intros Hb. rewrite bool_decide_eq_false_2 by done.
      by destruct (ParsePrivateKey _).
  - intros Hno.
    assert (Hskip : ∀ key, key = "" ∨ HasPrefix repoURL "ssh://" || HasPrefix repoURL "git@" = false →
              negb (bool_decide (key = ""))
              && (HasPrefix repoURL "ssh://" || HasPrefix repoURL "git@") = false).
    { intros key [-> | ->]; [done|]. by rewrite andb_false_r. }
    rewrite (Hskip sshKey Hno). split_and!.
    + intros key Hk. by rewrite (Hskip key Hk).
    + intros Hu Hp. by rewrite !bool_decide_eq_false_2.
    + intros [-> | ->]; [done|]. by rewrite andb_false_r.
Qed.

(** X24. A configuration that [validate] accepts does not always give a Git
    client.  For such a configuration [NewClient] fails exactly when the
    SSH key is used and is blank or does not parse, or when it is not used
    and a HTTPS credential is missing; so a configuration with an SSH key,
    an address that is not an SSH address and no HTTPS credentials passes
    the validation and then fails with the message that no authentication
    is provided. *)
Theorem validated_config_git_auth (cfg : Config) :
  validate cfg = None →
  ((∃ err, gitClientOf cfg = inr err) ↔
     if negb (bool_decide (SSHKey cfg = "")) && sshURL (RepoURL cfg)
     then TrimSpace (unescapeNewlines (SSHKey cfg)) = ""
          ∨ ∃ err, ParsePrivateKey (unescapeNewlines (SSHKey cfg)) = inl err
     else HTTPSUser cfg = "" ∨ HTTPSPassword cfg = "")
  ∧ (sshURL (RepoURL cfg) = false → HTTPSUser cfg = "" ∨ HTTPSPassword cfg = "" →
     SSHKey cfg ≠ ""
     ∧ gitClientOf cfg = inr "failed to create git auth: no authentication provided").
Proof.
  intros Hv. unfold gitClientOf, NewClient, createAuth, sshURL. split.
  - destruct (negb (bool_decide (SSHKey cfg = "")) && _) eqn:Hssh.
    + destruct (bool_decide (TrimSpace _ = "")) eqn:Hb;
        [apply bool_decide_eq_true in Hb|apply bool_decide_eq_false in Hb].
      * split; [by left|intros _; by eexists].
      * destruct (ParsePrivateKey _) as [e|sg] eqn:Hp.
        -- split; [right; by eexists|intros _; by eexists].
        -- split; [by intros [? ?]|]. intros [?|[? ?]]; done.
    + destruct (bool_decide (HTTPSUser cfg = "")) eqn:Hu;
        [apply bool_decide_eq_true in Hu|apply bool_decide_eq_false in Hu];
        cbn [negb andb].
      * split; [by left|intros _; by eexists].
      * destruct (bool_decide (HTTPSPassword cfg = "")) eqn:Hp;
          [apply bool_decide_eq_true in Hp|apply bool_decide_eq_false in Hp];
          cbn [negb andb].
        -- split; [by right|intros _; by eexists].
        -- split; [by intros [? ?]|by intros [?|?]].
  - intros Hurl Hhttps. rewrite Hurl, andb_false_r.
    assert (Hno : negb (bool_decide (HTTPSUser cfg = ""))
                  && negb (bool_decide (HTTPSPassword cfg = "")) = false).
    { destruct Hhttps as [-> | ->]; [done|]. by rewrite andb_false_r. }
    rewrite Hno. split; [|done].
    unfold validate in Hv. rewrite Hno in Hv. intros Hk. rewrite Hk in Hv. done.
Qed.

End GitAuthentication.

Section FurtherExamples.

Import Sync Grafana.

Lemma scriptedNet_clock : ClockLaws (T := scriptedNet).
Proof.
  split.
  - intros [t script] req. simpl. destruct script; simpl; lia.
  - intros [t script] d. simpl. lia.
Qed.

Lemma walk_fills_cache_witness :
  let r := CreateFolderTreeFromNode (R := ideal) demoTree "" demoClient in
  r.2 = None
  ∧ GetFolderIDByPath r.1.1 "team/web" = 3
  ∧ GetFolderIDByPath r.1.1 "team" = 1.
Proof.
  intros r. split; [reflexivity|].
  destruct (walk_fills_cache (R := ideal) demoTree "" demoClient r.1.1 r.1.2)
    as (_ & _ & Hall); [reflexivity|vm_compute; repeat constructor; set_solver|].
  split.
  - apply (Hall (Node "web" "team/web" [] (uidOf 3) 3)); [|done|done].
    vm_compute. set_solver.
  - apply (Hall (Node "team" "team" [Node "api" "team/api" [] (uidOf 2) 2;
                                     Node "web" "team/web" [] (uidOf 3) 3] (uidOf 1) 1));
      [|done|done].
    vm_compute. set_solver.
Defined.


Lemma WaitForReady_terminates_witness :
  ∃ s' new,
    WaitForReady (R := ideal) (T := scriptedNet) (L := demoLibrary) 61 demoClient (2 * minute)
      (demoSession [Failed "connection refused"; Replied 503 ""; Replied 200 "ok"])
    = Some (s', None)
    ∧ events s' = new ∧ length (requestsIn new) = 3%nat.
Proof.
  destruct (WaitForReady_terminates (R := ideal) (T := scriptedNet) (L := demoLibrary)
              scriptedNet_clock demoClient (2 * minute)
              (demoSession [Failed "connection refused"; Replied 503 ""; Replied 200 "ok"])
              61)
    as (s' & err & new & Hrun & Hev & _); [vm_compute; lia|].
  exists s', new. vm_compute in Hrun. injection Hrun as <- <-.
  split; [reflexivity|]. split; [exact Hev|].
  simpl in Hev. subst new. reflexivity.
Defined.

Lemma CreateServiceAccountToken_contract_witness :
  ∃ s' setup probes,
    CreateServiceAccountToken (R := ideal) (T := scriptedNet) (L := demoLibrary) 121
      demoClient "git-sync-sa" "git-sync-token"
      (demoSession [Replied 200 "accounts"; Replied 200 "tokens"; Replied 200 "";
                    Replied 200 "created"; Replied 503 ""; Replied 200 "[]"])
    = Some (s', ("glsa_1", None))
    ∧ events s' = setup ++ probes
    ∧ basicRequests demoClient ["GET"; "POST"; "GET"; "DELETE"; "POST"] setup
    ∧ ∃ body, last probes = Some (Sent (tokenProbe demoClient "glsa_1") (Replied 200 body)).
Proof.
  eexists.
  assert (Hrun : CreateServiceAccountToken (R := ideal) (T := scriptedNet) (L := demoLibrary)
            121 demoClient "git-sync-sa" "git-sync-token"
            (demoSession [Replied 200 "accounts"; Replied 200 "tokens"; Replied 200 "";
                          Replied 200 "created"; Replied 503 ""; Replied 200 "[]"])
          = Some (_, ("glsa_1", None))) by (vm_compute; reflexivity).
  destruct (CreateServiceAccountToken_contract _ _ _ _ _ _ _ _ Hrun)
    as (setup & probes & Hev & Hsetup & Hprobes & Hp & Hlast).
  exists setup, probes. split; [exact Hrun|]. split; [exact Hev|]. by split.
Defined.

Lemma request_bounds_witness :
  let r := CreateFolderTreeFromNode (R := ideal) demoTree "" demoClient in
  ∃ new, calls r.1.1 = new ∧ (3 ≤ getsIn new)%nat ∧ (length new ≤ 9)%nat.
Proof.
  intros r.
  destruct (proj1 (request_bounds (R := ideal)) demoTree "" demoClient)
    as (new & Hc & _ & Hlen & _ & Hgets).
  exists new. split; [exact Hc|]. split; [by apply Hgets|exact Hlen].
Defined.


Lemma folders_ready_witness :
  ∃ st c' trees,
    BuildFolderGraph Filepath.Unix demoPaths "/d" = Some st
    ∧ createFolders (R := ideal) st (map_to_list (graph st)) demoClient
      = Some (c', trees, [])
    ∧ ∃ n, n ∈ List.flat_map nodesOf trees ∧ treeFullPath n = "a/c"
           ∧ GetFolderIDByPath c' "a/c" = treeID n.
Proof.
  assert (Hfile : "/d/a/c/y.json" ∈ demoPaths).
  { apply list_elem_of_In. right. by left. }
  assert (Hfolder : detectFolderFromPath Filepath.Unix (NewService "/repo" "." "/d")
                      "/d/a/c/y.json" ≠ "") by (by vm_compute).
  destruct (folders_ready (R := ideal) Filepath.Unix (NewService "/repo" "." "/d") demoPaths)
    as (st & Hb & Hcycle).
  destruct (Hcycle (map_to_list (graph st)) demoClient) as [_ Hready]; [done|].
  exists st. vm_compute in Hb. injection Hb as <-.
  eexists _, _. split; [reflexivity|].
  match goal with
  | |- ?G ∧ _ => assert (Hrun : G) by (vm_compute; reflexivity)
  end.
  split; [exact Hrun|].
  destruct (Hready _ _ Hrun "/d/a/c/y.json" Hfile Hfolder) as (n & Hin & Hp & _ & Hget).
  exists n. split; [exact Hin|]. split; [exact Hp|exact Hget].
Defined.

Lemma unchanged_files_no_upload_witness :
  ∃ s1 c1 tried,
    syncFiles (R := ideal) (J := demoJson) (U := refusingUploader) Filepath.Unix
      demoRange demoFiles "commit 1" demoPaths (NewService "/repo" "." "/d") demoClient
    = Some (s1, c1, Synced [] 0 tried)
    ∧ length tried = length demoPaths
    ∧ syncFiles (R := ideal) (J := demoJson) (U := refusingUploader) Filepath.Unix
        demoRange demoFiles "commit 2" demoPaths s1 c1
      = Some (s1, c1, NoChanges).
Proof.
  eexists _, _, _.
  match goal with
  | |- ?G ∧ _ => assert (Hrun : G) by (vm_compute; reflexivity)
  end.
  split; [exact Hrun|]. split; [reflexivity|].
  exact (proj2 (unchanged_files_no_upload (R := ideal) (J := demoJson)
                  (U := refusingUploader) Filepath.Unix demoRange demoFiles "commit 1"
                  demoPaths _ _ _ _ _ Hrun) "commit 2" _).
Defined.

Lemma validated_config_git_auth_witness :
  Config.validate demoConfig = None
  ∧ gitClientOf (K := demoKeys) demoConfig
    = inr "failed to create git auth: no authentication provided".
Proof.
  split; [reflexivity|].
  apply (validated_config_git_auth (K := demoKeys) demoConfig);
    [reflexivity|reflexivity|by left].
Defined.

End FurtherExamples.
